(** * gitingest: the bounded directory walk and its renderings

    A shallow embedding of [src/gitingest/query_ingestion.py]: the pattern
    filter, the symlink guard, the text classifier, the recursive directory
    scan with its shared [seen_paths] / [stats] objects, the child ordering
    and the three renderers, followed by the properties of the walk.

    Conventions.
    - A [pathlib.Path] is the list of its components below the filesystem
      root ([/repo/src/a.py] is [["repo"; "src"; "a.py"]]).
    - Python [int]s that count files or bytes are never negative: they are
      values of [N].  The recursion depth is a [nat].
    - [str] values are [string]s (sequences of bytes, UTF-8); comparing two
      of them byte by byte is comparing them code point by code point.
    - Everything the program asks of the operating system or of a library
      outside the repository is a field of [environment].  A call of
      [pathlib] answers with an [os_result]: its value, or the exception it
      raises, which the walk hands on to the handlers of the source. *)

From stdpp Require Import base gmap strings.
From Stdlib Require Import NArith String Ascii List Lia Bool.
From Stdlib Require Import Sorting.Sorted Sorting.Permutation.
From Stdlib.Strings Require Import Byte.
From Stdlib Require Import DecimalString DecimalPos.
Import ListNotations.

Open Scope string_scope.
Open Scope list_scope.
Open Scope N_scope.

(** ** Module constants *)

Definition MAX_FILE_SIZE : N := 10 * 1024 * 1024.
Definition MAX_DIRECTORY_DEPTH : nat := 20.
Definition MAX_FILES : N := 10000.
Definition MAX_TOTAL_SIZE_BYTES : N := 500 * 1024 * 1024.

(** ** Paths *)

Definition path := list string.

(** [Path.name]: the last component, the empty string for the root. *)
Definition path_name (p : path) : string := last p "".

(** [path / name]. *)
Definition path_child (p : path) (name : string) : path := p ++ [name].

(** [path.parents]: the proper ancestors, the nearest one first. *)
Definition path_parents (p : path) : list path :=
  map (fun n => firstn n p) (rev (seq 0 (length p))).

(** [path.relative_to(base)]: [None] stands for the [ValueError] raised when
    [base] is not a leading part of [path]. *)
Fixpoint relative_to (p base : path) : option path :=
  match base, p with
  | [], _ => Some p
  | b :: base', c :: p' => if String.eqb b c then relative_to p' base' else None
  | _ :: _, [] => None
  end.

Definition path_eqb (p q : path) : bool := bool_decide (p = q).

(** [str(path)] of an absolute path. *)
Definition path_str (p : path) : string := "/" +:+ String.concat "/" p.

(** [str(path)] of a relative path; the empty relative path prints as a dot. *)
Definition rel_str (r : path) : string :=
  match r with
  | [] => "."
  | _ => String.concat "/" r
  end.

(** ** Strings *)

Definition ascii_lower (c : ascii) : ascii :=
  let n := N_of_ascii c in
  if (65 <=? n) && (n <=? 90) then ascii_of_N (n + 32) else c.

(** [str.lower()].  Only the ASCII letters are mapped: no character outside
    ASCII lowers to a letter of ["readme.md"], the one string the result is
    compared with. *)
Fixpoint str_lower (s : string) : string :=
  match s with
  | EmptyString => EmptyString
  | String c s' => String (ascii_lower c) (str_lower s')
  end.

(** [s.startswith(".")]. *)
Definition starts_with_dot (s : string) : bool := String.prefix "." s.

(** Truth value of a [str]. *)
Definition str_truthy (s : string) : bool := negb (String.eqb s "").

(** [str(n)] for a non-negative [int]. *)
Definition str_of_N (n : N) : string := NilZero.string_of_uint (N.to_uint n).

(** [Path.suffix]: the last dot of the name and what follows it, provided the
    dot is neither the first nor the last character of the name. *)
Fixpoint split_last_dot (rev_name : list ascii) (ext : list ascii)
  : option (list ascii * list ascii) :=
  match rev_name with
  | [] => None
  | c :: stem => if Ascii.eqb c "." then Some (stem, ext)
                 else split_last_dot stem (c :: ext)
  end.

Definition path_suffix (p : path) : string :=
  match split_last_dot (rev (list_ascii_of_string (path_name p))) [] with
  | Some (_ :: _, (_ :: _) as ext) => String "." (string_of_list_ascii ext)
  | _ => ""
  end.

(** ** Exceptions *)

Inductive exn : Type :=
| MaxFilesReachedError
| MaxFileSizeReachedError
| AlreadyVisitedError
| PermissionError
| OSError
| RuntimeError
| RecursionError
| ValueError (msg : string).

Inductive outcome (A : Type) : Type :=
| Ok (a : A)
| Raise (e : exn).
Arguments Ok {A} a.
Arguments Raise {A} e.

(** ** The environment: filesystem and outside libraries *)

(** What a call of [pathlib] to the operating system raises when it fails:
    [PermissionError]; an [OSError] of another class ([NotADirectoryError],
    a name that is too long, ...); the [RuntimeError] with which
    [Path.resolve()] reports a loop of symlinks; the [ValueError] of a path
    that holds a null character. *)
Inductive os_error : Type :=
| OsPermissionError
| OsOSError
| OsRuntimeError
| OsValueError.

Definition exn_of_os_error (f : os_error) : exn :=
  match f with
  | OsPermissionError => PermissionError
  | OsOSError => OSError
  | OsRuntimeError => RuntimeError
  | OsValueError => ValueError "embedded null byte"
  end.

(** The answer of such a call. *)
Inductive os_result (A : Type) : Type :=
| Done (a : A)
| Failed (f : os_error).
Arguments Done {A} a.
Arguments Failed {A} f.

(** [except (OSError, ValueError)]: [PermissionError] is a subclass of
    [OSError]. *)
Definition is_OSError_or_ValueError (f : os_error) : bool :=
  match f with
  | OsPermissionError | OsOSError | OsValueError => true
  | OsRuntimeError => false
  end.

Record environment : Type := {
  (** [Path.resolve()]. *)
  fs_resolve : path -> os_result path;
  (** [Path.exists()], [Path.is_file()] and [Path.is_dir()] follow links;
      they answer [False] for what [pathlib] takes as a missing path and
      raise the other errors of [stat]. *)
  fs_exists : path -> os_result bool;
  fs_is_file : path -> os_result bool;
  fs_is_dir : path -> os_result bool;
  fs_is_symlink : path -> os_result bool;
  (** [Path.stat().st_size], following links. *)
  fs_st_size : path -> os_result N;
  (** The names [Path.iterdir()] yields, in the order the operating system
      gives them. *)
  fs_iterdir : path -> os_result (list string);
  (** The bytes of a file opened with mode ["rb"]; [None] on [OSError]. *)
  fs_open_rb : path -> option (list byte);
  (** The text of a file opened with [encoding="utf-8", errors="ignore"];
      [inr e] when [open] or [read] raises the [OSError] printed as [e]. *)
  fs_open_text : path -> string + string;
  (** [gitingest.notebook_utils.process_notebook], with the same reading of
      [inr]. *)
  process_notebook : path -> string + string;
  (** [fnmatch.fnmatch name pattern]. *)
  fnmatch : string -> string -> bool;
  (** [len(encoding.encode(s, disallowed_special=()))] for the [cl100k_base]
      encoding; [None] when it raises [ValueError] or [UnicodeEncodeError]. *)
  tiktoken_len : string -> option N;
  (** [f"{a / b:.1f}"], a floating point rendering. *)
  format_1f : N -> N -> string
}.

(** ** Query *)

(** The query dictionary.  A key that may be missing or hold [None] is an
    [option]; [subpath] is kept as the components that remain after
    [lstrip("/")], so the subpath ["/"] is the empty list. *)
Record query : Type := {
  local_path : path;
  subpath : path;
  slug : string;
  user_name : option string;
  repo_name : string;
  commit : option string;
  branch : option string;
  include_patterns : list string;
  ignore_patterns : list string;
  max_file_size : N
}.

(** [query["include_patterns"]], for use where a parameter of the same name
    is in scope. *)
Definition query_include_patterns (q : query) : list string := include_patterns q.

(** ** Pattern filter *)

Definition _should_include (E : environment) (p base_path : path)
    (include_patterns : list string) : bool :=
  match relative_to p base_path with
  | None => false
  | Some rel_path =>
      existsb (fun pattern => fnmatch E (rel_str rel_path) pattern) include_patterns
  end.

Definition _should_exclude (E : environment) (p base_path : path)
    (ignore_patterns : list string) : bool :=
  match relative_to p base_path with
  | None => true
  | Some rel_path =>
      existsb (fun pattern => str_truthy pattern && fnmatch E (rel_str rel_path) pattern)
              ignore_patterns
  end.

(** ** Symlink guard *)

(** The handler of [_is_safe_symlink]: an [OSError] or a [ValueError] of a
    resolution makes the link unsafe, any other exception leaves the call. *)
Definition unsafe_if_caught (f : os_error) : outcome bool :=
  if is_OSError_or_ValueError f then Ok false else Raise (exn_of_os_error f).

Definition _is_safe_symlink (E : environment) (symlink_path base_path : path)
  : outcome bool :=
  match fs_resolve E symlink_path with
  | Failed f => unsafe_if_caught f
  | Done target_path =>
      match fs_resolve E base_path with
      | Failed f => unsafe_if_caught f
      | Done base_resolved =>
          Ok (existsb (path_eqb base_resolved) (path_parents target_path)
              || path_eqb target_path base_resolved)
      end
  end.

(** ** Text classifier *)

Definition byte_of_code (n : N) : byte :=
  match Byte.of_N n with
  | Some b => b
  | None => x00
  end.

(** [bytes([7, 8, 9, 10, 12, 13, 27] + list(range(0x20, 0x100)))]. *)
Definition text_characters : list byte :=
  map byte_of_code ([7; 8; 9; 10; 12; 13; 27] ++ map N.of_nat (seq 32 224)).

(** [chunk.translate(None, delete)]: the bytes of [chunk] not in [delete]. *)
Definition translate_delete (chunk delete : list byte) : list byte :=
  filter (fun b => negb (existsb (Byte.eqb b) delete)) chunk.

Definition bytes_truthy (b : list byte) : bool :=
  match b with
  | [] => false
  | _ :: _ => true
  end.

Definition _is_text_file (E : environment) (file_path : path) : bool :=
  match fs_open_rb E file_path with
  | Some file =>
      let chunk := firstn 1024 file in
      negb (bytes_truthy (translate_delete chunk text_characters))
  | None => false
  end.

Definition _read_file_content (E : environment) (file_path : path) : string :=
  let read :=
    if String.eqb (path_suffix file_path) ".ipynb"
    then process_notebook E file_path
    else fs_open_text E file_path in
  match read with
  | inl text => text
  | inr e => "Error reading file: " +:+ e
  end.

(** ** The tree model *)

(** The two shapes of node dictionary.  The ["path"] entry, [str(path)] in
    the source, is kept as the path it prints. *)
#[warnings="-register-all"]
Inductive node : Type :=
| FileNode (name : string) (size : N) (content : string) (npath : path)
| DirNode (name : string) (size : N) (children : list node)
          (file_count dir_count : N) (npath : path) (ignore_content : bool).

Definition node_name (n : node) : string :=
  match n with
  | FileNode name _ _ _ => name
  | DirNode name _ _ _ _ _ _ => name
  end.

Definition node_size (n : node) : N :=
  match n with
  | FileNode _ size _ _ => size
  | DirNode _ size _ _ _ _ _ => size
  end.

Definition is_file_node (n : node) : bool :=
  match n with
  | FileNode _ _ _ _ => true
  | DirNode _ _ _ _ _ _ _ => false
  end.

Definition is_dir_node (n : node) : bool := negb (is_file_node n).

(** ["file_count"] and ["dir_count"] of a directory node (the source reads
    them from directory nodes only). *)
Definition node_file_count (n : node) : N :=
  match n with
  | FileNode _ _ _ _ => 0
  | DirNode _ _ _ fc _ _ _ => fc
  end.

Definition node_dir_count (n : node) : N :=
  match n with
  | FileNode _ _ _ _ => 0
  | DirNode _ _ _ _ dc _ _ => dc
  end.

Definition node_children (n : node) : list node :=
  match n with
  | FileNode _ _ _ _ => []
  | DirNode _ _ ch _ _ _ _ => ch
  end.

Definition NON_TEXT : string := "[Non-text file]".

(** ** Child ordering *)

(** [list.sort(key=...)] is a stable sort: an element goes in front of the
    first element of the sorted rest whose key is not smaller. *)
Fixpoint insert_by_name (x : node) (sorted : list node) : list node :=
  match sorted with
  | [] => [x]
  | y :: rest =>
      if String.leb (node_name x) (node_name y) then x :: y :: rest
      else y :: insert_by_name x rest
  end.

Definition sort_by_name (l : list node) : list node :=
  fold_right insert_by_name [] l.

Definition is_readme (f : node) : bool :=
  String.eqb (str_lower (node_name f)) "readme.md".

Definition is_hidden (n : node) : bool := starts_with_dot (node_name n).

Definition _sort_children (children : list node) : list node :=
  let files := filter is_file_node children in
  let directories := filter is_dir_node children in
  let readme_files := filter is_readme files in
  let other_files := filter (fun f => negb (is_readme f)) files in
  let regular_files := filter (fun f => negb (is_hidden f)) other_files in
  let hidden_files := filter is_hidden other_files in
  let regular_dirs := filter (fun d => negb (is_hidden d)) directories in
  let hidden_dirs := filter is_hidden directories in
  readme_files ++ sort_by_name regular_files ++ sort_by_name hidden_files
    ++ sort_by_name regular_dirs ++ sort_by_name hidden_dirs.

(** ** Shared state of one scan *)

(** A read the walk performs on the filesystem: listing a directory or
    opening a file.  The trace is not a variable of the source; it records
    the order of the calls to [iterdir] and [open], so that a path being
    left unread can be stated. *)
Inductive io_event : Type :=
| IoListdir (p : path)
| IoOpen (p : path).

(** The objects every call of the walk shares by reference: the set
    [seen_paths], the dictionary [stats] and the trace of reads. *)
Record scan_state : Type := {
  seen_paths : gset path;
  total_files : N;
  total_size : N;
  io_trace : list io_event
}.

(** The defaults [_scan_directory] builds when it is given [None]. *)
Definition fresh_state : scan_state :=
  {| seen_paths := ∅; total_files := 0; total_size := 0; io_trace := [] |}.

Definition add_seen (p : path) (st : scan_state) : scan_state :=
  {| seen_paths := {[ p ]} ∪ seen_paths st; total_files := total_files st;
     total_size := total_size st; io_trace := io_trace st |}.

(** [stats["total_files"] += 1; stats["total_size"] += file_size]. *)
Definition count_file (file_size : N) (st : scan_state) : scan_state :=
  {| seen_paths := seen_paths st; total_files := total_files st + 1;
     total_size := total_size st + file_size; io_trace := io_trace st |}.

Definition trace (ev : io_event) (st : scan_state) : scan_state :=
  {| seen_paths := seen_paths st; total_files := total_files st;
     total_size := total_size st; io_trace := io_trace st ++ [ev] |}.

(** The [result] dictionary of the directory being scanned. *)
Record dir_result : Type := {
  r_name : string;
  r_size : N;
  r_children : list node;
  r_file_count : N;
  r_dir_count : N;
  r_path : path;
  r_ignore_content : bool
}.

Definition new_result (p : path) : dir_result :=
  {| r_name := path_name p; r_size := 0; r_children := []; r_file_count := 0;
     r_dir_count := 0; r_path := p; r_ignore_content := false |}.

Definition node_of_result (r : dir_result) : node :=
  DirNode (r_name r) (r_size r) (r_children r) (r_file_count r) (r_dir_count r)
          (r_path r) (r_ignore_content r).

(** [result["ignore_content"] = True]. *)
Definition set_ignore_content (r : dir_result) : dir_result :=
  {| r_name := r_name r; r_size := r_size r; r_children := r_children r;
     r_file_count := r_file_count r; r_dir_count := r_dir_count r;
     r_path := r_path r; r_ignore_content := true |}.

(** [result["children"] = children]. *)
Definition set_children (ch : list node) (r : dir_result) : dir_result :=
  {| r_name := r_name r; r_size := r_size r; r_children := ch;
     r_file_count := r_file_count r; r_dir_count := r_dir_count r;
     r_path := r_path r; r_ignore_content := r_ignore_content r |}.

(** Appending a file node: [children.append(child)], [size += file_size],
    [file_count += 1]. *)
Definition add_file (child : node) (file_size : N) (r : dir_result) : dir_result :=
  {| r_name := r_name r; r_size := r_size r + file_size;
     r_children := r_children r ++ [child];
     r_file_count := r_file_count r + 1; r_dir_count := r_dir_count r;
     r_path := r_path r; r_ignore_content := r_ignore_content r |}.

(** Appending a scanned subdirectory: [children.append(subdir)],
    [size += subdir["size"]], [file_count += subdir["file_count"]],
    [dir_count += 1 + subdir["dir_count"]]. *)
Definition add_subdir (subdir : node) (r : dir_result) : dir_result :=
  {| r_name := r_name r; r_size := r_size r + node_size subdir;
     r_children := r_children r ++ [subdir];
     r_file_count := r_file_count r + node_file_count subdir;
     r_dir_count := r_dir_count r + (1 + node_dir_count subdir);
     r_path := r_path r; r_ignore_content := r_ignore_content r |}.

(** [subdir["name"] = name; subdir["path"] = str(p)]. *)
Definition rename_node (name : string) (p : path) (n : node) : node :=
  match n with
  | FileNode _ size content _ => FileNode name size content p
  | DirNode _ size ch fc dc _ ic => DirNode name size ch fc dc p ic
  end.

(** Truth value of a list of patterns. *)
Definition patterns_truthy (patterns : list string) : bool :=
  match patterns with
  | [] => false
  | _ :: _ => true
  end.

(** [subdir and (not include_patterns or subdir["file_count"] > 0)]. *)
Definition keeps_subdir (subdir : option node) (include_patterns : list string) : bool :=
  match subdir with
  | None => false
  | Some d => negb (patterns_truthy include_patterns) || (0 <? node_file_count d)
  end.

(** ** The walk *)

(** What a call that works on [result] leaves behind: the dictionary, the
    shared state, and whether it returned or raised. *)
Definition step : Type := dir_result * scan_state * outcome unit.

(** The type of [_scan_directory] once the query is fixed. *)
Definition scanner : Type :=
  path -> scan_state -> nat -> scan_state * outcome (option node).

(** Classifying and reading the file behind a new file node. *)
Definition read_content (E : environment) (p : path) (st : scan_state)
  : string * scan_state :=
  let st := trace (IoOpen p) st in
  if _is_text_file E p
  then (_read_file_content E p, trace (IoOpen p) st)
  else (NON_TEXT, st).

Definition _process_file (E : environment) (item : path)
    (result : dir_result) (st : scan_state) : step :=
  match fs_st_size E item with
  | Failed f => (result, st, Raise (exn_of_os_error f))
  | Done file_size =>
      if MAX_TOTAL_SIZE_BYTES <? total_size st + file_size
      then (result, st, Raise MaxFileSizeReachedError)
      else
        let st := count_file file_size st in
        if MAX_FILES <? total_files st
        then (result, st, Raise MaxFilesReachedError)
        else
          let '(content, st) := read_content E item st in
          let child := FileNode (path_name item) file_size content item in
          (add_file child file_size result, st, Ok tt)
  end.

Definition _process_symlink (E : environment) (_scan_directory : scanner)
    (item : path) (result : dir_result) (st : scan_state) (depth : nat)
    (base_path : path) (include_patterns : list string) : step :=
  match _is_safe_symlink E item base_path with
  | Raise e => (result, st, Raise e)
  | Ok safe =>
      if negb safe
      then (result, st, Raise AlreadyVisitedError)
      else
        match fs_resolve E item with
        | Failed f => (result, st, Raise (exn_of_os_error f))
        | Done real_path =>
            if bool_decide (real_path ∈ seen_paths st)
            then (result, st, Raise AlreadyVisitedError)
            else
              match fs_is_file E real_path with
              | Failed f => (result, st, Raise (exn_of_os_error f))
              | Done true =>
                  match fs_st_size E real_path with
                  | Failed f => (result, st, Raise (exn_of_os_error f))
                  | Done file_size =>
                      if MAX_TOTAL_SIZE_BYTES <? total_size st + file_size
                      then (result, st, Raise MaxFileSizeReachedError)
                      else
                        let st := count_file file_size st in
                        if MAX_FILES <? total_files st
                        then (result, st, Raise MaxFilesReachedError)
                        else
                          let '(content, st) := read_content E real_path st in
                          let child := FileNode (path_name item) file_size content item in
                          (add_file child file_size result, st, Ok tt)
                  end
              | Done false =>
                  match fs_is_dir E real_path with
                  | Failed f => (result, st, Raise (exn_of_os_error f))
                  | Done true =>
                      match _scan_directory real_path st (S depth) with
                      | (st, Raise e) => (result, st, Raise e)
                      | (st, Ok subdir) =>
                          match subdir with
                          | Some d =>
                              if keeps_subdir subdir include_patterns
                              then (add_subdir (rename_node (path_name item) item d) result,
                                    st, Ok tt)
                              else (result, st, Ok tt)
                          | None => (result, st, Ok tt)
                          end
                      end
                  | Done false => (result, st, Ok tt)
                  end
              end
        end
  end.

(** The handler of [_process_item]:
    [except (MaxFileSizeReachedError, AlreadyVisitedError)].  The first
    [item.is_file()] of [_process_item] stands before the [try]. *)
Definition catch_item (s : step) : step :=
  match s with
  | (result, st, Raise MaxFileSizeReachedError) => (result, st, Ok tt)
  | (result, st, Raise AlreadyVisitedError) => (result, st, Ok tt)
  | _ => s
  end.

Definition _process_item (E : environment) (_scan_directory : scanner)
    (item : path) (q : query) (result : dir_result) (st : scan_state)
    (depth : nat) (ignore_patterns : list string) (base_path : path)
    (include_patterns : list string) : step :=
  if _should_exclude E item base_path ignore_patterns then (result, st, Ok tt)
  else
    match fs_is_file E item with
    | Failed f => (result, st, Raise (exn_of_os_error f))
    | Done is_file =>
        if is_file && patterns_truthy (query_include_patterns q)
           && negb (_should_include E item base_path include_patterns)
        then (set_ignore_content result, st, Ok tt)
        else
          catch_item
            (let '(result, st, o) :=
               match fs_is_symlink E item with
               | Failed f => (result, st, Raise (exn_of_os_error f))
               | Done true =>
                   _process_symlink E _scan_directory item result st depth
                                    base_path include_patterns
               | Done false => (result, st, Ok tt)
               end in
             match o with
             | Raise e => (result, st, Raise e)
             | Ok _ =>
                 match fs_is_file E item with
                 | Failed f => (result, st, Raise (exn_of_os_error f))
                 | Done true => _process_file E item result st
                 | Done false =>
                     match fs_is_dir E item with
                     | Failed f => (result, st, Raise (exn_of_os_error f))
                     | Done true =>
                         match _scan_directory item st (S depth) with
                         | (st, Raise e) => (result, st, Raise e)
                         | (st, Ok subdir) =>
                             match subdir with
                             | Some d =>
                                 if keeps_subdir subdir include_patterns
                                 then (add_subdir d result, st, Ok tt)
                                 else (result, st, Ok tt)
                             | None => (result, st, Ok tt)
                             end
                         end
                     | Done false => (result, st, Ok tt)
                     end
                 end
             end)
    end.

(** The [for] loop of [_scan_directory]: an exception leaving
    [_process_item] ends the loop. *)
Fixpoint process_items (E : environment) (_scan_directory : scanner)
    (items : list path) (q : query) (result : dir_result) (st : scan_state)
    (depth : nat) : step :=
  match items with
  | [] => (result, st, Ok tt)
  | item :: rest =>
      match _process_item E _scan_directory item q result st depth
                          (ignore_patterns q) (local_path q) (include_patterns q) with
      | (result, st, Ok _) => process_items E _scan_directory rest q result st depth
      | (result, st, Raise e) => (result, st, Raise e)
      end
  end.

(** The body of [_scan_directory], its recursive calls going to [self].
    The handlers of the loop, [except MaxFilesReachedError] and
    [except PermissionError], take what the listing and what any item of
    the loop has raised. *)
Definition scan_directory_body (E : environment) (q : query) (self : scanner)
    (p : path) (st : scan_state) (depth : nat)
  : scan_state * outcome (option node) :=
  if Nat.ltb MAX_DIRECTORY_DEPTH depth then (st, Ok None)
  else if MAX_FILES <=? total_files st then (st, Ok None)
  else if MAX_TOTAL_SIZE_BYTES <=? total_size st then (st, Ok None)
  else
    match fs_resolve E p with
    | Failed f => (st, Raise (exn_of_os_error f))
    | Done real_path =>
        if bool_decide (real_path ∈ seen_paths st) then (st, Ok None)
        else
          let st := add_seen real_path st in
          let result := new_result p in
          let st := trace (IoListdir p) st in
          let '(result, st, o) :=
            match fs_iterdir E p with
            | Failed f => (result, st, Raise (exn_of_os_error f))
            | Done names =>
                process_items E self (map (path_child p) names) q result st depth
            end in
          let finished :=
            (st, Ok (Some (node_of_result
                             (set_children (_sort_children (r_children result)) result)))) in
          match o with
          | Ok _ => finished
          | Raise MaxFilesReachedError => finished
          | Raise PermissionError => finished
          | Raise e => (st, Raise e)
          end
    end.

(** The recursion of [_scan_directory], unrolled [fuel] times; a call
    beyond that raises [RecursionError], as a call beyond the interpreter's
    recursion limit does. *)
Fixpoint scan_directory_fuel (fuel : nat) (E : environment) (q : query)
    (p : path) (st : scan_state) (depth : nat)
  : scan_state * outcome (option node) :=
  match fuel with
  | O => (st, Raise RecursionError)
  | S fuel' => scan_directory_body E q (scan_directory_fuel fuel' E q) p st depth
  end.

(** Below depth [d] the calls nest at most [MAX_DIRECTORY_DEPTH + 2 - d]
    deep, and at least one call is made: this is the fuel given here, and
    any larger amount gives the same result (see
    [scan_directory_fuel_enough]). *)
Definition _scan_directory (E : environment) (p : path) (q : query)
    (st : scan_state) (depth : nat) : scan_state * outcome (option node) :=
  scan_directory_fuel (S (S MAX_DIRECTORY_DEPTH - depth)) E q p st depth.

(** ** Renderers *)

(** The line feed character and [s * n]. *)
Definition LF : string := String (ascii_of_N 10) "".

Fixpoint str_repeat (s : string) (n : nat) : string :=
  match n with
  | O => ""
  | S n' => s +:+ str_repeat s n'
  end.

(** An entry of the list [_extract_files_content] builds; a content of
    [None] marks a file over the size limit. *)
Record file_info : Type := {
  fi_path : string;
  fi_content : option string;
  fi_size : N
}.

Fixpoint _extract_files_content (q : query) (nd : node) (max_file_size : N)
    (files : list file_info) : outcome (list file_info) :=
  match nd with
  | FileNode _ size content npath =>
      if negb (String.eqb content NON_TEXT) then
        let content := if max_file_size <? size then None else Some content in
        match relative_to npath (local_path q) with
        | None => Raise (ValueError "path is not in the subpath of local_path")
        | Some relative_path =>
            Ok (files ++ [{| fi_path := rel_str relative_path;
                             fi_content := content; fi_size := size |}])
        end
      else Ok files
  | DirNode _ _ children _ _ _ _ =>
      (fix each_child (cs : list node) (files : list file_info) {struct cs} :=
         match cs with
         | [] => Ok files
         | child :: rest =>
             match _extract_files_content q child max_file_size files with
             | Ok files => each_child rest files
             | Raise e => Raise e
             end
         end) children files
  end.

(** Truth value of [file["content"]]: [None] and the empty string are false. *)
Definition content_truthy (c : option string) : bool :=
  match c with
  | None => false
  | Some s => str_truthy s
  end.

Definition separator : string := str_repeat "=" 48 +:+ LF.

Fixpoint _create_file_content_string_from (output : string) (files : list file_info)
  : string :=
  match files with
  | [] => output
  | file :: rest =>
      match fi_content file with
      | Some content =>
          if str_truthy content then
            _create_file_content_string_from
              (output +:+ separator +:+ ("File: " +:+ fi_path file +:+ LF)
                      +:+ separator +:+ (content +:+ LF +:+ LF))
              rest
          else _create_file_content_string_from output rest
      | None => _create_file_content_string_from output rest
      end
  end.

Definition _create_file_content_string (files : list file_info) : string :=
  _create_file_content_string_from "" files.

(** Truth value of an optional [str] entry of the query. *)
Definition opt_truthy (o : option string) : bool :=
  match o with
  | None => false
  | Some s => str_truthy s
  end.

Definition opt_get (o : option string) : string :=
  match o with
  | None => "None"
  | Some s => s
  end.



Definition _generate_token_string (E : environment) (context_string : string)
  : option string :=
  match tiktoken_len E context_string with
  | None => None
  | Some total_tokens =>
      if 1000000 <? total_tokens then Some (format_1f E total_tokens 1000000 +:+ "M")
      else if 1000 <? total_tokens then Some (format_1f E total_tokens 1000 +:+ "k")
      else Some (str_of_N total_tokens)
  end.

(** ** Entry point of the directory mode *)

(** The path [run_ingest_query] roots the walk at:
    [query["local_path"] / query["subpath"].lstrip("/")]. *)
Definition scan_root (q : query) : path := local_path q ++ subpath q.




(** ** The single-file mode and the entry point *)

(** [f"{n:,}"]: the decimal digits in groups of three, from the right. *)
Fixpoint group_thousands (rev_digits : list ascii) : list ascii :=
  match rev_digits with
  | a :: b :: c :: rest =>
      match rest with
      | [] => rev_digits
      | _ :: _ => a :: b :: c :: ","%char :: group_thousands rest
      end
  | _ => rev_digits
  end.

Definition format_thousands (n : N) : string :=
  string_of_list_ascii
    (rev (group_thousands (rev (list_ascii_of_string (str_of_N n))))).

(** [len(s.splitlines())].  A line ends at a line feed, a carriage return
    (with the line feed that follows it, if any), a vertical tab, a form
    feed, a file, group or record separator, and at the characters U+0085,
    U+2028 and U+2029 (in UTF-8 the bytes C2 85, E2 80 A8 and E2 80 A9);
    [open_line] tells that characters have been read since the last end. *)
Fixpoint splitlines_len (s : string) (open_line : bool) : N :=
  match s with
  | EmptyString => if open_line then 1 else 0
  | String c rest =>
      let n := N_of_ascii c in
      if n =? 13 then
        match rest with
        | String c2 rest2 =>
            if N_of_ascii c2 =? 10 then 1 + splitlines_len rest2 false
            else 1 + splitlines_len rest false
        | EmptyString => 1
        end
      else if (n =? 10) || (n =? 11) || (n =? 12) || (n =? 28) || (n =? 29) || (n =? 30)
      then 1 + splitlines_len rest false
      else if n =? 194 then
        match rest with
        | String c2 rest2 =>
            if N_of_ascii c2 =? 133 then 1 + splitlines_len rest2 false
            else splitlines_len rest true
        | EmptyString => 1
        end
      else if n =? 226 then
        match rest with
        | String c2 (String c3 rest3) =>
            if (N_of_ascii c2 =? 128)
               && ((N_of_ascii c3 =? 168) || (N_of_ascii c3 =? 169))
            then 1 + splitlines_len rest3 false
            else splitlines_len rest true
        | _ => splitlines_len rest true
        end
      else splitlines_len rest true
  end.

(** What a call of the entry point can raise: an exception of the walk, or
    the [KeyError] of a key the query does not hold. *)
Inductive raised : Type :=
| Exn (e : exn)
| KeyError (key : string).

Inductive returned (A : Type) : Type :=
| Returns (a : A)
| Raises (r : raised).
Arguments Returns {A} a.
Arguments Raises {A} r.


Definition TOO_LARGE : string := "[Content ignored: file too large]".

Definition _ingest_single_file (E : environment) (p : path) (q : query)
  : returned (string * string * string) :=
  match fs_is_file E p with
  | Failed f => Raises (Exn (exn_of_os_error f))
  | Done false => Raises (Exn (ValueError ("Path " +:+ path_str p +:+ " is not a file")))
  | Done true =>
      if negb (_is_text_file E p)
      then Raises (Exn (ValueError ("File " +:+ path_str p +:+ " is not a text file")))
      else
        match fs_st_size E p with
        | Failed f => Raises (Exn (exn_of_os_error f))
        | Done file_size =>
            let content :=
              if max_file_size q <? file_size then TOO_LARGE
              else _read_file_content E p in
            match relative_to p (local_path q) with
            | None => Raises (Exn (ValueError "path is not in the subpath of local_path"))
            | Some relative_path =>
                let file_info := {| fi_path := rel_str relative_path;
                                    fi_content := Some content; fi_size := file_size |} in
                match user_name q with
                | None => Raises (KeyError "user_name")
                | Some user =>
                    let summary :=
                      "Repository: " +:+ user +:+ "/" +:+ repo_name q +:+ LF
                      +:+ "File: " +:+ path_name p +:+ LF
                      +:+ "Size: " +:+ format_thousands file_size +:+ " bytes" +:+ LF
                      +:+ "Lines: " +:+ format_thousands (splitlines_len content false)
                      +:+ LF in
                    let files_content := _create_file_content_string [file_info] in
                    let tree := "Directory structure:" +:+ LF +:+ "└── " +:+ path_name p in
                    let summary :=
                      match _generate_token_string E files_content with
                      | Some formatted_tokens =>
                          if str_truthy formatted_tokens
                          then summary +:+ LF +:+ "Estimated tokens: " +:+ formatted_tokens
                          else summary
                      | None => summary
                      end in
                    Returns (summary, tree, files_content)
                end
            end
        end
  end.


(** ** Cloning ([src/gitingest/repository_clone.py]) *)

Module Clone.

(** [CloneConfig], without the progress callback, which only
    [_run_git_command] uses. *)
Record CloneConfig : Type := {
  url : string;
  local_path : string;
  commit : option string;
  branch : option string
}.

(** The two programs the module starts.  [curl_head u] is the return code
    and the decoded output of [curl -I u]; [run_git args] is what
    [_run_git_command] gives for the command [args]: the output and the
    error output of the command, or the message of the [RuntimeError] it
    raises when the command fails. *)
Record programs : Type := {
  curl_head : string -> N * string;
  run_git : list string -> (string * string) + string
}.

Inductive clone_error : Type :=
| CloneValueError (msg : string)
| GitRuntimeError (msg : string).

(** [needle in hay] for two [str]. *)
Fixpoint str_contains (needle hay : string) : bool :=
  String.prefix needle hay
  || match hay with
     | EmptyString => false
     | String _ rest => str_contains needle rest
     end.

Definition _check_repo_exists (P : programs) (url : string) : bool :=
  let '(returncode, stdout_str) := curl_head P url in
  if negb (returncode =? 0) then false
  else negb (str_contains "HTTP/1.1 404" stdout_str)
       && negb (str_contains "HTTP/2 404" stdout_str).

(** One awaited call of [_run_git_command], added to the commands run so
    far. *)
Definition git (P : programs) (log : list (list string)) (args : list string)
  : list (list string) * ((string * string) + clone_error) :=
  (log ++ [args],
   match run_git P args with
   | inl out => inl out
   | inr msg => inr (GitRuntimeError msg)
   end).

(** [clone_repo], without the time limit its decorator sets: the git
    commands run, in order, and the result or the exception.
    [branch.lower()] is [str_lower]: no character outside ASCII lowers to a
    letter of ["main"] or ["master"]. *)
Definition clone_repo (P : programs) (config : CloneConfig)
  : list (list string) * ((string * string) + clone_error) :=
  if negb (str_truthy (url config))
  then ([], inr (CloneValueError "The 'url' parameter is required."))
  else if negb (str_truthy (local_path config))
  then ([], inr (CloneValueError "The 'local_path' parameter is required."))
  else if negb (_check_repo_exists P (url config))
  then ([], inr (CloneValueError "Repository not found, make sure it is public"))
  else if opt_truthy (commit config) then
    let clone_cmd := ["git"; "clone"; "--single-branch"; url config; local_path config] in
    match git P [] clone_cmd with
    | (log, inr e) => (log, inr e)
    | (log, inl _) =>
        git P log ["git"; "-C"; local_path config; "checkout"; opt_get (commit config)]
    end
  else if opt_truthy (branch config)
          && negb (existsb (String.eqb (str_lower (opt_get (branch config))))
                           ["main"; "master"])
  then git P [] ["git"; "clone"; "--depth=1"; "--single-branch"; "--branch";
                 opt_get (branch config); url config; local_path config]
  else git P [] ["git"; "clone"; "--depth=1"; "--single-branch"; url config;
                 local_path config].

End Clone.
(** ** Measures of a tree *)

(** The number of file nodes of a tree. *)
Fixpoint n_files (nd : node) : N :=
  match nd with
  | FileNode _ _ _ _ => 1
  | DirNode _ _ children _ _ _ _ =>
      (fix sum (cs : list node) : N :=
         match cs with
         | [] => 0
         | c :: rest => n_files c + sum rest
         end) children
  end.

Definition n_files_list (cs : list node) : N :=
  fold_right (fun c acc => n_files c + acc) 0 cs.

(** The number of directory nodes strictly below a node. *)
Fixpoint n_dirs (nd : node) : N :=
  match nd with
  | FileNode _ _ _ _ => 0
  | DirNode _ _ children _ _ _ _ =>
      (fix sum (cs : list node) : N :=
         match cs with
         | [] => 0
         | c :: rest => (if is_dir_node c then 1 else 0) + n_dirs c + sum rest
         end) children
  end.

Definition n_dirs_list (cs : list node) : N :=
  fold_right (fun c acc => (if is_dir_node c then 1 else 0) + n_dirs c + acc) 0 cs.

(** The bytes of the file nodes of a tree. *)
Fixpoint files_size (nd : node) : N :=
  match nd with
  | FileNode _ size _ _ => size
  | DirNode _ _ children _ _ _ _ =>
      (fix sum (cs : list node) : N :=
         match cs with
         | [] => 0
         | c :: rest => files_size c + sum rest
         end) children
  end.

Definition files_size_list (cs : list node) : N :=
  fold_right (fun c acc => files_size c + acc) 0 cs.

(** The display order of the children of a directory.  The groups, in the
    order they are shown: files named README.md in any letter case,
    other files that are not hidden, hidden files, directories that are not
    hidden, hidden directories. *)
Definition display_group (n : node) : nat :=
  if is_file_node n then
    if is_readme n then 0%nat
    else if is_hidden n then 2%nat else 1%nat
  else if is_hidden n then 4%nat else 3%nat.

(** [a] may stand before [b]: its group comes first or, in the same group
    other than that of the README files, its name is not the greater one. *)
Definition display_le (a b : node) : Prop :=
  (display_group a < display_group b)%nat
  \/ (display_group a = display_group b
      /\ (display_group a = 0%nat \/ String.leb (node_name a) (node_name b) = true)).

(** A well-formed tree: the aggregates of every directory node are those of
    its subtree, and its children are in display order. *)
Fixpoint well_formed (nd : node) : Prop :=
  match nd with
  | FileNode _ _ _ _ => True
  | DirNode _ size children fc dc _ _ =>
      size = files_size nd /\ fc = n_files nd /\ dc = n_dirs nd
      /\ StronglySorted display_le children
      /\ (fix all (cs : list node) : Prop :=
            match cs with
            | [] => True
            | c :: rest => well_formed c /\ all rest
            end) children
  end.

(** The file nodes of a tree in pre-order. *)
Fixpoint preorder_files (nd : node) : list node :=
  match nd with
  | FileNode _ _ _ _ => [nd]
  | DirNode _ _ children _ _ _ _ =>
      (fix each (cs : list node) : list node :=
         match cs with
         | [] => []
         | c :: rest => preorder_files c ++ each rest
         end) children
  end.

(** ** Vocabulary of the properties *)

(** The bytes [_is_text_file] lets pass: bell, backspace, tab, line feed,
    form feed, carriage return, escape, and every byte from 0x20 up. *)
Definition allowed_byte (b : byte) : bool :=
  let n := Byte.to_N b in
  existsb (N.eqb n) [7; 8; 9; 10; 12; 13; 27] || (32 <=? n).

(** The allow-list in the words of the specification: tab, newline,
    carriage return, form feed, escape and the printable range, the range
    read as generously as the source has it (0x20 and above). *)
Definition spec_allowed_byte (b : byte) : bool :=
  let n := Byte.to_N b in
  existsb (N.eqb n) [9; 10; 13; 12; 27] || (32 <=? n).

(** Names in key order. *)
Definition name_le (a b : node) : Prop :=
  String.leb (node_name a) (node_name b) = true.

(** The entries of a file node. *)
Definition node_content (n : node) : string :=
  match n with
  | FileNode _ _ content _ => content
  | DirNode _ _ _ _ _ _ _ => ""
  end.

Definition node_path (n : node) : path :=
  match n with
  | FileNode _ _ _ npath => npath
  | DirNode _ _ _ _ _ npath _ => npath
  end.

(** A file node that is not marked as binary. *)
Definition is_text_node (n : node) : bool :=
  is_file_node n && negb (String.eqb (node_content n) NON_TEXT).

Definition str_concat (l : list string) : string :=
  fold_right String.append "" l.

(** The path of a node below [local_path], as printed. *)
Definition relative_path_str (q : query) (n : node) : string :=
  match relative_to (node_path n) (local_path q) with
  | Some r => rel_str r
  | None => ""
  end.

(** The block of a file in the content string: the delimiter line, the
    [File:] line, the delimiter line, the text, and a blank line. *)
Definition file_block (q : query) (n : node) : string :=
  separator +:+ ("File: " +:+ relative_path_str q n +:+ LF)
            +:+ separator +:+ (node_content n +:+ LF +:+ LF).

(** The files that get a block: not marked as binary, not over the size
    limit, and not empty. *)
Definition rendered (limit : N) (n : node) : bool :=
  is_text_node n && (node_size n <=? limit) && str_truthy (node_content n).

(** The files the specification gives a block: it leaves out the files
    marked as binary and those over the size limit, no others. *)
Definition spec_rendered (limit : N) (n : node) : bool :=
  is_text_node n && (node_size n <=? limit).

(** The content string in the words of the specification. *)
Definition spec_content_string (q : query) (nd : node) (limit : N) : string :=
  str_concat (map (file_block q) (filter (spec_rendered limit) (preorder_files nd))).

(** The entry [_extract_files_content] makes for a text file. *)
Definition info_of (q : query) (limit : N) (n : node) : file_info :=
  {| fi_path := relative_path_str q n;
     fi_content := if limit <? node_size n then None else Some (node_content n);
     fi_size := node_size n |}.

Definition block_of_info (i : file_info) : string :=
  separator +:+ ("File: " +:+ fi_path i +:+ LF)
            +:+ separator +:+ (match fi_content i with Some c => c | None => "" end
                               +:+ LF +:+ LF).


(** The file nodes the counter [total_files] has let in so far: the counter
    itself while it is below the ceiling. *)
Definition let_in (st : scan_state) : N := N.min (total_files st) MAX_FILES.

(** The shared state only grows, and the byte total stays under its ceiling
    once it is under it. *)
Definition state_le (st st' : scan_state) : Prop :=
  total_files st <= total_files st'
  /\ total_size st <= total_size st'
  /\ (total_size st <= MAX_TOTAL_SIZE_BYTES -> total_size st' <= MAX_TOTAL_SIZE_BYTES)
  /\ seen_paths st ⊆ seen_paths st'
  /\ exists evs, io_trace st' = io_trace st ++ evs.

(** The aggregates of a [result] dictionary are those of its children. *)
Definition result_ok (r : dir_result) : Prop :=
  r_size r = files_size_list (r_children r)
  /\ r_file_count r = n_files_list (r_children r)
  /\ r_dir_count r = n_dirs_list (r_children r)
  /\ Forall well_formed (r_children r).

(** Two [result] dictionaries with the same children and aggregates. *)
Definition same_entries (r r' : dir_result) : Prop :=
  r_children r' = r_children r /\ r_size r' = r_size r
  /\ r_file_count r' = r_file_count r /\ r_dir_count r' = r_dir_count r.

(** The exception of a failed call to the operating system. *)
Definition os_exn (e : exn) : Prop :=
  e = PermissionError \/ e = OSError \/ e = RuntimeError
  \/ e = ValueError "embedded null byte".

(** The exceptions that can leave [_process_file] and [_process_symlink],
    and those that can leave [_process_item]. *)
Definition raw_exn (e : exn) : Prop :=
  e = MaxFilesReachedError \/ e = MaxFileSizeReachedError
  \/ e = AlreadyVisitedError \/ e = RecursionError \/ os_exn e.

Definition loop_exn (e : exn) : Prop :=
  e = MaxFilesReachedError \/ e = RecursionError \/ os_exn e.

(** An outcome after which the walk goes on or hands its result back: a
    return, or an exception that a handler of the walk takes. *)
Definition handled (o : outcome unit) : Prop :=
  forall e, o = Raise e ->
            e = MaxFilesReachedError \/ e = MaxFileSizeReachedError
            \/ e = AlreadyVisitedError \/ e = PermissionError.

(** A child that may hang below a directory while the include patterns
    [inc] are active: a file node, or a directory node with a file in its
    subtree. *)
Definition attachable (inc : list string) (c : node) : Prop :=
  is_dir_node c = true -> patterns_truthy inc = true ->
  0 < node_file_count c /\ node_file_count c = n_files c.

(** What one step of the loop does to [result] and to the shared state. *)
Definition step_inv (inc : list string) (allowed : exn -> Prop) (r : dir_result)
    (st : scan_state) (s : step) : Prop :=
  let '(r', st', o) := s in
  state_le st st'
  /\ n_files_list (r_children r') + let_in st
     <= n_files_list (r_children r) + let_in st'
  /\ (result_ok r -> result_ok r')
  /\ (r_name r' = r_name r /\ r_path r' = r_path r)
  /\ (exists new, r_children r' = r_children r ++ new /\ Forall (attachable inc) new)
  /\ (MAX_FILES <= total_files st -> same_entries r r')
  /\ (forall e, o = Raise e -> allowed e)
  /\ (handled o ->
      n_files_list (r_children r') + let_in st
      = n_files_list (r_children r) + let_in st').

(** What a call of [_scan_directory] does to the shared state, and what it
    returns. *)
Definition scan_inv (st : scan_state) (res : scan_state * outcome (option node)) : Prop :=
  let '(st', o) := res in
  state_le st st'
  /\ (forall nd, o = Ok (Some nd) ->
                 is_dir_node nd = true /\ well_formed nd
                 /\ n_files nd + let_in st = let_in st')
  /\ (MAX_FILES <= total_files st -> st' = st /\ forall nd, o <> Ok (Some nd))
  /\ (forall e, o = Raise e -> os_exn e \/ e = RecursionError)
  /\ (o = Ok None \/ o = Raise PermissionError -> st' = st).

(** A scanner all of whose calls one level down keep [scan_inv]. *)
Definition scanner_ok (self : scanner) (depth : nat) : Prop :=
  forall p st, scan_inv st (self p st (S depth)).

(** The fuel that is enough at a depth. *)
Definition enough_fuel (fuel depth : nat) : Prop :=
  (1 <= fuel /\ S (S MAX_DIRECTORY_DEPTH) <= fuel + depth)%nat.

(** A call to the operating system that fails with [f] on some path. *)
Definition os_fails (E : environment) (f : os_error) : Prop :=
  exists x, fs_resolve E x = Failed f \/ fs_is_file E x = Failed f
            \/ fs_is_dir E x = Failed f \/ fs_is_symlink E x = Failed f
            \/ fs_st_size E x = Failed f \/ fs_iterdir E x = Failed f.

(** A call that a walk makes on the entries it meets, and that fails with
    [f]: [is_file], [is_dir] or [is_symlink] on a path; [stat] on a regular
    file; [resolve] or [iterdir] on a directory; a resolution, of a link or
    of the base directory, that the handler of the guard of links does not
    take. *)
Definition walk_fails (E : environment) (base_path : path) (f : os_error) : Prop :=
  exists x,
    fs_is_file E x = Failed f \/ fs_is_dir E x = Failed f
    \/ fs_is_symlink E x = Failed f
    \/ (fs_is_file E x = Done true /\ fs_st_size E x = Failed f)
    \/ (fs_is_dir E x = Done true
        /\ (fs_resolve E x = Failed f \/ fs_iterdir E x = Failed f))
    \/ (fs_is_symlink E x = Done true /\ is_OSError_or_ValueError f = false
        /\ (fs_resolve E x = Failed f \/ fs_resolve E base_path = Failed f)).



(** [target] is [base] or lies below it. *)
Definition path_within (base target : path) : Prop :=
  exists rest, target = base ++ rest.

(** An exception that a call of the scanner on a directory, one level down,
    has raised. *)
Definition raised_by (E : environment) (self : scanner) (depth : nat) (e : exn) : Prop :=
  exists p st, fs_is_dir E p = Done true /\ snd (self p st (S depth)) = Raise e.

(** An exception that a failed call of the walk on an entry has raised. *)
Definition raised_in_walk (E : environment) (base_path : path) (e : exn) : Prop :=
  exists f, e = exn_of_os_error f /\ walk_fails E base_path f.

(** An exception that a failed call to the operating system has raised. *)
Definition raised_by_os (E : environment) (e : exn) : Prop :=
  exists f, e = exn_of_os_error f /\ os_fails E f.



(** Every file node of a tree has a path below [base]. *)
Definition tree_under (base : path) (nd : node) : Prop :=
  Forall (fun f => relative_to (node_path f) base <> None) (preorder_files nd).

(** A scanner all of whose nodes, one level down, are below the base
    directory of the query. *)
Definition scanner_under (q : query) (self : scanner) (depth : nat) : Prop :=
  forall p st nd, snd (self p st (S depth)) = Ok (Some nd) -> tree_under (local_path q) nd.

(** The node [_scan_directory] hands back when its loop has ended. *)
Definition finished (r : dir_result) : node :=
  node_of_result (set_children (_sort_children (r_children r)) r).
(** ** Filesystems for the examples *)

Module Fixture.

(** What a path of an example filesystem holds: a regular file, a
    directory, a symlink to a path, or a symlink that points at itself. *)
Inductive entry : Type :=
| File (size : N) (bytes : list byte) (text : string)
| Dir (names : list string)
| Link (target : path)
| Loop.

Definition disk : Type := list (path * entry).

Fixpoint lookup (d : disk) (p : path) : option entry :=
  match d with
  | [] => None
  | (p', e) :: rest => if path_eqb p p' then Some e else lookup rest p
  end.

(** Links of the examples point at canonical paths.  A link met on the way
    down a path is followed; a link that points at itself makes
    [Path.resolve()] raise its [RuntimeError]. *)
Fixpoint resolve_from (d : disk) (done todo : path) : os_result path :=
  match todo with
  | [] => Done done
  | c :: rest =>
      match lookup d (done ++ [c]) with
      | Some (Link target) => resolve_from d target rest
      | Some Loop => Failed OsRuntimeError
      | _ => resolve_from d (done ++ [c]) rest
      end
  end.

Definition resolve (d : disk) (p : path) : os_result path := resolve_from d [] p.

(** What a path holds once its links are followed; [stat] takes a loop of
    links as a missing path. *)
Definition target (d : disk) (p : path) : option entry :=
  match resolve d p with
  | Done real => lookup d real
  | Failed _ => None
  end.

(** A shell pattern of stars, question marks and literal characters. *)
Fixpoint glob (pattern name : string) : bool :=
  match pattern with
  | EmptyString => String.eqb name ""
  | String c pattern' =>
      if Ascii.eqb c "*" then
        (fix skip (name : string) : bool :=
           glob pattern' name
           || match name with
              | EmptyString => false
              | String _ name' => skip name'
              end) name
      else
        match name with
        | EmptyString => false
        | String c' name' =>
            (Ascii.eqb c "?" || Ascii.eqb c c') && glob pattern' name'
        end
  end.

Definition env (d : disk) : environment :=
  {| fs_resolve := resolve d;
     fs_exists := fun p => Done (match target d p with Some _ => true | None => false end);
     fs_is_file := fun p =>
       Done (match target d p with Some (File _ _ _) => true | _ => false end);
     fs_is_dir := fun p =>
       Done (match target d p with Some (Dir _) => true | _ => false end);
     fs_is_symlink := fun p =>
       Done (match lookup d p with Some (Link _) | Some Loop => true | _ => false end);
     fs_st_size := fun p =>
       match target d p with
       | Some (File size _ _) => Done size
       | Some _ => Done 4096
       | None => Failed OsOSError
       end;
     fs_iterdir := fun p =>
       match target d p with
       | Some (Dir names) => Done names
       | _ => Failed OsOSError
       end;
     fs_open_rb := fun p => match target d p with Some (File _ bytes _) => Some bytes | _ => None end;
     fs_open_text := fun p => match target d p with
                              | Some (File _ _ text) => inl text
                              | _ => inr "No such file" end;
     process_notebook := fun p => inr "not a notebook";
     fnmatch := fun name pattern => glob pattern name;
     tiktoken_len := fun s => Some (N.of_nat (String.length s));
     format_1f := fun a b => str_of_N (a / b) +:+ "." +:+ str_of_N ((a * 10 / b) mod 10) |}.

Definition plain_query (root sub : path) (include exclude : list string) : query :=
  {| local_path := root; subpath := sub; slug := "owner/repo";
     user_name := Some "owner"; repo_name := "repo"; commit := None;
     branch := Some "main"; include_patterns := include;
     ignore_patterns := exclude; max_file_size := MAX_FILE_SIZE |}.

(** A text file holding [text]. *)
Definition text_file (text : string) : entry :=
  File (N.of_nat (String.length text)) (list_byte_of_string text) text.

(** The scenario of the specification: [README.md], [a.txt], [.secret]
    and [lib/b.py]. *)
Definition sample : disk :=
  [ (["repo"], Dir ["lib"; ".secret"; "a.txt"; "README.md"]);
    (["repo"; "README.md"], text_file "read me");
    (["repo"; "a.txt"], text_file "alpha");
    (["repo"; ".secret"], text_file "hush");
    (["repo"; "lib"], Dir ["b.py"]);
    (["repo"; "lib"; "b.py"], text_file "print(1)") ].

(** A file of one byte, the bell character. *)
Definition bell_disk : disk :=
  [ (["repo"], Dir ["bell.bin"]);
    (["repo"; "bell.bin"], File 1 [x07] "") ].

(** A directory with one empty text file. *)
Definition empty_file_disk : disk :=
  [ (["repo"], Dir ["empty.txt"]);
    (["repo"; "empty.txt"], text_file "") ].

(** A link back to the directory that holds it. *)
Definition cycle_disk : disk :=
  [ (["repo"], Dir ["a.txt"; "loop"]);
    (["repo"; "a.txt"], text_file "alpha");
    (["repo"; "loop"], Link ["repo"]) ].

(** A link, below the subpath [sub], to a directory of the repository
    that is not below [sub]. *)
Definition sibling_link_disk : disk :=
  [ (["repo"], Dir ["sub"; "other"]);
    (["repo"; "sub"], Dir ["link"]);
    (["repo"; "sub"; "link"], Link ["repo"; "other"]);
    (["repo"; "other"], Dir ["secret.txt"]);
    (["repo"; "other"; "secret.txt"], text_file "secret") ].

(** A link that leaves the repository. *)
Definition outside_link_disk : disk :=
  [ (["repo"], Dir ["out"]);
    (["repo"; "out"], Link ["etc"]);
    (["etc"], Dir ["passwd"]);
    (["etc"; "passwd"], text_file "root") ].

(** A link to a file next to it. *)
Definition file_link_disk : disk :=
  [ (["repo"], Dir ["data.txt"; "link"]);
    (["repo"; "data.txt"], text_file "hello");
    (["repo"; "link"], Link ["repo"; "data.txt"]) ].

(** Python files and others, for an include pattern. *)
Definition python_disk : disk :=
  [ (["repo"], Dir ["a.py"; "a.txt"; "docs"; "lib"]);
    (["repo"; "a.py"], text_file "import lib");
    (["repo"; "a.txt"], text_file "alpha");
    (["repo"; "docs"], Dir ["guide.md"]);
    (["repo"; "docs"; "guide.md"], text_file "guide");
    (["repo"; "lib"], Dir ["b.py"]);
    (["repo"; "lib"; "b.py"], text_file "print(1)") ].

(** An empty directory. *)
Definition empty_dir_disk : disk := [ (["repo"], Dir []) ].



(** A file of one byte, the null character. *)
Definition nul_disk : disk :=
  [ (["repo"], Dir ["nul.bin"]);
    (["repo"; "nul.bin"], File 1 [x00] "") ].

(** A subpath that is itself a link out of the repository. *)
Definition root_link_disk : disk :=
  [ (["repo"], Dir ["sub"]);
    (["repo"; "sub"], Link ["etc"]);
    (["etc"], Dir ["passwd"]);
    (["etc"; "passwd"], text_file "root") ].

(** A directory that holds a link pointing at itself. *)
Definition loop_disk : disk :=
  [ (["repo"], Dir ["a.txt"; "self"]);
    (["repo"; "a.txt"], text_file "alpha");
    (["repo"; "self"], Loop) ].

(** A directory whose listing is denied. *)
Definition locked_env : environment :=
  {| fs_resolve := fun p => Done p;
     fs_exists := fun p => Done true;
     fs_is_file := fun p => Done false;
     fs_is_dir := fun p => Done true;
     fs_is_symlink := fun p => Done false;
     fs_st_size := fun p => Done 0;
     fs_iterdir := fun p => Failed OsPermissionError;
     fs_open_rb := fun p => None;
     fs_open_text := fun p => inr "Permission denied";
     process_notebook := fun p => inr "Permission denied";
     fnmatch := fun name pattern => glob pattern name;
     tiktoken_len := fun s => None;
     format_1f := fun a b => str_of_N (a / b) |}.

End Fixture.


(** * Properties *)

(** ** The text classifier *)

Lemma text_characters_allowed (b : byte) :
  existsb (Byte.eqb b) text_characters = allowed_byte b.
Proof. destruct b; vm_compute; reflexivity. Qed.

Lemma translate_delete_empty (chunk : list byte) :
  bytes_truthy (translate_delete chunk text_characters) = false
  <-> Forall (fun b => allowed_byte b = true) chunk.
Proof.
  unfold translate_delete.
  induction chunk as [|b chunk IH].
  - split; [constructor | reflexivity].
  - cbn [filter]. rewrite text_characters_allowed.
    destruct (allowed_byte b) eqn:Hb; cbn [negb bytes_truthy].
    + rewrite IH. split.
      * intros H. constructor; assumption.
      * intros H. inversion H; assumption.
    + split; [discriminate|].
      intros H. inversion H; congruence.
Qed.

(** C8, as the code has it: a file is text exactly when it can be opened and
    each of its first 1024 bytes is a bell, a backspace, a tab, a line feed,
    a form feed, a carriage return, an escape or a byte from 0x20 up. *)
Theorem is_text_file_allow_list (E : environment) (file_path : path) :
  _is_text_file E file_path = true
  <-> exists file, fs_open_rb E file_path = Some file
                   /\ Forall (fun b => allowed_byte b = true) (firstn 1024 file).
Proof.
  unfold _is_text_file.
  destruct (fs_open_rb E file_path) as [file|].
  - rewrite negb_true_iff, translate_delete_empty. split.
    + intros H. exists file. split; [reflexivity | exact H].
    + intros (file' & Heq & H). injection Heq as <-. exact H.
  - split; [discriminate|]. intros (file & Heq & _). discriminate.
Qed.

(** C8, as the specification words it, fails on a file that holds one bell
    byte: the code calls it text, and 7 is neither one of the five control
    bytes of the specification nor printable. *)
Lemma is_text_file_bell_counterexample :
  let E := Fixture.env Fixture.bell_disk in
  let file_path := ["repo"; "bell.bin"] in
  _is_text_file E file_path = true
  /\ ~ (exists file, fs_open_rb E file_path = Some file
                     /\ Forall (fun b => spec_allowed_byte b = true) (firstn 1024 file)).
Proof.
  split; [vm_compute; reflexivity|].
  intros (file & Heq & H). vm_compute in Heq. injection Heq as <-.
  simpl in H. inversion H as [|? ? Hb _]. vm_compute in Hb. discriminate.
Qed.

(** ** The order of the children *)

Lemma string_leb_trans (s1 s2 s3 : string) :
  String.leb s1 s2 = true -> String.leb s2 s3 = true -> String.leb s1 s3 = true.
Proof.
  unfold String.leb. revert s2 s3.
  induction s1 as [|a s1 IH]; intros [|b s2] [|c s3]; simpl; try congruence.
  unfold Ascii.compare.
  destruct (N.compare_spec (N_of_ascii a) (N_of_ascii b)) as [Hab|Hab|Hab];
    destruct (N.compare_spec (N_of_ascii b) (N_of_ascii c)) as [Hbc|Hbc|Hbc];
    destruct (N.compare_spec (N_of_ascii a) (N_of_ascii c)) as [Hac|Hac|Hac];
    try congruence; try lia.
  apply IH.
Qed.

Lemma string_leb_total (s1 s2 : string) :
  String.leb s1 s2 = false -> String.leb s2 s1 = true.
Proof.
  intros H. destruct (String.leb_total s1 s2) as [H'|H']; congruence.
Qed.

Lemma insert_by_name_perm (x : node) (l : list node) :
  Permutation (x :: l) (insert_by_name x l).
Proof.
  induction l as [|y l IH]; simpl.
  - apply Permutation_refl.
  - destruct (String.leb (node_name x) (node_name y)).
    + apply Permutation_refl.
    + eapply perm_trans; [apply perm_swap|]. apply perm_skip. exact IH.
Qed.

Lemma sort_by_name_perm (l : list node) : Permutation l (sort_by_name l).
Proof.
  induction l as [|x l IH]; simpl.
  - constructor.
  - eapply perm_trans; [apply perm_skip; exact IH|]. apply insert_by_name_perm.
Qed.

Lemma insert_by_name_sorted (x : node) (l : list node) :
  StronglySorted name_le l -> StronglySorted name_le (insert_by_name x l).
Proof.
  induction 1 as [|y l Hs IH Hy]; simpl.
  - repeat constructor.
  - destruct (String.leb (node_name x) (node_name y)) eqn:Hxy.
    + constructor; [constructor; assumption|].
      constructor; [exact Hxy|].
      eapply Forall_impl; [|exact Hy].
      intros z Hz. unfold name_le in *. eapply string_leb_trans; eassumption.
    + constructor; [exact IH|].
      eapply Permutation_Forall; [apply insert_by_name_perm|].
      constructor; [|exact Hy].
      apply string_leb_total. exact Hxy.
Qed.

Lemma sort_by_name_sorted (l : list node) : StronglySorted name_le (sort_by_name l).
Proof.
  induction l as [|x l IH]; simpl.
  - constructor.
  - apply insert_by_name_sorted. exact IH.
Qed.

Lemma sort_by_name_Forall (P : node -> Prop) (l : list node) :
  Forall P l -> Forall P (sort_by_name l).
Proof. apply Permutation_Forall, sort_by_name_perm. Qed.

Lemma filter_split_perm {A : Type} (f : A -> bool) (l : list A) :
  Permutation l (filter f l ++ filter (fun x => negb (f x)) l).
Proof.
  induction l as [|x l IH]; simpl.
  - constructor.
  - destruct (f x); simpl.
    + apply perm_skip. exact IH.
    + apply Permutation_cons_app. exact IH.
Qed.

Lemma filter_Forall {A : Type} (f : A -> bool) (l : list A) :
  Forall (fun x => f x = true) (filter f l).
Proof. apply Forall_forall. intros x Hx. apply filter_In in Hx. tauto. Qed.

Lemma filter_keeps_Forall {A : Type} (P : A -> Prop) (f : A -> bool) (l : list A) :
  Forall P l -> Forall P (filter f l).
Proof.
  rewrite !Forall_forall. intros H x Hx. apply filter_In in Hx. apply H. tauto.
Qed.

Lemma StronglySorted_app {A : Type} (R : A -> A -> Prop) (l1 l2 : list A) :
  StronglySorted R l1 -> StronglySorted R l2 ->
  Forall (fun x => Forall (R x) l2) l1 ->
  StronglySorted R (l1 ++ l2).
Proof.
  induction 1 as [|x l1 Hs IH Hx]; intros H2 Hcross; simpl.
  - exact H2.
  - inversion Hcross as [|? ? Hx2 Hrest]; subst.
    constructor; [apply IH; assumption|].
    apply Forall_app. split; assumption.
Qed.

(** A group put in front of later groups. *)
Lemma display_groups_app (i : nat) (l1 l2 : list node) :
  Forall (fun x => display_group x = i) l1 ->
  Forall (fun y => (i < display_group y)%nat) l2 ->
  StronglySorted display_le l1 -> StronglySorted display_le l2 ->
  StronglySorted display_le (l1 ++ l2).
Proof.
  intros H1 H2 S1 S2. apply StronglySorted_app; try assumption.
  eapply Forall_impl; [|exact H1]. intros x Hx.
  eapply Forall_impl; [|exact H2]. intros y Hy.
  left. rewrite Hx. exact Hy.
Qed.

(** A group sorted by name is in display order. *)
Lemma display_group_sorted (i : nat) (l : list node) :
  Forall (fun x => display_group x = i) l ->
  StronglySorted name_le l -> StronglySorted display_le l.
Proof.
  intros Hg Hs. induction Hs as [|x l Hs IH Hx].
  - constructor.
  - inversion Hg as [|? ? Hgx Hgl]; subst. constructor; [apply IH; exact Hgl|].
    apply Forall_forall. intros y Hy.
    right. split.
    + rewrite Forall_forall in Hgl. rewrite (Hgl y Hy). reflexivity.
    + right. rewrite Forall_forall in Hx. apply Hx. exact Hy.
Qed.

(** The README files are in display order whatever their order. *)
Lemma display_group_readme (l : list node) :
  Forall (fun x => display_group x = 0%nat) l -> StronglySorted display_le l.
Proof.
  induction 1 as [|x l Hx Hl IH].
  - constructor.
  - constructor; [exact IH|].
    eapply Forall_impl; [|exact Hl]. intros y Hy.
    right. split; [congruence | left; exact Hx].
Qed.

Lemma sort_children_perm (children : list node) :
  Permutation children (_sort_children children).
Proof.
  unfold _sort_children.
  set (files := filter is_file_node children).
  set (dirs := filter is_dir_node children).
  set (others := filter (fun f => negb (is_readme f)) files).
  assert (Hhid : forall l : list node,
             Permutation l (sort_by_name (filter (fun f => negb (is_hidden f)) l)
                            ++ sort_by_name (filter is_hidden l))).
  { intros l.
    eapply perm_trans; [apply (filter_split_perm (fun f => negb (is_hidden f)))|].
    apply Permutation_app; [apply sort_by_name_perm|].
    erewrite filter_ext; [apply sort_by_name_perm|].
    intros a. simpl. apply negb_involutive. }
  assert (Hf : Permutation files
                 (filter is_readme files
                  ++ sort_by_name (filter (fun f => negb (is_hidden f)) others)
                  ++ sort_by_name (filter is_hidden others))).
  { eapply perm_trans; [apply (filter_split_perm is_readme)|].
    apply Permutation_app_head. apply Hhid. }
  eapply perm_trans; [apply (filter_split_perm is_file_node)|].
  eapply perm_trans; [apply Permutation_app; [exact Hf | apply (Hhid dirs)]|].
  rewrite <- !app_assoc. apply Permutation_refl.
Qed.

Lemma file_group (n : node) :
  is_file_node n = true ->
  display_group n = (if is_readme n then 0 else if is_hidden n then 2 else 1)%nat.
Proof. unfold display_group. intros ->. reflexivity. Qed.

Lemma dir_group (n : node) :
  is_dir_node n = true -> display_group n = (if is_hidden n then 4 else 3)%nat.
Proof.
  unfold display_group, is_dir_node. intros H.
  apply negb_true_iff in H. rewrite H. reflexivity.
Qed.

(** The members of a filtered list, all at once. *)
Ltac members :=
  apply Forall_forall; intros ? ?;
  repeat match goal with
         | H : In _ (sort_by_name _) |- _ =>
             apply (Permutation_in _ (Permutation_sym (sort_by_name_perm _))) in H
         | H : In _ (filter _ _) |- _ => apply filter_In in H; destruct H
         | H : In _ (_ ++ _) |- _ => apply in_app_or in H; destruct H
         | H : negb _ = true |- _ => apply negb_true_iff in H
         end.

Lemma sort_children_sorted (children : list node) :
  StronglySorted display_le (_sort_children children).
Proof.
  unfold _sort_children.
  set (files := filter is_file_node children).
  set (dirs := filter is_dir_node children).
  set (others := filter (fun f => negb (is_readme f)) files).
  apply (display_groups_app 0).
  { subst files. members. rewrite file_group by assumption.
    match goal with H : is_readme _ = true |- _ => rewrite H end. reflexivity. }
  { subst others files dirs. members;
      first [ rewrite file_group by assumption | rewrite dir_group by assumption ];
      repeat match goal with H : _ = _ |- _ => rewrite H end; simpl; lia. }
  { apply display_group_readme. subst files. members.
    rewrite file_group by assumption.
    match goal with H : is_readme _ = true |- _ => rewrite H end. reflexivity. }
  apply (display_groups_app 1).
  { subst others files. members. rewrite file_group by assumption.
    repeat match goal with H : _ = _ |- _ => rewrite H end. reflexivity. }
  { subst others files dirs. members;
      first [ rewrite file_group by assumption | rewrite dir_group by assumption ];
      repeat match goal with H : _ = _ |- _ => rewrite H end; simpl; lia. }
  { apply (display_group_sorted 1); [|apply sort_by_name_sorted].
    subst others files. members. rewrite file_group by assumption.
    repeat match goal with H : _ = _ |- _ => rewrite H end. reflexivity. }
  apply (display_groups_app 2).
  { subst others files. members. rewrite file_group by assumption.
    repeat match goal with H : _ = _ |- _ => rewrite H end. reflexivity. }
  { subst dirs. members; rewrite dir_group by assumption;
      repeat match goal with H : _ = _ |- _ => rewrite H end; simpl; lia. }
  { apply (display_group_sorted 2); [|apply sort_by_name_sorted].
    subst others files. members. rewrite file_group by assumption.
    repeat match goal with H : _ = _ |- _ => rewrite H end. reflexivity. }
  apply (display_groups_app 3).
  { subst dirs. members. rewrite dir_group by assumption.
    repeat match goal with H : _ = _ |- _ => rewrite H end. reflexivity. }
  { subst dirs. members; rewrite dir_group by assumption;
      repeat match goal with H : _ = _ |- _ => rewrite H end; simpl; lia. }
  { apply (display_group_sorted 3); [|apply sort_by_name_sorted].
    subst dirs. members. rewrite dir_group by assumption.
    repeat match goal with H : _ = _ |- _ => rewrite H end. reflexivity. }
  apply (display_group_sorted 4); [|apply sort_by_name_sorted].
  subst dirs. members. rewrite dir_group by assumption.
  repeat match goal with H : _ = _ |- _ => rewrite H end. reflexivity.
Qed.

(** C6: [_sort_children] returns its argument rearranged, in display order:
    the README.md files (any letter case) first, then the other files that
    are not hidden by name, then the hidden files by name, then the
    directories that are not hidden by name, then the hidden directories by
    name. *)
Theorem sort_children_display_order (children : list node) :
  Permutation children (_sort_children children)
  /\ StronglySorted display_le (_sort_children children).
Proof.
  split.
  - apply sort_children_perm.
  - apply sort_children_sorted.
Qed.

(** ** The content string *)

(** Induction on a tree, with the property known of every child. *)
Lemma node_tree_ind (P : node -> Prop) :
  (forall name size content npath, P (FileNode name size content npath)) ->
  (forall name size children fc dc npath ic,
      Forall P children -> P (DirNode name size children fc dc npath ic)) ->
  forall nd, P nd.
Proof.
  intros Hfile Hdir.
  fix IH 1. intros [name size content npath | name size children fc dc npath ic].
  - apply Hfile.
  - apply Hdir. induction children as [|c cs IHcs]; constructor.
    + apply IH.
    + exact IHcs.
Qed.

Lemma str_app_assoc (a b c : string) : (a +:+ b) +:+ c = a +:+ (b +:+ c).
Proof.
  induction a as [|x a IH]; [reflexivity|].
  change ((String x a +:+ b) +:+ c) with (String x ((a +:+ b) +:+ c)).
  change (String x a +:+ (b +:+ c)) with (String x (a +:+ (b +:+ c))).
  f_equal. exact IH.
Qed.

Lemma str_app_nil_r (a : string) : a +:+ "" = a.
Proof.
  induction a as [|x a IH]; [reflexivity|].
  change (String x a +:+ "") with (String x (a +:+ "")). f_equal. exact IH.
Qed.

Lemma preorder_files_dir name size children fc dc npath ic :
  preorder_files (DirNode name size children fc dc npath ic)
  = flat_map preorder_files children.
Proof.
  simpl. induction children as [|c cs IH]; [reflexivity|].
  simpl. f_equal; exact IH.
Qed.

Lemma extract_files_content_spec (q : query) (limit : N) (nd : node) :
  forall files files',
    _extract_files_content q nd limit files = Ok files' ->
    files' = files ++ map (info_of q limit) (filter is_text_node (preorder_files nd)).
Proof.
  induction nd as [name size content npath | name size children fc dc npath ic IH]
    using node_tree_ind; intros files files' H.
  - simpl in H. unfold is_text_node. simpl.
    destruct (negb (String.eqb content NON_TEXT)) eqn:Htext; simpl.
    + destruct (relative_to npath (local_path q)) as [r|] eqn:Hrel; [|discriminate].
      injection H as <-. unfold info_of, relative_path_str. simpl. rewrite Hrel.
      reflexivity.
    + injection H as <-. rewrite app_nil_r. reflexivity.
  - rewrite preorder_files_dir. simpl in H.
    revert files files' H.
    induction IH as [|c cs Hc Hcs IHcs]; intros files files' H.
    + injection H as <-. simpl. rewrite app_nil_r. reflexivity.
    + destruct (_extract_files_content q c limit files) as [files1|e] eqn:H1;
        [|discriminate].
      apply Hc in H1. apply IHcs in H. subst.
      simpl. rewrite filter_app, map_app, app_assoc. reflexivity.
Qed.

Lemma create_file_content_string_from_spec (files : list file_info) :
  forall output,
    _create_file_content_string_from output files
    = output +:+ str_concat (map block_of_info
                                 (filter (fun i => content_truthy (fi_content i)) files)).
Proof.
  induction files as [|file rest IH]; intros output.
  - simpl. symmetry. apply str_app_nil_r.
  - simpl. destruct (fi_content file) as [content|] eqn:Hc; simpl.
    + destruct (str_truthy content) eqn:Ht.
      * rewrite IH. simpl. unfold block_of_info at 2. rewrite Hc.
        rewrite !str_app_assoc. reflexivity.
      * apply IH.
    + apply IH.
Qed.

Lemma rendered_blocks (q : query) (limit : N) (l : list node) :
  map block_of_info
      (filter (fun i => content_truthy (fi_content i))
              (map (info_of q limit) (filter is_text_node l)))
  = map (file_block q) (filter (rendered limit) l).
Proof.
  induction l as [|f l IH]; [reflexivity|].
  simpl. unfold rendered at 1.
  destruct (is_text_node f) eqn:Htext; simpl; [|exact IH].
  rewrite N.leb_antisym.
  destruct (limit <? node_size f) eqn:Hsize; simpl; [exact IH|].
  destruct (str_truthy (node_content f)) eqn:Ht; simpl; [|exact IH].
  rewrite IH. f_equal.
  unfold block_of_info, file_block, info_of. simpl. rewrite Hsize. reflexivity.
Qed.

(** C9, as the code has it: the content string is the blocks, in pre-order,
    of the file nodes that are not marked as binary, are not over the size
    limit and have a text that is not empty, and nothing else; a block is
    the line of 48 [=], the [File:] line with the relative path, the line of
    48 [=], the text and a blank line. *)
Theorem content_string_blocks (q : query) (nd : node) (limit : N)
    (files : list file_info) :
  _extract_files_content q nd limit [] = Ok files ->
  _create_file_content_string files
  = str_concat (map (file_block q) (filter (rendered limit) (preorder_files nd))).
Proof.
  intros H. apply extract_files_content_spec in H. simpl in H. subst files.
  unfold _create_file_content_string.
  rewrite create_file_content_string_from_spec, rendered_blocks. reflexivity.
Qed.

Lemma content_string_blocks_witness :
  let q := Fixture.plain_query ["repo"] [] [] [] in
  let nd := DirNode "repo" 12
              [FileNode "a.txt" 5 "alpha" ["repo"; "a.txt"];
               FileNode "logo.png" 7 NON_TEXT ["repo"; "logo.png"]]
              2 0 ["repo"] false in
  let files := [{| fi_path := "a.txt"; fi_content := Some "alpha"; fi_size := 5 |}] in
  _extract_files_content q nd MAX_FILE_SIZE [] = Ok files
  /\ _create_file_content_string files
     = str_concat (map (file_block q)
                       (filter (rendered MAX_FILE_SIZE) (preorder_files nd))).
Proof.
  intros q nd files.
  assert (H : _extract_files_content q nd MAX_FILE_SIZE [] = Ok files) by reflexivity.
  split; [exact H|].
  exact (content_string_blocks q nd MAX_FILE_SIZE files H).
Defined.

(** C9, as the specification words it, fails on a directory with one empty
    text file: the file is neither marked as binary nor over the limit, and
    the content string has no block for it. *)
Lemma content_string_empty_file_counterexample :
  let E := Fixture.env Fixture.empty_file_disk in
  let q := Fixture.plain_query ["repo"] [] [] [] in
  exists nodes files,
    snd (_scan_directory E (scan_root q) q fresh_state 0) = Ok (Some nodes)
    /\ _extract_files_content q nodes (max_file_size q) [] = Ok files
    /\ preorder_files nodes = [FileNode "empty.txt" 0 "" ["repo"; "empty.txt"]]
    /\ _create_file_content_string files = ""
    /\ _create_file_content_string files
       <> spec_content_string q nodes (max_file_size q).
Proof.
  intros E q.
  exists (DirNode "repo" 0 [FileNode "empty.txt" 0 "" ["repo"; "empty.txt"]]
                  1 0 ["repo"] false).
  exists [{| fi_path := "empty.txt"; fi_content := Some ""; fi_size := 0 |}].
  repeat split; try (vm_compute; reflexivity).
  vm_compute. discriminate.
Qed.

(** ** Aggregates and well-formed trees *)

Lemma n_files_dir name size children fc dc npath ic :
  n_files (DirNode name size children fc dc npath ic) = n_files_list children.
Proof.
  simpl. induction children as [|c cs IH]; [reflexivity|]. simpl. f_equal; exact IH.
Qed.

Lemma files_size_dir name size children fc dc npath ic :
  files_size (DirNode name size children fc dc npath ic) = files_size_list children.
Proof.
  simpl. induction children as [|c cs IH]; [reflexivity|]. simpl. f_equal; exact IH.
Qed.

Lemma n_dirs_dir name size children fc dc npath ic :
  n_dirs (DirNode name size children fc dc npath ic) = n_dirs_list children.
Proof.
  simpl. induction children as [|c cs IH]; [reflexivity|]. simpl. f_equal; exact IH.
Qed.

Lemma well_formed_dir name size children fc dc npath ic :
  well_formed (DirNode name size children fc dc npath ic)
  <-> size = files_size_list children /\ fc = n_files_list children
      /\ dc = n_dirs_list children /\ StronglySorted display_le children
      /\ Forall well_formed children.
Proof.
  cbn [well_formed]. fold (files_size (DirNode name size children fc dc npath ic)).
  fold (n_files (DirNode name size children fc dc npath ic)).
  fold (n_dirs (DirNode name size children fc dc npath ic)).
  rewrite files_size_dir, n_files_dir, n_dirs_dir.
  assert (Hall : (fix all (cs : list node) : Prop :=
                    match cs with
                    | [] => True
                    | c :: rest => well_formed c /\ all rest
                    end) children <-> Forall well_formed children).
  { induction children as [|c cs IH].
    - split; [constructor | trivial].
    - split.
      + intros [Hc Hcs]. constructor; [exact Hc | apply IH; exact Hcs].
      + intros H. inversion H; subst. split; [assumption | apply IH; assumption]. }
  rewrite Hall. reflexivity.
Qed.

Lemma n_files_list_app (l1 l2 : list node) :
  n_files_list (l1 ++ l2) = n_files_list l1 + n_files_list l2.
Proof. induction l1 as [|c l1 IH]; simpl; [reflexivity|]. rewrite IH. lia. Qed.

Lemma files_size_list_app (l1 l2 : list node) :
  files_size_list (l1 ++ l2) = files_size_list l1 + files_size_list l2.
Proof. induction l1 as [|c l1 IH]; simpl; [reflexivity|]. rewrite IH. lia. Qed.

Lemma n_dirs_list_app (l1 l2 : list node) :
  n_dirs_list (l1 ++ l2) = n_dirs_list l1 + n_dirs_list l2.
Proof. induction l1 as [|c l1 IH]; simpl; [reflexivity|]. rewrite IH. lia. Qed.

Lemma n_files_list_perm (l l' : list node) :
  Permutation l l' -> n_files_list l = n_files_list l'.
Proof. induction 1; simpl; lia. Qed.

Lemma files_size_list_perm (l l' : list node) :
  Permutation l l' -> files_size_list l = files_size_list l'.
Proof. induction 1; simpl; lia. Qed.

Lemma n_dirs_list_perm (l l' : list node) :
  Permutation l l' -> n_dirs_list l = n_dirs_list l'.
Proof. induction 1; simpl; lia. Qed.

(** The node [_scan_directory] returns for a [result] with sound aggregates. *)
Lemma finished_well_formed (r : dir_result) :
  result_ok r ->
  well_formed (node_of_result (set_children (_sort_children (r_children r)) r)).
Proof.
  intros (Hs & Hf & Hd & Hall).
  unfold node_of_result, set_children. cbn [r_name r_size r_children r_file_count
    r_dir_count r_path r_ignore_content].
  pose proof (sort_children_perm (r_children r)) as Hperm.
  pose proof (sort_children_sorted (r_children r)) as Hsorted.
  apply well_formed_dir. repeat split.
  - rewrite Hs. apply files_size_list_perm, Hperm.
  - rewrite Hf. apply n_files_list_perm, Hperm.
  - rewrite Hd. apply n_dirs_list_perm, Hperm.
  - exact Hsorted.
  - eapply Permutation_Forall; eassumption.
Qed.

Lemma finished_n_files (r : dir_result) :
  n_files (node_of_result (set_children (_sort_children (r_children r)) r))
  = n_files_list (r_children r).
Proof.
  unfold node_of_result, set_children. cbn [r_name r_size r_children r_file_count
    r_dir_count r_path r_ignore_content].
  rewrite n_files_dir. symmetry. apply n_files_list_perm, sort_children_perm.
Qed.

Lemma well_formed_dir_aggregates (d : node) :
  is_dir_node d = true -> well_formed d ->
  node_size d = files_size d /\ node_file_count d = n_files d
  /\ node_dir_count d = n_dirs d.
Proof.
  destruct d as [|name size children fc dc npath ic]; [discriminate|].
  intros _ H. cbn [well_formed] in H. simpl. tauto.
Qed.

Lemma rename_node_measures (name : string) (p : path) (d : node) :
  n_files (rename_node name p d) = n_files d
  /\ files_size (rename_node name p d) = files_size d
  /\ n_dirs (rename_node name p d) = n_dirs d
  /\ is_dir_node (rename_node name p d) = is_dir_node d
  /\ node_size (rename_node name p d) = node_size d
  /\ node_file_count (rename_node name p d) = node_file_count d
  /\ node_dir_count (rename_node name p d) = node_dir_count d
  /\ (well_formed d -> well_formed (rename_node name p d)).
Proof. destruct d; simpl; tauto. Qed.

(** ** The shared state *)

Lemma state_le_refl (st : scan_state) : state_le st st.
Proof.
  unfold state_le. repeat split; try lia; try set_solver.
  exists []. rewrite app_nil_r. reflexivity.
Qed.

Lemma state_le_trans (st1 st2 st3 : scan_state) :
  state_le st1 st2 -> state_le st2 st3 -> state_le st1 st3.
Proof.
  intros (Hf1 & Hs1 & Hm1 & Hp1 & evs1 & Ht1) (Hf2 & Hs2 & Hm2 & Hp2 & evs2 & Ht2).
  unfold state_le. repeat split; try lia; try set_solver; try tauto.
  exists (evs1 ++ evs2). rewrite Ht2, Ht1, app_assoc. reflexivity.
Qed.

Lemma state_le_trace (ev : io_event) (st : scan_state) : state_le st (trace ev st).
Proof.
  unfold state_le, trace; simpl. repeat split; try lia; try set_solver; eauto.
Qed.

Lemma state_le_add_seen (p : path) (st : scan_state) : state_le st (add_seen p st).
Proof.
  unfold state_le, add_seen; simpl. repeat split; try lia; try set_solver.
  exists []. rewrite app_nil_r. reflexivity.
Qed.

Lemma state_le_count_file (file_size : N) (st : scan_state) :
  (MAX_TOTAL_SIZE_BYTES <? total_size st + file_size) = false ->
  state_le st (count_file file_size st).
Proof.
  intros H. apply N.ltb_ge in H.
  unfold state_le, count_file; simpl. repeat split; try lia; try set_solver.
  exists []. rewrite app_nil_r. reflexivity.
Qed.

Lemma state_le_let_in (st st' : scan_state) :
  state_le st st' -> let_in st <= let_in st'.
Proof. intros (H & _). unfold let_in. lia. Qed.

Lemma read_content_state (E : environment) (p : path) (st : scan_state) :
  let st' := snd (read_content E p st) in
  state_le st st' /\ total_files st' = total_files st
  /\ total_size st' = total_size st /\ seen_paths st' = seen_paths st.
Proof.
  unfold read_content. destruct (_is_text_file E p); simpl.
  - split; [|tauto].
    eapply state_le_trans; apply state_le_trace.
  - split; [|tauto]. apply state_le_trace.
Qed.

(** ** One step of the loop *)

Lemma same_entries_refl (r : dir_result) : same_entries r r.
Proof. unfold same_entries. tauto. Qed.

Lemma os_exn_of_os_error (f : os_error) : os_exn (exn_of_os_error f).
Proof. unfold os_exn. destruct f; simpl; tauto. Qed.

Lemma exn_of_os_error_permission (f : os_error) :
  exn_of_os_error f = PermissionError <-> f = OsPermissionError.
Proof. destruct f; simpl; split; intros H; try discriminate; reflexivity. Qed.

Lemma exn_of_os_error_inj (f g : os_error) :
  exn_of_os_error f = exn_of_os_error g -> f = g.
Proof. destruct f, g; simpl; intros H; try discriminate; reflexivity. Qed.

Lemma raw_exn_os (f : os_error) : raw_exn (exn_of_os_error f).
Proof. unfold raw_exn. pose proof (os_exn_of_os_error f). tauto. Qed.

Lemma handled_ok : handled (Ok tt).
Proof. intros e H. discriminate. Qed.

(** What leaves the guard of links is the exception of a resolution that
    its handler does not take. *)
Lemma is_safe_symlink_raises (E : environment) (symlink_path base_path : path)
    (e : exn) :
  _is_safe_symlink E symlink_path base_path = Raise e ->
  exists f, e = exn_of_os_error f /\ is_OSError_or_ValueError f = false
            /\ (fs_resolve E symlink_path = Failed f
                \/ fs_resolve E base_path = Failed f).
Proof.
  unfold _is_safe_symlink, unsafe_if_caught.
  destruct (fs_resolve E symlink_path) as [target|f].
  - destruct (fs_resolve E base_path) as [base|f]; [discriminate|].
    destruct (is_OSError_or_ValueError f) eqn:Hf; [discriminate|].
    intros [= <-]. exists f. tauto.
  - destruct (is_OSError_or_ValueError f) eqn:Hf; [discriminate|].
    intros [= <-]. exists f. tauto.
Qed.

(** The eight parts of [step_inv], in order. *)
Ltac step_parts :=
  unfold step_inv;
  split; [|split; [|split; [|split; [|split; [|split; [|split]]]]]].

Lemma step_unchanged (inc : list string) (allowed : exn -> Prop) (r : dir_result)
    (st st' : scan_state) (o : outcome unit) :
  state_le st st' -> (forall e, o = Raise e -> allowed e) ->
  (handled o -> let_in st' = let_in st) ->
  step_inv inc allowed r st (r, st', o).
Proof.
  intros Hle Ho Hkeep. step_parts.
  - exact Hle.
  - apply state_le_let_in in Hle. lia.
  - tauto.
  - tauto.
  - exists []. split; [rewrite app_nil_r; reflexivity | constructor].
  - intros _. apply same_entries_refl.
  - exact Ho.
  - intros H. rewrite (Hkeep H). reflexivity.
Qed.

Lemma step_same (inc : list string) (allowed : exn -> Prop) (r : dir_result)
    (st : scan_state) (o : outcome unit) :
  (forall e, o = Raise e -> allowed e) -> step_inv inc allowed r st (r, st, o).
Proof.
  intros Ho. apply step_unchanged; [apply state_le_refl | exact Ho | reflexivity].
Qed.

Lemma step_os_error (inc : list string) (r : dir_result) (st : scan_state)
    (f : os_error) :
  step_inv inc raw_exn r st (r, st, Raise (exn_of_os_error f)).
Proof. apply step_same. intros e [= <-]. apply raw_exn_os. Qed.

Lemma step_ignore_content (inc : list string) (allowed : exn -> Prop) (r : dir_result)
    (st : scan_state) :
  step_inv inc allowed (r) st (set_ignore_content r, st, Ok tt).
Proof.
  step_parts.
  - apply state_le_refl.
  - simpl. lia.
  - unfold result_ok. simpl. tauto.
  - simpl. tauto.
  - exists []. simpl. split; [rewrite app_nil_r; reflexivity | constructor].
  - intros _. unfold same_entries. simpl. tauto.
  - discriminate.
  - intros _. reflexivity.
Qed.

Lemma step_add_file (inc : list string) (allowed : exn -> Prop) (r : dir_result)
    (st st' : scan_state)
    (name content : string) (file_size : N) (p : path) :
  state_le st st' -> total_files st' = total_files st + 1 ->
  total_files st + 1 <= MAX_FILES ->
  step_inv inc allowed r st
           (add_file (FileNode name file_size content p) file_size r, st', Ok tt).
Proof.
  intros Hle Hcount Hmax. step_parts.
  - exact Hle.
  - simpl. rewrite n_files_list_app. simpl. unfold let_in. lia.
  - unfold result_ok. simpl. intros (Hs & Hf & Hd & Hall).
    rewrite files_size_list_app, n_files_list_app, n_dirs_list_app. simpl.
    repeat split; try lia.
    apply Forall_app. split; [exact Hall|]. repeat constructor.
  - simpl. tauto.
  - simpl. eexists. split; [reflexivity|].
    constructor; [|constructor]. intros Hd. discriminate.
  - intros Hfull. lia.
  - discriminate.
  - intros _. simpl. rewrite n_files_list_app. simpl. unfold let_in. lia.
Qed.

Lemma step_add_subdir (inc : list string) (allowed : exn -> Prop) (r : dir_result)
    (st st' : scan_state) (d : node) :
  state_le st st' -> is_dir_node d = true -> well_formed d ->
  (patterns_truthy inc = true -> 0 < node_file_count d) ->
  n_files d + let_in st = let_in st' ->
  (MAX_FILES <= total_files st -> False) ->
  step_inv inc allowed r st (add_subdir d r, st', Ok tt).
Proof.
  intros Hle Hdir Hwf Hkeep Hadm Hfull.
  destruct (well_formed_dir_aggregates d Hdir Hwf) as (Hs & Hf & Hd).
  step_parts.
  - exact Hle.
  - simpl. rewrite n_files_list_app. simpl. lia.
  - unfold result_ok. simpl. intros (Hs' & Hf' & Hd' & Hall).
    rewrite files_size_list_app, n_files_list_app, n_dirs_list_app. simpl.
    rewrite Hdir. repeat split; try lia.
    apply Forall_app. split; [exact Hall|]. repeat constructor. exact Hwf.
  - simpl. tauto.
  - simpl. eexists. split; [reflexivity|].
    constructor; [|constructor].
    intros _ Hinc. split; [apply Hkeep, Hinc | exact Hf].
  - intros Hmax. destruct (Hfull Hmax).
  - discriminate.
  - intros _. simpl. rewrite n_files_list_app. simpl. lia.
Qed.

Lemma step_inv_trans (inc : list string) (A B : exn -> Prop) (r r1 : dir_result)
    (st st1 : scan_state) (s : step) :
  step_inv inc A r st (r1, st1, Ok tt) -> step_inv inc B r1 st1 s ->
  step_inv inc B r st s.
Proof.
  destruct s as [[r2 st2] o2].
  intros (Hle1 & Ha1 & Hok1 & (Hn1 & Hp1) & (new1 & Hc1 & Hat1) & Hfull1 & _ & Heq1)
         (Hle2 & Ha2 & Hok2 & (Hn2 & Hp2) & (new2 & Hc2 & Hat2) & Hfull2 & He2 & Heq2).
  step_parts.
  - apply (state_le_trans _ _ _ Hle1 Hle2).
  - lia.
  - tauto.
  - split; congruence.
  - exists (new1 ++ new2). split; [rewrite Hc2, Hc1, app_assoc; reflexivity|].
    apply Forall_app. split; assumption.
  - intros H. apply Hfull1 in H as H1.
    assert (H2 : same_entries r1 r2) by (apply Hfull2; destruct Hle1; lia).
    unfold same_entries in *. destruct H1 as (?&?&?&?), H2 as (?&?&?&?).
    repeat split; congruence.
  - exact He2.
  - intros H. specialize (Heq1 handled_ok). specialize (Heq2 H). lia.
Qed.

Lemma step_inv_weaken (inc : list string) (A B : exn -> Prop) (r : dir_result)
    (st : scan_state) (s : step) :
  (forall e, A e -> B e) -> step_inv inc A r st s -> step_inv inc B r st s.
Proof.
  destruct s as [[r' st'] o]. intros HAB (H1 & H2 & H3 & H4 & H5 & H6 & H7 & H8).
  step_parts; try assumption. intros e He. apply HAB, H7, He.
Qed.

(** Counting a candidate file and then classifying it. *)
Lemma step_file_node (inc : list string) (E : environment) (r : dir_result)
    (st : scan_state)
    (name : string) (file_size : N) (opened npath : path) :
  (MAX_TOTAL_SIZE_BYTES <? total_size st + file_size) = false ->
  (MAX_FILES <? total_files (count_file file_size st)) = false ->
  step_inv inc raw_exn r st
    (let '(content, st') := read_content E opened (count_file file_size st) in
     (add_file (FileNode name file_size content npath) file_size r, st', Ok tt)).
Proof.
  intros Hsize Hcount.
  pose proof (read_content_state E opened (count_file file_size st)) as Hread.
  destruct (read_content E opened (count_file file_size st)) as [content st'].
  simpl in Hread. destruct Hread as (Hle & Hf & _).
  apply N.ltb_ge in Hcount. simpl in Hcount.
  apply step_add_file.
  - eapply state_le_trans; [apply state_le_count_file; exact Hsize | exact Hle].
  - rewrite Hf. reflexivity.
  - exact Hcount.
Qed.

(** The ceilings, and the file node when they let the file in. *)
Lemma step_ceilings (inc : list string) (E : environment) (r : dir_result)
    (st : scan_state) (name : string) (file_size : N) (opened npath : path) :
  step_inv inc raw_exn r st
    (if MAX_TOTAL_SIZE_BYTES <? total_size st + file_size
     then (r, st, Raise MaxFileSizeReachedError)
     else
       if MAX_FILES <? total_files (count_file file_size st)
       then (r, count_file file_size st, Raise MaxFilesReachedError)
       else
         let '(content, st') := read_content E opened (count_file file_size st) in
         (add_file (FileNode name file_size content npath) file_size r, st', Ok tt)).
Proof.
  destruct (MAX_TOTAL_SIZE_BYTES <? total_size st + file_size) eqn:Hsize.
  { apply step_same. intros e [= <-]. unfold raw_exn. tauto. }
  destruct (MAX_FILES <? total_files (count_file file_size st)) eqn:Hcount.
  { apply step_unchanged; [apply state_le_count_file; exact Hsize | |].
    - intros e [= <-]. unfold raw_exn. tauto.
    - intros _. apply N.ltb_lt in Hcount. simpl in Hcount.
      unfold let_in. simpl. lia. }
  apply step_file_node; assumption.
Qed.

Lemma process_file_inv (inc : list string) (E : environment) (item : path)
    (r : dir_result) (st : scan_state) :
  step_inv inc raw_exn r st (_process_file E item r st).
Proof.
  unfold _process_file.
  destruct (fs_st_size E item) as [file_size|f]; [|apply step_os_error].
  apply step_ceilings.
Qed.

(** Attaching what a call of the scanner returned. *)
Lemma step_scanned (r : dir_result) (st : scan_state)
    (res : scan_state * outcome (option node)) (include_patterns : list string)
    (rename : node -> node) :
  scan_inv st res ->
  (forall d, is_dir_node (rename d) = is_dir_node d /\ n_files (rename d) = n_files d
             /\ node_file_count (rename d) = node_file_count d
             /\ (well_formed d -> well_formed (rename d))) ->
  step_inv include_patterns raw_exn r st
    (match res with
     | (st', Raise e) => (r, st', Raise e)
     | (st', Ok subdir) =>
         match subdir with
         | Some d =>
             if keeps_subdir subdir include_patterns
             then (add_subdir (rename d) r, st', Ok tt)
             else (r, st', Ok tt)
         | None => (r, st', Ok tt)
         end
     end).
Proof.
  destruct res as [st' [[d|]|e]]; intros (Hle & Hnode & Hfull & Hexn & Hsame) Hren.
  - destruct (Hnode d eq_refl) as (Hdir & Hwf & Hadm).
    destruct (Hren d) as (Hrd & Hrn & Hrc & Hrw).
    destruct (keeps_subdir (Some d) include_patterns) eqn:Hkeep.
    + apply step_add_subdir; try assumption.
      * rewrite Hrd. exact Hdir.
      * apply Hrw. exact Hwf.
      * intros Hinc. rewrite Hrc. simpl in Hkeep. rewrite Hinc in Hkeep.
        simpl in Hkeep. apply N.ltb_lt. exact Hkeep.
      * rewrite Hrn. exact Hadm.
      * intros Hmax. destruct (Hfull Hmax) as [_ Hno]. apply (Hno d). reflexivity.
    + apply step_unchanged; [exact Hle | discriminate |].
      intros _. simpl in Hkeep. apply orb_false_iff in Hkeep.
      destruct Hkeep as [_ Hzero]. apply N.ltb_ge in Hzero.
      destruct (well_formed_dir_aggregates d Hdir Hwf) as (_ & Hfc & _). lia.
  - apply step_unchanged; [exact Hle | discriminate |].
    intros _. rewrite Hsame by tauto. reflexivity.
  - apply step_unchanged; [exact Hle | |].
    + intros e' [= <-]. unfold raw_exn. destruct (Hexn e eq_refl); tauto.
    + intros Hhandled.
      assert (He : e = PermissionError).
      { destruct (Hhandled e eq_refl) as [->|[->|[->| ->]]]; [| | |reflexivity];
          destruct (Hexn _ eq_refl) as [[H|[H|[H|H]]]|H]; discriminate. }
      subst e. rewrite Hsame by tauto. reflexivity.
Qed.

Lemma process_symlink_inv (E : environment) (self : scanner) (item : path)
    (r : dir_result) (st : scan_state) (depth : nat) (base_path : path)
    (include_patterns : list string) :
  scanner_ok self depth ->
  step_inv include_patterns raw_exn r st
           (_process_symlink E self item r st depth base_path include_patterns).
Proof.
  intros Hself. unfold _process_symlink.
  destruct (_is_safe_symlink E item base_path) as [safe|e] eqn:Hsafe.
  2:{ apply is_safe_symlink_raises in Hsafe. destruct Hsafe as (f & -> & _).
      apply step_os_error. }
  destruct (negb safe).
  { apply step_same. intros e [= <-]. unfold raw_exn. tauto. }
  destruct (fs_resolve E item) as [real_path|f]; [|apply step_os_error].
  destruct (bool_decide (real_path ∈ seen_paths st)).
  { apply step_same. intros e [= <-]. unfold raw_exn. tauto. }
  destruct (fs_is_file E real_path) as [[|]|f]; [| |apply step_os_error].
  { destruct (fs_st_size E real_path) as [file_size|f]; [|apply step_os_error].
    apply step_ceilings. }
  destruct (fs_is_dir E real_path) as [[|]|f]; [| |apply step_os_error].
  2:{ apply step_same. discriminate. }
  apply (step_scanned r st (self real_path st (S depth)) include_patterns
                      (rename_node (path_name item) item)).
  - apply Hself.
  - intros d. pose proof (rename_node_measures (path_name item) item d). tauto.
Qed.

Lemma catch_item_children (s : step) :
  r_children (fst (fst (catch_item s))) = r_children (fst (fst s)).
Proof. destruct s as [[r st] [[]|[]]]; reflexivity. Qed.

Lemma catch_item_handled (r : dir_result) (st : scan_state) (o : outcome unit) :
  handled (snd (catch_item (r, st, o))) -> handled o.
Proof.
  destruct o as [[]|e]; [intros _; apply handled_ok|].
  destruct e; simpl; intros H e' [= <-]; try tauto; apply H; reflexivity.
Qed.

Lemma catch_item_inv (inc : list string) (r : dir_result) (st : scan_state) (s : step) :
  step_inv inc raw_exn r st s -> step_inv inc loop_exn r st (catch_item s).
Proof.
  destruct s as [[r' st'] o]; intros (H1 & H2 & H3 & H4 & H5 & H6 & H7 & H8).
  pose proof (catch_item_handled r' st' o) as Hhandled.
  assert (Hshape : catch_item (r', st', o) = (r', st', snd (catch_item (r', st', o)))).
  { destruct o as [[]|[]]; reflexivity. }
  rewrite Hshape in *.
  step_parts; try assumption.
  - intros e He. destruct o as [[]|e0]; [discriminate|].
    destruct (H7 e0 eq_refl) as [->|[->|[->|[->|Hos]]]]; simpl in He;
      try discriminate; try (injection He as <-; unfold loop_exn; tauto).
    assert (e = e0).
    { destruct e0; simpl in He; try discriminate; injection He as <-; reflexivity. }
    subst e0. unfold loop_exn. tauto.
  - intros H. apply H8, Hhandled, H.
Qed.

Lemma process_item_inv (E : environment) (self : scanner) (item : path) (q : query)
    (r : dir_result) (st : scan_state) (depth : nat)
    (ignore_patterns : list string) (base_path : path)
    (include_patterns : list string) :
  scanner_ok self depth ->
  step_inv include_patterns loop_exn r st
           (_process_item E self item q r st depth ignore_patterns base_path
                          include_patterns).
Proof.
  intros Hself. unfold _process_item.
  destruct (_should_exclude E item base_path ignore_patterns).
  { apply step_same. discriminate. }
  destruct (fs_is_file E item) as [is_file|f].
  2:{ apply step_same. intros e [= <-]. unfold loop_exn.
      pose proof (os_exn_of_os_error f). tauto. }
  destruct (is_file && patterns_truthy (query_include_patterns q)
            && negb (_should_include E item base_path include_patterns)).
  { apply step_ignore_content. }
  apply catch_item_inv.
  assert (H1 : step_inv include_patterns raw_exn r st
                 (match fs_is_symlink E item with
                  | Failed f => (r, st, Raise (exn_of_os_error f))
                  | Done true =>
                      _process_symlink E self item r st depth base_path include_patterns
                  | Done false => (r, st, Ok tt)
                  end)).
  { destruct (fs_is_symlink E item) as [[|]|f].
    - apply process_symlink_inv. exact Hself.
    - apply step_same. discriminate.
    - apply step_os_error. }
  destruct (match fs_is_symlink E item with
            | Failed f => (r, st, Raise (exn_of_os_error f))
            | Done true =>
                _process_symlink E self item r st depth base_path include_patterns
            | Done false => (r, st, Ok tt)
            end) as [[r1 st1] [[]|e]].
  - eapply step_inv_trans; [exact H1|].
    destruct is_file; [apply process_file_inv|].
    destruct (fs_is_dir E item) as [[|]|f].
    + apply (step_scanned r1 st1 (self item st1 (S depth)) include_patterns
                          (fun d => d)).
      * apply Hself.
      * intros d. tauto.
    + apply step_same. discriminate.
    + apply step_os_error.
  - exact H1.
Qed.

Lemma process_items_inv (E : environment) (self : scanner) (q : query) (depth : nat)
    (items : list path) :
  scanner_ok self depth ->
  forall r st,
    step_inv (include_patterns q) loop_exn r st
             (process_items E self items q r st depth).
Proof.
  intros Hself. induction items as [|item rest IH]; intros r st.
  - simpl. apply step_same. discriminate.
  - simpl.
    pose proof (process_item_inv E self item q r st depth (ignore_patterns q)
                  (local_path q) (include_patterns q) Hself) as H1.
    destruct (_process_item E self item q r st depth (ignore_patterns q)
                (local_path q) (include_patterns q)) as [[r1 st1] [[]|e]].
    + eapply step_inv_trans; [exact H1 | apply IH].
    + exact H1.
Qed.

(** ** A call of [_scan_directory] *)

Lemma scan_inv_skip (st : scan_state) : scan_inv st (st, Ok None).
Proof.
  unfold scan_inv. split; [apply state_le_refl|].
  split; [discriminate|]. split; [|split; [discriminate | reflexivity]].
  intros _. split; [reflexivity | discriminate].
Qed.

Lemma scan_inv_raise (st : scan_state) (e : exn) :
  os_exn e \/ e = RecursionError -> scan_inv st (st, Raise e).
Proof.
  intros He. unfold scan_inv. split; [apply state_le_refl|].
  split; [discriminate|]. split; [|split].
  - intros _. split; [reflexivity | discriminate].
  - intros e' [= <-]. exact He.
  - reflexivity.
Qed.

Lemma new_result_ok (p : path) : result_ok (new_result p).
Proof. unfold result_ok, new_result. simpl. repeat split. constructor. Qed.

Lemma scan_directory_body_inv (E : environment) (q : query) (self : scanner)
    (p : path) (st : scan_state) (depth : nat) :
  scanner_ok self depth -> scan_inv st (scan_directory_body E q self p st depth).
Proof.
  intros Hself. unfold scan_directory_body.
  destruct (Nat.ltb MAX_DIRECTORY_DEPTH depth); [apply scan_inv_skip|].
  destruct (MAX_FILES <=? total_files st) eqn:Hfiles; [apply scan_inv_skip|].
  destruct (MAX_TOTAL_SIZE_BYTES <=? total_size st); [apply scan_inv_skip|].
  destruct (fs_resolve E p) as [real_path|f].
  2:{ apply scan_inv_raise. left. apply os_exn_of_os_error. }
  destruct (bool_decide (real_path ∈ seen_paths st)); [apply scan_inv_skip|].
  apply N.leb_gt in Hfiles.
  set (st0 := trace (IoListdir p) (add_seen real_path st)).
  assert (Hle0 : state_le st st0).
  { eapply state_le_trans; [apply state_le_add_seen | apply state_le_trace]. }
  assert (Hstep : step_inv (include_patterns q) loop_exn (new_result p) st0
                    (match fs_iterdir E p with
                     | Failed f => (new_result p, st0, Raise (exn_of_os_error f))
                     | Done names =>
                         process_items E self (map (path_child p) names) q
                                       (new_result p) st0 depth
                     end)).
  { destruct (fs_iterdir E p) as [names|f].
    - apply process_items_inv. exact Hself.
    - apply step_same. intros e [= <-]. unfold loop_exn.
      pose proof (os_exn_of_os_error f). tauto. }
  destruct (match fs_iterdir E p with
            | Failed f => (new_result p, st0, Raise (exn_of_os_error f))
            | Done names =>
                process_items E self (map (path_child p) names) q
                              (new_result p) st0 depth
            end) as [[r' st'] o].
  destruct Hstep as (Hle & Hadm & Hok & _ & _ & _ & Hexn & Heq).
  assert (Hfin : handled o -> scan_inv st (st', Ok (Some (finished r')))).
  { intros Hh. unfold scan_inv.
    split; [eapply state_le_trans; eassumption|].
    split; [|split; [intros; lia | split; [discriminate|]]].
    - intros nd [= <-]. split; [reflexivity|].
      split; [apply finished_well_formed, Hok, new_result_ok|].
      unfold finished. rewrite finished_n_files.
      specialize (Heq Hh). simpl in Heq.
      replace (let_in st) with (let_in st0) by reflexivity. lia.
    - intros [H|H]; discriminate. }
  assert (Hraise : forall e, o = Raise e -> e <> MaxFilesReachedError ->
                             e <> PermissionError -> scan_inv st (st', Raise e)).
  { intros e He Hne1 Hne2. unfold scan_inv.
    split; [eapply state_le_trans; eassumption|].
    split; [discriminate|]. split; [intros; lia|]. split.
    - intros e' [= <-]. destruct (Hexn e He) as [->|[->|Hos]];
        [congruence | tauto | tauto].
    - intros [H|H]; [discriminate | congruence]. }
  destruct o as [[]|e]; [apply Hfin, handled_ok|].
  destruct e;
    first [ apply Hfin; intros e' [= <-]; tauto
          | apply (Hraise _ eq_refl); discriminate ].
Qed.

Lemma scan_directory_fuel_inv (E : environment) (q : query) (fuel : nat) :
  forall p st depth, scan_inv st (scan_directory_fuel fuel E q p st depth).
Proof.
  induction fuel as [|fuel IH]; intros p st depth.
  - simpl. apply scan_inv_raise. tauto.
  - simpl. apply scan_directory_body_inv. intros p' st'. apply IH.
Qed.

Lemma scan_directory_inv (E : environment) (q : query) (p : path)
    (st : scan_state) (depth : nat) :
  scan_inv st (_scan_directory E p q st depth).
Proof. apply scan_directory_fuel_inv. Qed.

(** ** The recursion: fuel and exceptions *)

Lemma process_symlink_ext (E : environment) (self1 self2 : scanner) (depth : nat) :
  (forall p st, self1 p st (S depth) = self2 p st (S depth)) ->
  forall item r st base_path include_patterns,
    _process_symlink E self1 item r st depth base_path include_patterns
    = _process_symlink E self2 item r st depth base_path include_patterns.
Proof.
  intros H item r st base_path include_patterns. unfold _process_symlink.
  destruct (_is_safe_symlink E item base_path) as [safe|e]; [|reflexivity].
  destruct (negb safe); [reflexivity|].
  destruct (fs_resolve E item) as [real_path|f]; [|reflexivity].
  destruct (bool_decide (real_path ∈ seen_paths st)); [reflexivity|].
  destruct (fs_is_file E real_path) as [[|]|f]; [reflexivity| |reflexivity].
  destruct (fs_is_dir E real_path) as [[|]|f]; [|reflexivity|reflexivity].
  rewrite H. reflexivity.
Qed.

Lemma process_item_ext (E : environment) (self1 self2 : scanner) (depth : nat) :
  (forall p st, self1 p st (S depth) = self2 p st (S depth)) ->
  forall item q r st ignore_patterns base_path include_patterns,
    _process_item E self1 item q r st depth ignore_patterns base_path include_patterns
    = _process_item E self2 item q r st depth ignore_patterns base_path include_patterns.
Proof.
  intros H item q r st ignore_patterns base_path include_patterns.
  unfold _process_item.
  destruct (_should_exclude E item base_path ignore_patterns); [reflexivity|].
  destruct (fs_is_file E item) as [is_file|f]; [|reflexivity].
  destruct (is_file && patterns_truthy (query_include_patterns q)
            && negb (_should_include E item base_path include_patterns));
    [reflexivity|].
  rewrite (process_symlink_ext E self1 self2 depth H).
  destruct (match fs_is_symlink E item with
            | Failed f => (r, st, Raise (exn_of_os_error f))
            | Done true =>
                _process_symlink E self2 item r st depth base_path include_patterns
            | Done false => (r, st, Ok tt)
            end) as [[r1 st1] [[]|e]]; [|reflexivity].
  destruct is_file; [reflexivity|].
  destruct (fs_is_dir E item) as [[|]|f]; [|reflexivity|reflexivity].
  rewrite H. reflexivity.
Qed.

Lemma process_items_ext (E : environment) (self1 self2 : scanner) (depth : nat) :
  (forall p st, self1 p st (S depth) = self2 p st (S depth)) ->
  forall items q r st,
    process_items E self1 items q r st depth = process_items E self2 items q r st depth.
Proof.
  intros H items q. induction items as [|item rest IH]; intros r st; [reflexivity|].
  simpl. rewrite (process_item_ext E self1 self2 depth H).
  destruct (_process_item E self2 item q r st depth (ignore_patterns q)
              (local_path q) (include_patterns q)) as [[r1 st1] [[]|e]];
    [apply IH | reflexivity].
Qed.

Lemma scan_directory_body_ext (E : environment) (q : query) (self1 self2 : scanner)
    (depth : nat) :
  (forall p st, self1 p st (S depth) = self2 p st (S depth)) ->
  forall p st,
    scan_directory_body E q self1 p st depth = scan_directory_body E q self2 p st depth.
Proof.
  intros H p st. unfold scan_directory_body.
  destruct (Nat.ltb MAX_DIRECTORY_DEPTH depth); [reflexivity|].
  destruct (MAX_FILES <=? total_files st); [reflexivity|].
  destruct (MAX_TOTAL_SIZE_BYTES <=? total_size st); [reflexivity|].
  destruct (fs_resolve E p) as [real_path|f]; [|reflexivity].
  destruct (bool_decide (real_path ∈ seen_paths st)); [reflexivity|].
  destruct (fs_iterdir E p) as [names|f]; [|reflexivity].
  rewrite (process_items_ext E self1 self2 depth H). reflexivity.
Qed.

Lemma scan_directory_body_deep (E : environment) (q : query) (self : scanner)
    (p : path) (st : scan_state) (depth : nat) :
  (MAX_DIRECTORY_DEPTH < depth)%nat ->
  scan_directory_body E q self p st depth = (st, Ok None).
Proof.
  intros H. unfold scan_directory_body.
  apply Nat.ltb_lt in H. rewrite H. reflexivity.
Qed.

(** Two amounts of fuel that are enough give the same result. *)
Lemma scan_directory_fuel_enough (E : environment) (q : query) (fuel1 : nat) :
  forall fuel2 depth p st,
    enough_fuel fuel1 depth -> enough_fuel fuel2 depth ->
    scan_directory_fuel fuel1 E q p st depth = scan_directory_fuel fuel2 E q p st depth.
Proof.
  unfold enough_fuel.
  induction fuel1 as [|fuel1 IH]; intros fuel2 depth p st H1 H2; [lia|].
  destruct fuel2 as [|fuel2]; [lia|]. simpl.
  destruct (Nat.lt_ge_cases MAX_DIRECTORY_DEPTH depth) as [Hdeep|Hshallow].
  - rewrite !scan_directory_body_deep by exact Hdeep. reflexivity.
  - apply scan_directory_body_ext. intros p' st'.
    unfold MAX_DIRECTORY_DEPTH in *. apply IH; lia.
Qed.

(** *** Where an exception comes from *)

Lemma walk_fails_os_fails (E : environment) (base_path : path) (f : os_error) :
  walk_fails E base_path f -> os_fails E f.
Proof.
  intros (x & [H|[H|[H|[[_ H]|[[_ [H|H]]|[_ [_ [H|H]]]]]]]]);
    solve [ exists x; tauto | exists base_path; tauto ].
Qed.

Lemma raised_in_walk_os (E : environment) (base_path : path) (e : exn) :
  raised_in_walk E base_path e -> raised_by_os E e.
Proof.
  intros (f & -> & H). exists f. split; [reflexivity|].
  eapply walk_fails_os_fails, H.
Qed.

Lemma raised_by_os_exn (E : environment) (e : exn) : raised_by_os E e -> os_exn e.
Proof. intros (f & -> & _). apply os_exn_of_os_error. Qed.

(** The calls of [walk_fails], one by one. *)
Lemma raised_is_file (E : environment) (base_path x : path) (f : os_error) :
  fs_is_file E x = Failed f -> raised_in_walk E base_path (exn_of_os_error f).
Proof. intros H. exists f. split; [reflexivity|]. exists x. tauto. Qed.

Lemma raised_is_dir (E : environment) (base_path x : path) (f : os_error) :
  fs_is_dir E x = Failed f -> raised_in_walk E base_path (exn_of_os_error f).
Proof. intros H. exists f. split; [reflexivity|]. exists x. tauto. Qed.

Lemma raised_is_symlink (E : environment) (base_path x : path) (f : os_error) :
  fs_is_symlink E x = Failed f -> raised_in_walk E base_path (exn_of_os_error f).
Proof. intros H. exists f. split; [reflexivity|]. exists x. tauto. Qed.

Lemma raised_st_size (E : environment) (base_path x : path) (f : os_error) :
  fs_is_file E x = Done true -> fs_st_size E x = Failed f ->
  raised_in_walk E base_path (exn_of_os_error f).
Proof. intros H1 H2. exists f. split; [reflexivity|]. exists x. tauto. Qed.

Lemma raised_guard (E : environment) (base_path x : path) (e : exn) :
  fs_is_symlink E x = Done true -> _is_safe_symlink E x base_path = Raise e ->
  raised_in_walk E base_path e.
Proof.
  intros H1 H2. apply is_safe_symlink_raises in H2.
  destruct H2 as (f & -> & Hf & Hres).
  exists f. split; [reflexivity|]. exists x. tauto.
Qed.

Lemma process_file_raises (E : environment) (base_path item : path) (r : dir_result)
    (st : scan_state) (e : exn) :
  fs_is_file E item = Done true ->
  snd (_process_file E item r st) = Raise e ->
  e = MaxFilesReachedError \/ e = MaxFileSizeReachedError
  \/ raised_in_walk E base_path e.
Proof.
  intros Hfile. unfold _process_file.
  destruct (fs_st_size E item) as [file_size|f] eqn:Hsize.
  2:{ simpl. intros [= <-]. right. right. eapply raised_st_size; eassumption. }
  destruct (MAX_TOTAL_SIZE_BYTES <? total_size st + file_size).
  { simpl. intros [= <-]. tauto. }
  destruct (MAX_FILES <? total_files (count_file file_size st)).
  { simpl. intros [= <-]. tauto. }
  destruct (read_content E item (count_file file_size st)). discriminate.
Qed.

Lemma process_symlink_raises (E : environment) (self : scanner) (item : path)
    (r : dir_result) (st : scan_state) (depth : nat) (base_path : path)
    (include_patterns : list string) (e : exn) :
  fs_is_symlink E item = Done true ->
  snd (_process_symlink E self item r st depth base_path include_patterns) = Raise e ->
  e = MaxFilesReachedError \/ e = MaxFileSizeReachedError \/ e = AlreadyVisitedError
  \/ raised_in_walk E base_path e \/ raised_by E self depth e.
Proof.
  intros Hsym. unfold _process_symlink.
  destruct (_is_safe_symlink E item base_path) as [safe|e0] eqn:Hsafe.
  2:{ simpl. intros [= <-]. right. right. right. left.
      eapply raised_guard; eassumption. }
  destruct safe; cbn [negb].
  2:{ simpl. intros [= <-]. tauto. }
  destruct (fs_resolve E item) as [real_path|f] eqn:Hres.
  2:{ exfalso. unfold _is_safe_symlink, unsafe_if_caught in Hsafe.
      rewrite Hres in Hsafe. destruct (is_OSError_or_ValueError f); discriminate. }
  destruct (bool_decide (real_path ∈ seen_paths st)).
  { simpl. intros [= <-]. tauto. }
  destruct (fs_is_file E real_path) as [[|]|f] eqn:Hfile.
  3:{ simpl. intros [= <-]. right. right. right. left.
      eapply raised_is_file; eassumption. }
  { destruct (fs_st_size E real_path) as [file_size|f] eqn:Hsize.
    2:{ simpl. intros [= <-]. right. right. right. left.
        eapply raised_st_size; eassumption. }
    destruct (MAX_TOTAL_SIZE_BYTES <? total_size st + file_size).
    { simpl. intros [= <-]. tauto. }
    destruct (MAX_FILES <? total_files (count_file file_size st)).
    { simpl. intros [= <-]. tauto. }
    destruct (read_content E real_path (count_file file_size st)).
    discriminate. }
  destruct (fs_is_dir E real_path) as [[|]|f] eqn:Hdir.
  2:{ discriminate. }
  2:{ simpl. intros [= <-]. right. right. right. left.
      eapply raised_is_dir; eassumption. }
  destruct (self real_path st (S depth)) as [st' [[d|]|e']] eqn:Hscan.
  - destruct (keeps_subdir (Some d) include_patterns); discriminate.
  - discriminate.
  - simpl. intros [= <-]. right. right. right. right.
    exists real_path, st. rewrite Hscan. split; [exact Hdir | reflexivity].
Qed.

Lemma process_item_raises (E : environment) (self : scanner) (item : path) (q : query)
    (r : dir_result) (st : scan_state) (depth : nat)
    (ignore_patterns : list string) (base_path : path)
    (include_patterns : list string) (e : exn) :
  snd (_process_item E self item q r st depth ignore_patterns base_path
                     include_patterns) = Raise e ->
  e = MaxFilesReachedError \/ raised_in_walk E base_path e \/ raised_by E self depth e.
Proof.
  unfold _process_item.
  destruct (_should_exclude E item base_path ignore_patterns); [discriminate|].
  destruct (fs_is_file E item) as [is_file|f] eqn:Hfile.
  2:{ simpl. intros [= <-]. right. left. eapply raised_is_file; eassumption. }
  destruct (is_file && patterns_truthy (query_include_patterns q)
            && negb (_should_include E item base_path include_patterns));
    [discriminate|].
  assert (Hcatch : forall s : step,
             (forall e', snd s = Raise e' ->
                         e' = MaxFilesReachedError \/ e' = MaxFileSizeReachedError
                         \/ e' = AlreadyVisitedError
                         \/ raised_in_walk E base_path e' \/ raised_by E self depth e') ->
             snd (catch_item s) = Raise e ->
             e = MaxFilesReachedError \/ raised_in_walk E base_path e
             \/ raised_by E self depth e).
  { intros [[r' st'] [[]|e']] Hs; [discriminate|].
    destruct (Hs e' eq_refl) as [->|[->|[->|Hself]]]; simpl; try discriminate.
    - intros [= <-]. tauto.
    - destruct e'; simpl; try discriminate; intros [= <-]; tauto. }
  apply Hcatch. intros e'.
  assert (Hsecond : forall (r1 : dir_result) (st1 : scan_state),
             snd (if is_file then _process_file E item r1 st1
                  else
                    match fs_is_dir E item with
                    | Failed f => (r1, st1, Raise (exn_of_os_error f))
                    | Done true =>
                        match self item st1 (S depth) with
                        | (st2, Raise e2) => (r1, st2, Raise e2)
                        | (st2, Ok subdir) =>
                            match subdir with
                            | Some d =>
                                if keeps_subdir subdir include_patterns
                                then (add_subdir d r1, st2, Ok tt)
                                else (r1, st2, Ok tt)
                            | None => (r1, st2, Ok tt)
                            end
                        end
                    | Done false => (r1, st1, Ok tt)
                    end) = Raise e' ->
             e' = MaxFilesReachedError \/ e' = MaxFileSizeReachedError
             \/ e' = AlreadyVisitedError
             \/ raised_in_walk E base_path e' \/ raised_by E self depth e').
  { intros r1 st1. destruct is_file.
    - intros H. apply (process_file_raises E base_path) in H; [tauto | exact Hfile].
    - destruct (fs_is_dir E item) as [[|]|f] eqn:Hdir.
      + destruct (self item st1 (S depth)) as [st' [[d|]|e2]] eqn:Hscan.
        * destruct (keeps_subdir (Some d) include_patterns); discriminate.
        * discriminate.
        * simpl. intros [= <-]. right. right. right. right.
          exists item, st1. rewrite Hscan. split; [exact Hdir | reflexivity].
      + discriminate.
      + simpl. intros [= <-]. right. right. right. left.
        eapply raised_is_dir; eassumption. }
  destruct (fs_is_symlink E item) as [[|]|f] eqn:Hsym.
  - pose proof (process_symlink_raises E self item r st depth base_path
                  include_patterns) as Hlink.
    destruct (_process_symlink E self item r st depth base_path include_patterns)
      as [[r1 st1] [[]|e1]].
    + apply Hsecond.
    + simpl. intros [= <-]. apply Hlink; [exact Hsym | reflexivity].
  - apply Hsecond.
  - simpl. intros [= <-]. right. right. right. left.
    eapply raised_is_symlink; eassumption.
Qed.

Lemma process_items_raises (E : environment) (self : scanner) (q : query)
    (depth : nat) (e : exn) (items : list path) :
  forall r st,
    snd (process_items E self items q r st depth) = Raise e ->
    e = MaxFilesReachedError \/ raised_in_walk E (local_path q) e
    \/ raised_by E self depth e.
Proof.
  induction items as [|item rest IH]; intros r st; [discriminate|].
  simpl.
  pose proof (process_item_raises E self item q r st depth (ignore_patterns q)
                (local_path q) (include_patterns q)) as Hitem.
  destruct (_process_item E self item q r st depth (ignore_patterns q)
              (local_path q) (include_patterns q)) as [[r1 st1] [[]|e1]].
  - apply IH.
  - simpl. intros [= <-]. apply Hitem. reflexivity.
Qed.

(** An exception leaves [_scan_directory] when the resolution of its path
    fails, or when its listing, a call on an entry or a call one level down
    has raised something that is not a [PermissionError]. *)
Lemma scan_directory_body_raises (E : environment) (q : query) (self : scanner)
    (p : path) (st : scan_state) (depth : nat) (e : exn) :
  snd (scan_directory_body E q self p st depth) = Raise e ->
  (exists f, e = exn_of_os_error f /\ fs_resolve E p = Failed f)
  \/ (e <> PermissionError
      /\ ((exists f, e = exn_of_os_error f /\ fs_iterdir E p = Failed f)
          \/ raised_in_walk E (local_path q) e \/ raised_by E self depth e)).
Proof.
  unfold scan_directory_body.
  destruct (Nat.ltb MAX_DIRECTORY_DEPTH depth); [discriminate|].
  destruct (MAX_FILES <=? total_files st); [discriminate|].
  destruct (MAX_TOTAL_SIZE_BYTES <=? total_size st); [discriminate|].
  destruct (fs_resolve E p) as [real_path|f] eqn:Hres.
  2:{ simpl. intros [= <-]. left. exists f. tauto. }
  destruct (bool_decide (real_path ∈ seen_paths st)); [discriminate|].
  destruct (fs_iterdir E p) as [names|f] eqn:Hlist.
  - pose proof (fun e' => process_items_raises E self q depth e'
                  (map (path_child p) names) (new_result p)
                  (trace (IoListdir p) (add_seen real_path st))) as Hloop.
    destruct (process_items E self (map (path_child p) names) q (new_result p)
                (trace (IoListdir p) (add_seen real_path st)) depth)
      as [[r' st'] [[]|e']]; [discriminate|].
    specialize (Hloop e' eq_refl).
    destruct e'; try discriminate; simpl; intros [= <-]; right;
      (split; [discriminate|]); right;
      destruct Hloop as [?|?]; try discriminate; assumption.
  - destruct f; simpl in *; try discriminate; intros [= <-]; right;
      (split; [discriminate|]); left; eexists; (split; [|reflexivity]); reflexivity.
Qed.

(** With enough fuel, an exception that leaves [_scan_directory] is the
    exception of a call to the operating system that has failed: the
    resolution of the path the scan was asked for or, with something else
    than a [PermissionError], its listing or a call of the walk on an
    entry. *)
Lemma scan_directory_fuel_raises (E : environment) (q : query) (fuel : nat) :
  forall p st depth e,
    enough_fuel fuel depth ->
    snd (scan_directory_fuel fuel E q p st depth) = Raise e ->
    exists f,
      e = exn_of_os_error f
      /\ (fs_resolve E p = Failed f
          \/ (f <> OsPermissionError
              /\ (fs_iterdir E p = Failed f \/ walk_fails E (local_path q) f))).
Proof.
  unfold enough_fuel.
  induction fuel as [|fuel IH]; intros p st depth e Hfuel; [lia|].
  simpl. destruct (Nat.lt_ge_cases MAX_DIRECTORY_DEPTH depth) as [Hdeep|Hshallow].
  - rewrite scan_directory_body_deep by exact Hdeep. discriminate.
  - intros H. apply scan_directory_body_raises in H.
    destruct H as [(f & -> & Hres)
                  |(Hne & [(f & -> & Hlist)|[(f & -> & Hwalk)|(x & st' & Hdir & H)]])].
    + exists f. tauto.
    + exists f. split; [reflexivity|]. right. split; [|tauto].
      intros ->. destruct Hne. reflexivity.
    + exists f. split; [reflexivity|]. right. split; [|tauto].
      intros ->. destruct Hne. reflexivity.
    + apply IH in H; [|unfold MAX_DIRECTORY_DEPTH in *; lia].
      destruct H as (f & -> & H).
      exists f. split; [reflexivity|]. right.
      split; [intros ->; destruct Hne; reflexivity|]. right.
      destruct H as [H|[_ [H|H]]]; [exists x; tauto | exists x; tauto | exact H].
Qed.

(** With enough fuel the recursion does not run out of it. *)
Lemma scan_directory_fuel_no_recursion_error (E : environment) (q : query) (fuel : nat) :
  forall p st depth,
    enough_fuel fuel depth ->
    snd (scan_directory_fuel fuel E q p st depth) <> Raise RecursionError.
Proof.
  intros p st depth Hfuel H.
  apply scan_directory_fuel_raises in H; [|exact Hfuel].
  destruct H as (f & Hf & _). destruct f; discriminate.
Qed.


(** ** Entering a directory *)

(** A directory that passes the guards is listed and joins [seen_paths]. *)
Lemma scan_directory_body_enters (E : environment) (q : query) (self : scanner)
    (p : path) (st : scan_state) (depth : nat) (real_path : path) :
  scanner_ok self depth ->
  (depth <= MAX_DIRECTORY_DEPTH)%nat ->
  total_files st < MAX_FILES -> total_size st < MAX_TOTAL_SIZE_BYTES ->
  fs_resolve E p = Done real_path -> real_path ∉ seen_paths st ->
  In (IoListdir p) (io_trace (fst (scan_directory_body E q self p st depth)))
  /\ real_path ∈ seen_paths (fst (scan_directory_body E q self p st depth)).
Proof.
  intros Hself Hdepth Hfiles Hsize Hres Hseen. unfold scan_directory_body.
  apply Nat.ltb_ge in Hdepth. apply N.leb_gt in Hfiles. apply N.leb_gt in Hsize.
  rewrite Hdepth, Hfiles, Hsize, Hres, (bool_decide_eq_false_2 _ Hseen).
  set (st0 := trace (IoListdir p) (add_seen real_path st)).
  assert (Hgoal : forall st', state_le st0 st' ->
                              In (IoListdir p) (io_trace st')
                              /\ real_path ∈ seen_paths st').
  { intros st' (_ & _ & _ & Hsub & evs & Htrace). split.
    - rewrite Htrace. subst st0. simpl. rewrite !in_app_iff. simpl. tauto.
    - apply Hsub. subst st0. simpl. set_solver. }
  destruct (fs_iterdir E p) as [names|f].
  - pose proof (process_items_inv E self q depth (map (path_child p) names) Hself
                  (new_result p) st0) as Hinv.
    destruct (process_items E self (map (path_child p) names) q (new_result p)
                st0 depth) as [[r' st'] o].
    destruct Hinv as (Hle & _).
    destruct o as [[]|[]]; apply (Hgoal st'); exact Hle.
  - destruct f; apply (Hgoal st0), state_le_refl.
Qed.

Lemma enough_fuel_default (depth : nat) :
  enough_fuel (S (S MAX_DIRECTORY_DEPTH - depth)) depth.
Proof. unfold enough_fuel, MAX_DIRECTORY_DEPTH. lia. Qed.

Lemma scan_directory_lists (E : environment) (q : query) (p : path)
    (st : scan_state) (depth : nat) (real_path : path) :
  (depth <= MAX_DIRECTORY_DEPTH)%nat ->
  total_files st < MAX_FILES -> total_size st < MAX_TOTAL_SIZE_BYTES ->
  fs_resolve E p = Done real_path -> real_path ∉ seen_paths st ->
  In (IoListdir p) (io_trace (fst (_scan_directory E p q st depth)))
  /\ real_path ∈ seen_paths (fst (_scan_directory E p q st depth)).
Proof.
  intros Hdepth Hfiles Hsize Hres Hseen.
  apply scan_directory_body_enters; try assumption.
  intros p' st'. apply scan_directory_fuel_inv.
Qed.

(** ** The example filesystems *)




(** ** The ceilings *)


(** The scan of the root, started on a fresh state, is not skipped. *)
Lemma root_scan_not_skipped (E : environment) (q : query) (p : path) :
  snd (_scan_directory E p q fresh_state 0) <> Ok None.
Proof.
  change (_scan_directory E p q fresh_state 0)
    with (scan_directory_body E q (scan_directory_fuel 21 E q) p fresh_state 0).
  unfold scan_directory_body.
  assert (Nat.ltb MAX_DIRECTORY_DEPTH 0 = false) as -> by reflexivity.
  assert ((MAX_FILES <=? total_files fresh_state) = false) as -> by reflexivity.
  assert ((MAX_TOTAL_SIZE_BYTES <=? total_size fresh_state) = false) as ->
      by reflexivity.
  destruct (fs_resolve E p) as [real_path|f]; [|discriminate].
  rewrite bool_decide_eq_false_2 by (simpl; set_solver).
  destruct (fs_iterdir E p) as [names|f].
  - destruct (process_items E (scan_directory_fuel 21 E q) (map (path_child p) names) q
                (new_result p)
                (trace (IoListdir p) (add_seen real_path fresh_state)) 0)
      as [[r' st'] [[]|[]]]; discriminate.
  - destruct f; discriminate.
Qed.

(** An exception that leaves a scan is that of a failed call to the
    operating system. *)
Lemma scan_directory_raises (E : environment) (q : query) (p : path)
    (st : scan_state) (depth : nat) (e : exn) :
  snd (_scan_directory E p q st depth) = Raise e ->
  raised_by_os E e
  /\ (e = PermissionError -> fs_resolve E p = Failed OsPermissionError).
Proof.
  intros H. apply scan_directory_fuel_raises in H; [|apply enough_fuel_default].
  destruct H as (f & -> & H). split.
  - exists f. split; [reflexivity|].
    destruct H as [H|[_ [H|H]]];
      [exists p; tauto | exists p; tauto | eapply walk_fails_os_fails, H].
  - intros Hf. apply exn_of_os_error_permission in Hf. subst f.
    destruct H as [H|[Hne _]]; [exact H | destruct Hne; reflexivity].
Qed.

(** When a directory passes the guards, the outcome of its loop decides
    what is returned: after a return, a [MaxFilesReachedError] or a
    [PermissionError], the node of the children gathered so far. *)
Lemma scan_directory_body_loop (E : environment) (q : query) (self : scanner)
    (p : path) (st : scan_state) (depth : nat) (real_path : path)
    (names : list string) (r' : dir_result) (st' : scan_state) (o : outcome unit) :
  (depth <= MAX_DIRECTORY_DEPTH)%nat ->
  total_files st < MAX_FILES -> total_size st < MAX_TOTAL_SIZE_BYTES ->
  fs_resolve E p = Done real_path -> real_path ∉ seen_paths st ->
  fs_iterdir E p = Done names ->
  process_items E self (map (path_child p) names) q (new_result p)
                (trace (IoListdir p) (add_seen real_path st)) depth = (r', st', o) ->
  o = Ok tt \/ o = Raise MaxFilesReachedError \/ o = Raise PermissionError ->
  scan_directory_body E q self p st depth = (st', Ok (Some (finished r'))).
Proof.
  intros Hdepth Hfiles Hsize Hres Hseen Hlist Hloop Ho.
  unfold scan_directory_body.
  apply Nat.ltb_ge in Hdepth. apply N.leb_gt in Hfiles. apply N.leb_gt in Hsize.
  rewrite Hdepth, Hfiles, Hsize, Hres, (bool_decide_eq_false_2 _ Hseen), Hlist, Hloop.
  destruct Ho as [->|[->| ->]]; reflexivity.
Qed.

(** C1: the tree a scan returns holds at most [MAX_FILES] file nodes and is
    well formed; it holds one file node for each file the counter has let
    in (none is lost, also when the ceiling ends the scan early); once the
    count has reached the ceiling, an item adds nothing to its directory
    and a directory is not entered; the breach never leaves the walk as an
    exception; the scan of the root is never skipped, and nothing but a
    failed call to the operating system keeps it from returning its node;
    and a loop that [MaxFilesReachedError] has ended hands back the node
    of the children gathered up to that point. *)
Theorem file_count_ceiling (E : environment) (q : query) (p : path) :
  (forall st depth st' nodes,
      _scan_directory E p q st depth = (st', Ok (Some nodes)) ->
      n_files nodes + let_in st = let_in st'
      /\ n_files nodes <= MAX_FILES /\ well_formed nodes)
  /\ (forall fuel item r st depth,
         MAX_FILES <= total_files st ->
         same_entries r
           (fst (fst (_process_item E (scan_directory_fuel fuel E q) item q r st depth
                                    (ignore_patterns q) (local_path q)
                                    (include_patterns q)))))
  /\ (forall st depth,
         MAX_FILES <= total_files st ->
         fst (_scan_directory E p q st depth) = st
         /\ forall nodes, snd (_scan_directory E p q st depth) <> Ok (Some nodes))
  /\ (forall st depth,
         snd (_scan_directory E p q st depth) <> Raise MaxFilesReachedError
         /\ snd (_scan_directory E p q st depth) <> Raise MaxFileSizeReachedError)
  /\ (snd (_scan_directory E p q fresh_state 0) <> Ok None
      /\ forall e, snd (_scan_directory E p q fresh_state 0) = Raise e ->
                   raised_by_os E e)
  /\ (forall fuel st depth real_path names r' st',
         (depth <= MAX_DIRECTORY_DEPTH)%nat ->
         total_files st < MAX_FILES -> total_size st < MAX_TOTAL_SIZE_BYTES ->
         fs_resolve E p = Done real_path -> real_path ∉ seen_paths st ->
         fs_iterdir E p = Done names ->
         process_items E (scan_directory_fuel fuel E q) (map (path_child p) names) q
                       (new_result p)
                       (trace (IoListdir p) (add_seen real_path st)) depth
         = (r', st', Raise MaxFilesReachedError) ->
         scan_directory_fuel (S fuel) E q p st depth
         = (st', Ok (Some (DirNode (path_name p) (r_size r')
                                   (_sort_children (r_children r'))
                                   (r_file_count r') (r_dir_count r') p
                                   (r_ignore_content r'))))).
Proof.
  split; [|split; [|split; [|split; [|split]]]].
  - intros st depth st' nodes H.
    pose proof (scan_directory_inv E q p st depth) as Hinv.
    rewrite H in Hinv. destruct Hinv as (_ & Hnode & _).
    destruct (Hnode nodes eq_refl) as (_ & Hwf & Hadm).
    split; [exact Hadm|]. split; [|exact Hwf]. unfold let_in in Hadm. lia.
  - intros fuel item r st depth Hfull.
    pose proof (process_item_inv E (scan_directory_fuel fuel E q) item q r st depth
                  (ignore_patterns q) (local_path q) (include_patterns q)) as Hinv.
    destruct (_process_item E (scan_directory_fuel fuel E q) item q r st depth
                (ignore_patterns q) (local_path q) (include_patterns q))
      as [[r' st'] o].
    simpl. apply Hinv; [|exact Hfull].
    intros p' st''. apply scan_directory_fuel_inv.
  - intros st depth Hfull.
    pose proof (scan_directory_inv E q p st depth) as Hinv.
    destruct (_scan_directory E p q st depth) as [st' o].
    destruct Hinv as (_ & _ & Hskip & _). simpl. apply Hskip, Hfull.
  - intros st depth.
    pose proof (scan_directory_inv E q p st depth) as Hinv.
    destruct (_scan_directory E p q st depth) as [st' o].
    destruct Hinv as (_ & _ & _ & Hexn & _). simpl.
    split; intros ->; destruct (Hexn _ eq_refl) as [[H|[H|[H|H]]]|H]; discriminate.
  - split; [apply root_scan_not_skipped|].
    intros e H. apply scan_directory_raises in H. tauto.
  - intros fuel st depth real_path names r' st' Hdepth Hfiles Hsize Hres Hseen Hlist
           Hloop.
    pose proof (process_items_inv E (scan_directory_fuel fuel E q) q depth
                  (map (path_child p) names)
                  (fun p' st'' => scan_directory_fuel_inv E q fuel p' st'' (S depth))
                  (new_result p) (trace (IoListdir p) (add_seen real_path st)))
      as Hinv.
    rewrite Hloop in Hinv. destruct Hinv as (_ & _ & _ & (Hname & Hpath) & _).
    simpl in Hname, Hpath. cbn [scan_directory_fuel].
    rewrite (scan_directory_body_loop E q _ p st depth real_path names r' st'
               (Raise MaxFilesReachedError)); try assumption; [|tauto].
    unfold finished, node_of_result, set_children. simpl.
    rewrite Hname, Hpath. reflexivity.
Qed.

Lemma file_count_ceiling_witness :
  let E := Fixture.env Fixture.sample in
  let q := Fixture.plain_query ["repo"] [] [] [] in
  let st := {| seen_paths := ∅; total_files := 9999; total_size := 0;
               io_trace := [] |} in
  exists st' nodes,
    _scan_directory E ["repo"] q st 0 = (st', Ok (Some nodes))
    /\ total_files st' = 10001
    /\ nodes = DirNode "repo" 8
                 [DirNode "lib" 8
                    [FileNode "b.py" 8 "print(1)" ["repo"; "lib"; "b.py"]]
                    1 0 ["repo"; "lib"] false]
                 1 1 ["repo"] false
    /\ n_files nodes + let_in st = let_in st'
    /\ n_files nodes <= MAX_FILES /\ well_formed nodes.
Proof.
  intros E q st.
  destruct (_scan_directory E ["repo"] q st 0) as [st' [[nodes|]|e]] eqn:H;
    try (vm_compute in H; discriminate).
  exists st', nodes. split; [reflexivity|].
  pose proof (proj1 (file_count_ceiling E q ["repo"]) st 0%nat st' nodes H) as Hthm.
  vm_compute in H. injection H as <- <-.
  split; [reflexivity|]. split; [reflexivity|]. exact Hthm.
Defined.




(** ** Termination and cycles *)

Lemma scan_directory_seen (E : environment) (q : query) (self : scanner) (p : path)
    (st : scan_state) (depth : nat) (real_path : path) :
  fs_resolve E p = Done real_path -> real_path ∈ seen_paths st ->
  scan_directory_body E q self p st depth = (st, Ok None).
Proof.
  intros Hres Hseen. unfold scan_directory_body. rewrite Hres.
  rewrite (bool_decide_eq_true_2 _ Hseen).
  destruct (Nat.ltb MAX_DIRECTORY_DEPTH depth); [reflexivity|].
  destruct (MAX_FILES <=? total_files st); [reflexivity|].
  destruct (MAX_TOTAL_SIZE_BYTES <=? total_size st); reflexivity.
Qed.

(** C3: the walk terminates on every filesystem: the fuel
    [MAX_DIRECTORY_DEPTH + 2 - depth] is enough, any larger amount gives the
    same result, and the recursion never runs out of it; a call deeper than
    [MAX_DIRECTORY_DEPTH] returns at once; a directory whose resolved path
    is in [seen_paths] is not entered and leaves the shared state as it
    was; and a link to such a directory adds nothing to the directory that
    holds it and leaves the state as it was (the item returns, unless the
    resolution of [local_path] itself fails with the [RuntimeError] of a
    loop). *)
Theorem walk_terminates (E : environment) (q : query) (p : path)
    (st : scan_state) (depth : nat) :
  (forall fuel, enough_fuel fuel depth ->
                scan_directory_fuel fuel E q p st depth = _scan_directory E p q st depth)
  /\ snd (_scan_directory E p q st depth) <> Raise RecursionError
  /\ ((MAX_DIRECTORY_DEPTH < depth)%nat ->
      _scan_directory E p q st depth = (st, Ok None))
  /\ (forall real_path,
         fs_resolve E p = Done real_path -> real_path ∈ seen_paths st ->
         _scan_directory E p q st depth = (st, Ok None))
  /\ (forall self link r real_path,
         fs_is_symlink E link = Done true -> fs_is_file E link = Done false ->
         fs_resolve E link = Done real_path -> real_path ∈ seen_paths st ->
         exists o,
           _process_item E self link q r st depth (ignore_patterns q) (local_path q)
                         (include_patterns q) = (r, st, o)
           /\ (fs_resolve E (local_path q) <> Failed OsRuntimeError -> o = Ok tt)).
Proof.
  split; [|split; [|split; [|split]]].
  - intros fuel Hfuel. apply scan_directory_fuel_enough;
      [exact Hfuel | apply enough_fuel_default].
  - apply scan_directory_fuel_no_recursion_error, enough_fuel_default.
  - intros Hdeep. unfold _scan_directory. simpl.
    apply scan_directory_body_deep. exact Hdeep.
  - intros real_path Hres Hseen. unfold _scan_directory. simpl.
    eapply scan_directory_seen; eassumption.
  - intros self link r real_path Hlink Hfile Hres Hseen. unfold _process_item.
    destruct (_should_exclude E link (local_path q) (ignore_patterns q));
      [exists (Ok tt); tauto|].
    rewrite Hfile, Hlink. cbn [andb].
    unfold _process_symlink, _is_safe_symlink. rewrite Hres.
    destruct (fs_resolve E (local_path q)) as [base|f].
    + destruct (existsb (path_eqb base) (path_parents real_path)
                || path_eqb real_path base); cbn [negb].
      * rewrite (bool_decide_eq_true_2 _ Hseen). exists (Ok tt). tauto.
      * exists (Ok tt). tauto.
    + destruct f; cbn.
      * exists (Ok tt). tauto.
      * exists (Ok tt). tauto.
      * exists (Raise RuntimeError). split; [reflexivity | congruence].
      * exists (Ok tt). tauto.
Qed.

Lemma walk_terminates_witness :
  let E := Fixture.env Fixture.cycle_disk in
  let q := Fixture.plain_query ["repo"] [] [] [] in
  snd (_scan_directory E ["repo"] q fresh_state 0)
  = Ok (Some (DirNode "repo" 5 [FileNode "a.txt" 5 "alpha" ["repo"; "a.txt"]]
                      1 0 ["repo"] false))
  /\ enough_fuel 40 0
  /\ scan_directory_fuel 40 E q ["repo"] fresh_state 0
     = _scan_directory E ["repo"] q fresh_state 0.
Proof.
  intros E q. split; [vm_compute; reflexivity|].
  assert (H : enough_fuel 40 0) by (unfold enough_fuel, MAX_DIRECTORY_DEPTH; lia).
  split; [exact H|].
  exact (proj1 (walk_terminates E q ["repo"] fresh_state 0) 40%nat H).
Defined.

(** ** Links that leave the base directory *)

Lemma path_parents_spec (base target : path) :
  In base (path_parents target)
  <-> exists rest, rest <> [] /\ target = base ++ rest.
Proof.
  unfold path_parents. rewrite in_map_iff. split.
  - intros (n & <- & Hn). apply in_rev, in_seq in Hn.
    exists (skipn n target). split.
    + intros Hnil. apply (f_equal (@length string)) in Hnil.
      rewrite length_skipn in Hnil. simpl in Hnil. lia.
    + symmetry. apply firstn_skipn.
  - intros (rest & Hrest & ->). exists (length base). split.
    + rewrite firstn_app, Nat.sub_diag, firstn_all. simpl. apply app_nil_r.
    + apply in_rev. rewrite rev_involutive. apply in_seq. rewrite length_app.
      destruct rest; [congruence|]. simpl. lia.
Qed.

(** [base_resolved in target_path.parents or target_path == base_resolved]. *)
Lemma within_test_spec (base target : path) :
  existsb (path_eqb base) (path_parents target) || path_eqb target base = true
  <-> path_within base target.
Proof.
  unfold path_within.
  rewrite orb_true_iff, existsb_exists. unfold path_eqb. split.
  - intros [(b & Hin & Heq)|Heq].
    + apply bool_decide_eq_true_1 in Heq. subst b.
      apply path_parents_spec in Hin. destruct Hin as (rest & _ & ->). eauto.
    + apply bool_decide_eq_true_1 in Heq. subst.
      exists []. symmetry. apply app_nil_r.
  - intros (rest & ->).
    destruct rest as [|c rest].
    + right. rewrite app_nil_r. apply bool_decide_eq_true_2. reflexivity.
    + left. exists base. split; [|apply bool_decide_eq_true_2; reflexivity].
      apply path_parents_spec. exists (c :: rest). split; [discriminate | reflexivity].
Qed.

(** The guard lets a link pass exactly when the link and the base directory
    resolve and the target is the resolved base directory or lies below it. *)
Lemma is_safe_symlink_spec (E : environment) (symlink_path base_path : path) :
  _is_safe_symlink E symlink_path base_path = Ok true
  <-> exists target base,
      fs_resolve E symlink_path = Done target /\ fs_resolve E base_path = Done base
      /\ path_within base target.
Proof.
  unfold _is_safe_symlink, unsafe_if_caught.
  destruct (fs_resolve E symlink_path) as [target|f].
  2:{ split; [destruct (is_OSError_or_ValueError f); discriminate|].
      intros (? & ? & H & _). discriminate. }
  destruct (fs_resolve E base_path) as [base|f].
  2:{ split; [destruct (is_OSError_or_ValueError f); discriminate|].
      intros (? & ? & _ & H & _). discriminate. }
  split.
  - intros [= H]. apply within_test_spec in H. eauto.
  - intros (t & b & [= <-] & [= <-] & H). apply within_test_spec in H.
    rewrite H. reflexivity.
Qed.

(** C4, as the code has it.  The guard is asked about the entries of the
    directories the walk lists, with [local_path] as its base.  (1) An
    entry that is a link whose resolved target is not the resolved
    [local_path] and does not lie below it is not followed, whatever the
    patterns: the item leaves the children and the aggregates of its
    directory and the whole shared state as they were, so that nothing is
    counted, no path joins [seen_paths] and nothing is read; the item
    returns, or it raises the exception of [is_file] on the link or of a
    resolution that the handler of the guard does not take.  (2) The path
    the scan starts on is not put to the guard: when it resolves, it is
    listed, wherever it resolves to. *)
Theorem unsafe_symlink_not_followed (E : environment) (q : query) :
  (forall self item r st depth,
      fs_is_symlink E item = Done true ->
      (forall target base,
          fs_resolve E item = Done target ->
          fs_resolve E (local_path q) = Done base ->
          ~ path_within base target) ->
      exists r' o,
        _process_item E self item q r st depth (ignore_patterns q) (local_path q)
                      (include_patterns q) = (r', st, o)
        /\ same_entries r r'
        /\ (o = Ok tt
            \/ exists f,
                o = Raise (exn_of_os_error f)
                /\ (fs_is_file E item = Failed f
                    \/ (is_OSError_or_ValueError f = false
                        /\ (fs_resolve E item = Failed f
                            \/ fs_resolve E (local_path q) = Failed f)))))
  /\ (forall p real_path,
         fs_resolve E p = Done real_path ->
         In (IoListdir p) (io_trace (fst (_scan_directory E p q fresh_state 0)))).
Proof.
  split.
  - intros self item r st depth Hlink Houtside.
    unfold _process_item.
    destruct (_should_exclude E item (local_path q) (ignore_patterns q)).
    { exists r, (Ok tt). split; [reflexivity|].
      split; [apply same_entries_refl | tauto]. }
    destruct (fs_is_file E item) as [is_file|f] eqn:Hfile.
    2:{ exists r, (Raise (exn_of_os_error f)). split; [reflexivity|].
        split; [apply same_entries_refl|]. right. exists f. tauto. }
    destruct (is_file && patterns_truthy (query_include_patterns q)
              && negb (_should_include E item (local_path q) (include_patterns q))).
    { exists (set_ignore_content r), (Ok tt). split; [reflexivity|].
      split; [unfold same_entries; simpl; tauto | tauto]. }
    rewrite Hlink. unfold _process_symlink.
    destruct (_is_safe_symlink E item (local_path q)) as [[|]|e] eqn:Hsafe.
    + apply is_safe_symlink_spec in Hsafe.
      destruct Hsafe as (target & base & Ht & Hb & Hin).
      destruct (Houtside target base Ht Hb Hin).
    + exists r, (Ok tt). split; [reflexivity|].
      split; [apply same_entries_refl | tauto].
    + apply is_safe_symlink_raises in Hsafe.
      destruct Hsafe as (f & -> & Hf & Hres).
      exists r, (Raise (exn_of_os_error f)). split; [destruct f; try reflexivity;
                                                     discriminate|].
      split; [apply same_entries_refl|]. right. exists f. tauto.
  - intros p real_path Hres.
    apply (scan_directory_lists E q p fresh_state 0 real_path);
      try reflexivity; try exact Hres.
    + unfold MAX_DIRECTORY_DEPTH. lia.
    + simpl. set_solver.
Qed.

Lemma unsafe_symlink_not_followed_witness :
  let E := Fixture.env Fixture.outside_link_disk in
  let q := Fixture.plain_query ["repo"] [] [] [] in
  let item := ["repo"; "out"] in
  let E' := Fixture.env Fixture.root_link_disk in
  let q' := Fixture.plain_query ["repo"] ["sub"] [] [] in
  (fs_is_symlink E item = Done true
   /\ fs_resolve E item = Done ["etc"]
   /\ _process_item E (scan_directory_fuel 21 E q) item q (new_result ["repo"])
                    fresh_state 0 (ignore_patterns q) (local_path q)
                    (include_patterns q) = (new_result ["repo"], fresh_state, Ok tt)
   /\ exists r' o,
       _process_item E (scan_directory_fuel 21 E q) item q (new_result ["repo"])
                     fresh_state 0 (ignore_patterns q) (local_path q)
                     (include_patterns q) = (r', fresh_state, o)
       /\ same_entries (new_result ["repo"]) r')
  /\ (fs_is_symlink E' (scan_root q') = Done true
      /\ fs_resolve E' (scan_root q') = Done ["etc"]
      /\ In (IoListdir (scan_root q'))
            (io_trace (fst (_scan_directory E' (scan_root q') q' fresh_state 0)))
      /\ snd (_scan_directory E' (scan_root q') q' fresh_state 0)
         = Ok (Some (DirNode "sub" 4
                       [FileNode "passwd" 4 "root" ["repo"; "sub"; "passwd"]]
                       1 0 ["repo"; "sub"] false))).
Proof.
  intros E q item E' q'. split.
  - assert (Hlink : fs_is_symlink E item = Done true) by reflexivity.
    split; [exact Hlink|]. split; [reflexivity|]. split; [vm_compute; reflexivity|].
    destruct (proj1 (unsafe_symlink_not_followed E q) (scan_directory_fuel 21 E q)
                    item (new_result ["repo"]) fresh_state 0%nat Hlink)
      as (r' & o & Hitem & Hsame & _).
    + intros target base Ht Hb (rest & Hrest).
      vm_compute in Ht. vm_compute in Hb.
      injection Ht as <-. injection Hb as <-. discriminate.
    + exists r', o. split; assumption.
  - assert (Hres : fs_resolve E' (scan_root q') = Done ["etc"]) by reflexivity.
    split; [reflexivity|]. split; [exact Hres|].
    split; [exact (proj2 (unsafe_symlink_not_followed E' q') (scan_root q') ["etc"] Hres)|].
    vm_compute. reflexivity.
Defined.

(** C4, as the specification words it, fails for a scan rooted at a subpath:
    the link [/repo/sub/link] resolves to [/repo/other], outside the scan
    root [/repo/sub], and the walk lists that directory and opens the file
    in it. *)
Lemma symlink_outside_subpath_counterexample :
  let E := Fixture.env Fixture.sibling_link_disk in
  let q := Fixture.plain_query ["repo"] ["sub"] [] [] in
  let link := ["repo"; "sub"; "link"] in
  let walk := _scan_directory E (scan_root q) q fresh_state 0 in
  fs_is_symlink E link = Done true
  /\ fs_resolve E link = Done ["repo"; "other"]
  /\ fs_resolve E (scan_root q) = Done ["repo"; "sub"]
  /\ ~ path_within ["repo"; "sub"] ["repo"; "other"]
  /\ In (IoListdir ["repo"; "other"]) (io_trace (fst walk))
  /\ In (IoOpen ["repo"; "other"; "secret.txt"]) (io_trace (fst walk))
  /\ snd walk
     = Ok (Some (DirNode "sub" 6
                   [DirNode "link" 6
                      [FileNode "secret.txt" 6 "secret" ["repo"; "other"; "secret.txt"]]
                      1 0 ["repo"; "sub"; "link"] false]
                   1 1 ["repo"; "sub"] false)).
Proof.
  intros E q link walk.
  split; [reflexivity|]. split; [reflexivity|]. split; [reflexivity|].
  split; [intros (rest & Hrest); discriminate|].
  split; [vm_compute; tauto|]. split; [vm_compute; tauto|].
  vm_compute. reflexivity.
Qed.

(** C5 fails on the code: a link to a regular file inside the base directory
    is handled by [_process_symlink] and then, the test [item.is_file()]
    being true of it as well, by [_process_file]: it is counted twice and
    stands twice among the children of its directory. *)
Theorem symlink_to_file_counted_twice :
  let E := Fixture.env Fixture.file_link_disk in
  let q := Fixture.plain_query ["repo"] [] [] [] in
  let link := FileNode "link" 5 "hello" ["repo"; "link"] in
  let s := _process_item E (scan_directory_fuel 21 E q) ["repo"; "link"] q
                         (new_result ["repo"]) fresh_state 0 (ignore_patterns q)
                         (local_path q) (include_patterns q) in
  _is_safe_symlink E ["repo"; "link"] (local_path q) = Ok true
  /\ r_children (fst (fst s)) = [link; link]
  /\ r_file_count (fst (fst s)) = 2
  /\ total_files (snd (fst s)) = 2
  /\ total_size (snd (fst s)) = 10
  /\ snd (_scan_directory E ["repo"] q fresh_state 0)
     = Ok (Some (DirNode "repo" 15
                   [FileNode "data.txt" 5 "hello" ["repo"; "data.txt"]; link; link]
                   3 0 ["repo"] false)).
Proof. vm_compute. repeat split. Qed.

(** ** Include patterns *)

(** C7: include patterns are applied to files only.  While they are active,
    (1) a directory is entered whether or not its own path matches a
    pattern: it is listed and joins [seen_paths]; (2) what an item adds to
    the children of its directory is file nodes and directory nodes whose
    [file_count] is positive and counts the file nodes of their subtree;
    (3) a file that matches no pattern adds no node and sets
    [ignore_content] of its directory. *)
Theorem include_patterns_files_only (E : environment) (q : query) (item : path)
    (r : dir_result) (st : scan_state) (depth fuel : nat) :
  patterns_truthy (include_patterns q) = true ->
  _should_exclude E item (local_path q) (ignore_patterns q) = false ->
  let s := _process_item E (scan_directory_fuel (S fuel) E q) item q r st depth
                         (ignore_patterns q) (local_path q) (include_patterns q) in
  (forall real_path,
      fs_is_file E item = Done false -> fs_is_symlink E item = Done false ->
      fs_is_dir E item = Done true ->
      (S depth <= MAX_DIRECTORY_DEPTH)%nat ->
      total_files st < MAX_FILES -> total_size st < MAX_TOTAL_SIZE_BYTES ->
      fs_resolve E item = Done real_path -> real_path ∉ seen_paths st ->
      In (IoListdir item) (io_trace (snd (fst s)))
      /\ real_path ∈ seen_paths (snd (fst s)))
  /\ (exists new, r_children (fst (fst s)) = r_children r ++ new
                  /\ Forall (fun c => is_dir_node c = true ->
                                      0 < node_file_count c
                                      /\ node_file_count c = n_files c) new)
  /\ (fs_is_file E item = Done true ->
      _should_include E item (local_path q) (include_patterns q) = false ->
      s = (set_ignore_content r, st, Ok tt)).
Proof.
  intros Hinc Hexcl s.
  assert (Hself : forall d, scanner_ok (scan_directory_fuel (S fuel) E q) d).
  { intros d p' st'. apply scan_directory_fuel_inv. }
  split; [|split].
  - intros real_path Hfile Hlink Hdir Hdepth Hfiles Hsize Hres Hseen.
    subst s. unfold _process_item. rewrite Hexcl, Hfile, Hlink, Hdir. cbn [andb].
    pose proof (scan_directory_body_enters E q (scan_directory_fuel fuel E q) item
                  st (S depth) real_path) as Henter.
    change (scan_directory_fuel (S fuel) E q item st (S depth))
      with (scan_directory_body E q (scan_directory_fuel fuel E q) item st (S depth)).
    destruct (scan_directory_body E q (scan_directory_fuel fuel E q) item st (S depth))
      as [st' [[d|]|e]]; simpl in Henter.
    + destruct (keeps_subdir (Some d) (include_patterns q)); simpl; apply Henter;
        try assumption; intros p' st''; apply scan_directory_fuel_inv.
    + simpl. apply Henter; try assumption.
      intros p' st''; apply scan_directory_fuel_inv.
    + assert (Hst : snd (fst (catch_item (r, st', @Raise unit e))) = st')
        by (destruct e; reflexivity).
      rewrite Hst. apply Henter; try assumption.
      intros p' st''; apply scan_directory_fuel_inv.
  - pose proof (process_item_inv E (scan_directory_fuel (S fuel) E q) item q r st
                  depth (ignore_patterns q) (local_path q) (include_patterns q)
                  (Hself depth)) as Hinv.
    fold s in Hinv. destruct s as [[r' st'] o].
    destruct Hinv as (_ & _ & _ & _ & (new & Hnew & Hatt) & _).
    exists new. split; [exact Hnew|].
    eapply Forall_impl; [|exact Hatt].
    intros c Hc Hdir. apply Hc; assumption.
  - intros Hfile Hmatch. subst s. unfold _process_item.
    rewrite Hexcl, Hfile, Hmatch. unfold query_include_patterns. rewrite Hinc.
    reflexivity.
Qed.

Lemma include_patterns_files_only_witness :
  let E := Fixture.env Fixture.python_disk in
  let q := Fixture.plain_query ["repo"] [] ["*.py"] [] in
  let at_item item :=
    _process_item E (scan_directory_fuel 21 E q) item q (new_result ["repo"])
                  fresh_state 0 (ignore_patterns q) (local_path q)
                  (include_patterns q) in
  (_should_include E ["repo"; "docs"] (local_path q) (include_patterns q) = false
   /\ In (IoListdir ["repo"; "docs"]) (io_trace (snd (fst (at_item ["repo"; "docs"]))))
   /\ r_children (fst (fst (at_item ["repo"; "docs"]))) = [])
  /\ at_item ["repo"; "a.txt"] = (set_ignore_content (new_result ["repo"]), fresh_state, Ok tt)
  /\ snd (_scan_directory E ["repo"] q fresh_state 0)
     = Ok (Some (DirNode "repo" 18
                   [FileNode "a.py" 10 "import lib" ["repo"; "a.py"];
                    DirNode "lib" 8
                      [FileNode "b.py" 8 "print(1)" ["repo"; "lib"; "b.py"]]
                      1 0 ["repo"; "lib"] false]
                   2 1 ["repo"] true)).
Proof.
  intros E q at_item.
  assert (Hinc : patterns_truthy (include_patterns q) = true) by reflexivity.
  assert (Hdocs : _should_exclude E ["repo"; "docs"] (local_path q) (ignore_patterns q)
                  = false) by reflexivity.
  assert (Htxt : _should_exclude E ["repo"; "a.txt"] (local_path q) (ignore_patterns q)
                 = false) by reflexivity.
  split; [split; [reflexivity | split]|split].
  - refine (proj1 (proj1 (include_patterns_files_only E q ["repo"; "docs"]
                            (new_result ["repo"]) fresh_state 0 20 Hinc Hdocs)
                         ["repo"; "docs"] _ _ _ _ _ _ _ _));
      try reflexivity.
    + unfold MAX_DIRECTORY_DEPTH. lia.
    + vm_compute. set_solver.
  - vm_compute. reflexivity.
  - refine (proj2 (proj2 (include_patterns_files_only E q ["repo"; "a.txt"]
                            (new_result ["repo"]) fresh_state 0 20 Hinc Htxt)) _ _);
      vm_compute; reflexivity.
  - vm_compute. reflexivity.
Defined.

(** ** The directory mode *)













(** * Further properties *)

(** ** Paths and patterns *)

Lemma relative_to_spec (p base r : path) :
  relative_to p base = Some r <-> p = base ++ r.
Proof.
  revert p. induction base as [|b base IH]; intros p.
  - destruct p; simpl; (split; [intros [= ->]; reflexivity | intros ->; reflexivity]).
  - destruct p as [|c p]; simpl; [split; discriminate|].
    destruct (String.eqb_spec b c) as [->|Hne].
    + rewrite IH. split; [intros ->; reflexivity | intros [= ->]; reflexivity].
    + split; [discriminate | intros [= ? _]; congruence].
Qed.

Lemma relative_to_none (p base : path) :
  relative_to p base = None <-> ~ path_within base p.
Proof.
  unfold path_within. split.
  - intros Hnone (rest & Hrest). apply relative_to_spec in Hrest. congruence.
  - intros Hout. destruct (relative_to p base) as [r|] eqn:Hrel; [|reflexivity].
    apply relative_to_spec in Hrel. destruct Hout. eauto.
Qed.

(** [relative_to] undoes joining a path below a base, and it succeeds on
    nothing else. *)
Theorem relative_to_round_trip (base : path) :
  (forall r, relative_to (base ++ r) base = Some r)
  /\ (forall p r, relative_to p base = Some r -> p = base ++ r)
  /\ (forall p, relative_to p base = None <-> ~ path_within base p).
Proof.
  split; [|split].
  - intros r. apply relative_to_spec. reflexivity.
  - intros p r. apply relative_to_spec.
  - intros p. apply relative_to_none.
Qed.

Lemma relative_to_round_trip_witness :
  relative_to ["repo"; "lib"; "b.py"] ["repo"] = Some ["lib"; "b.py"]
  /\ ["repo"; "lib"; "b.py"] = ["repo"] ++ ["lib"; "b.py"].
Proof.
  assert (H : relative_to ["repo"; "lib"; "b.py"] ["repo"] = Some ["lib"; "b.py"])
    by reflexivity.
  split; [exact H|].
  exact (proj1 (proj2 (relative_to_round_trip ["repo"])) _ _ H).
Defined.

(** [_should_exclude] answers yes exactly for a path that is not below the
    base directory, and for one whose path relative to the base matches an
    ignore pattern other than the empty string. *)
Theorem should_exclude_iff (E : environment) (p base_path : path)
    (patterns : list string) :
  _should_exclude E p base_path patterns = true
  <-> ~ path_within base_path p
      \/ exists r pattern,
           p = base_path ++ r /\ In pattern patterns /\ pattern <> ""
           /\ fnmatch E (rel_str r) pattern = true.
Proof.
  unfold _should_exclude.
  destruct (relative_to p base_path) as [r|] eqn:Hrel.
  - apply relative_to_spec in Hrel. rewrite existsb_exists. split.
    + intros (pattern & Hin & Hmatch). right.
      apply andb_true_iff in Hmatch. destruct Hmatch as [Htruthy Hmatch].
      exists r, pattern. repeat split; try assumption.
      intros ->. discriminate.
    + intros [Hout|(r' & pattern & Hp & Hin & Hne & Hmatch)].
      * destruct Hout. exists r. exact Hrel.
      * assert (r' = r) by (apply (app_inv_head base_path); congruence). subst r'.
        exists pattern. split; [exact Hin|].
        apply andb_true_iff. split; [|exact Hmatch].
        unfold str_truthy. apply negb_true_iff, String.eqb_neq. exact Hne.
  - apply relative_to_none in Hrel. split; [intros _; left; exact Hrel | reflexivity].
Qed.

(** [_should_include] answers yes exactly for a path below the base
    directory whose path relative to the base matches one of the patterns:
    never for a path outside the base, and never with an empty list. *)
Theorem should_include_iff (E : environment) (p base_path : path)
    (patterns : list string) :
  _should_include E p base_path patterns = true
  <-> exists r pattern,
        p = base_path ++ r /\ In pattern patterns
        /\ fnmatch E (rel_str r) pattern = true.
Proof.
  unfold _should_include.
  destruct (relative_to p base_path) as [r|] eqn:Hrel.
  - apply relative_to_spec in Hrel. rewrite existsb_exists. split.
    + intros (pattern & Hin & Hmatch). exists r, pattern. tauto.
    + intros (r' & pattern & Hp & Hin & Hmatch).
      assert (r' = r) by (apply (app_inv_head base_path); congruence). subst r'.
      exists pattern. tauto.
  - apply relative_to_none in Hrel. split; [discriminate|].
    intros (r & pattern & Hp & _). destruct Hrel. exists r. exact Hp.
Qed.

(** The guard of links: a link is safe exactly when it and the base
    directory resolve and the target is the resolved base or lies below it
    (a link to the base directory itself is safe); the guard raises exactly
    when the first resolution that fails, that of the link or, after it,
    that of the base, fails with something else than an [OSError] or a
    [ValueError]: a link whose resolution fails is unsafe after an
    [OSError], and makes the guard raise the [RuntimeError] of a loop of
    links. *)
Theorem safe_symlink_iff_within (E : environment) (symlink_path base_path : path) :
  (_is_safe_symlink E symlink_path base_path = Ok true
   <-> exists target base,
       fs_resolve E symlink_path = Done target /\ fs_resolve E base_path = Done base
       /\ path_within base target)
  /\ (forall e,
         _is_safe_symlink E symlink_path base_path = Raise e
         <-> exists f,
             e = exn_of_os_error f /\ is_OSError_or_ValueError f = false
             /\ (fs_resolve E symlink_path = Failed f
                 \/ ((exists target, fs_resolve E symlink_path = Done target)
                     /\ fs_resolve E base_path = Failed f)))
  /\ (forall f,
         fs_resolve E symlink_path = Failed f ->
         _is_safe_symlink E symlink_path base_path
         = if is_OSError_or_ValueError f then Ok false
           else Raise (exn_of_os_error f))
  /\ (forall base, fs_resolve E base_path = Done base ->
                   fs_resolve E symlink_path = Done base ->
                   _is_safe_symlink E symlink_path base_path = Ok true).
Proof.
  split; [apply is_safe_symlink_spec|]. split; [|split].
  - intros e. unfold _is_safe_symlink, unsafe_if_caught.
    destruct (fs_resolve E symlink_path) as [target|f].
    + destruct (fs_resolve E base_path) as [base|f].
      * split; [discriminate|].
        intros (f & _ & _ & [H|[_ H]]); discriminate.
      * destruct (is_OSError_or_ValueError f) eqn:Hf.
        -- split; [discriminate|].
           intros (g & _ & Hg & [H|[_ H]]); [discriminate|].
           injection H as <-. congruence.
        -- split.
           ++ intros [= <-]. exists f. split; [reflexivity|]. split; [exact Hf|].
              right. eauto.
           ++ intros (g & -> & _ & [H|[_ H]]); [discriminate|].
              injection H as <-. reflexivity.
    + destruct (is_OSError_or_ValueError f) eqn:Hf.
      * split; [discriminate|].
        intros (g & _ & Hg & [H|[[t H] _]]); [|discriminate].
        injection H as <-. congruence.
      * split.
        -- intros [= <-]. exists f. tauto.
        -- intros (g & -> & _ & [H|[[t H] _]]); [|discriminate].
           injection H as <-. reflexivity.
  - intros f Hfail. unfold _is_safe_symlink, unsafe_if_caught. rewrite Hfail.
    reflexivity.
  - intros base Hbase Hlink. apply is_safe_symlink_spec.
    exists base, base. repeat split; try assumption.
    exists []. symmetry. apply app_nil_r.
Qed.

Lemma safe_symlink_iff_within_witness :
  let E := Fixture.env Fixture.cycle_disk in
  let E' := Fixture.env Fixture.loop_disk in
  (fs_resolve E ["repo"] = Done ["repo"]
   /\ fs_resolve E ["repo"; "loop"] = Done ["repo"]
   /\ _is_safe_symlink E ["repo"; "loop"] ["repo"] = Ok true)
  /\ (fs_resolve E' ["repo"; "self"] = Failed OsRuntimeError
      /\ _is_safe_symlink E' ["repo"; "self"] ["repo"] = Raise RuntimeError).
Proof.
  intros E E'. split.
  - assert (Hbase : fs_resolve E ["repo"] = Done ["repo"]) by reflexivity.
    assert (Hlink : fs_resolve E ["repo"; "loop"] = Done ["repo"]) by reflexivity.
    split; [exact Hbase|]. split; [exact Hlink|].
    exact (proj2 (proj2 (proj2 (safe_symlink_iff_within E ["repo"; "loop"] ["repo"])))
                 ["repo"] Hbase Hlink).
  - assert (Hfail : fs_resolve E' ["repo"; "self"] = Failed OsRuntimeError)
      by reflexivity.
    split; [exact Hfail|].
    exact (proj1 (proj2 (proj2 (safe_symlink_iff_within E' ["repo"; "self"] ["repo"])))
                 OsRuntimeError Hfail).
Defined.

(** ** The classifier and the reader *)

(** Only the first 1024 bytes of a file are examined: a file whose first
    1024 bytes are on the allow-list is text whatever follows them, and an
    empty file is text. *)
Theorem is_text_file_looks_at_1024_bytes (E : environment) (file_path : path)
    (head tail : list byte) :
  fs_open_rb E file_path = Some (head ++ tail) ->
  (length head = 1024)%nat \/ tail = [] ->
  Forall (fun b => allowed_byte b = true) head ->
  _is_text_file E file_path = true.
Proof.
  intros Hopen Hlen Hhead. unfold _is_text_file. rewrite Hopen.
  apply negb_true_iff, translate_delete_empty.
  destruct Hlen as [Hlen| ->].
  - rewrite firstn_app, Hlen, Nat.sub_diag. simpl. rewrite app_nil_r.
    rewrite <- Hlen, firstn_all. exact Hhead.
  - rewrite app_nil_r. rewrite <- (firstn_skipn 1024 head) in Hhead.
    apply Forall_app in Hhead. apply Hhead.
Qed.

Lemma is_text_file_looks_at_1024_bytes_witness :
  let E := Fixture.env Fixture.empty_file_disk in
  fs_open_rb E ["repo"; "empty.txt"] = Some ([] ++ [])
  /\ _is_text_file E ["repo"; "empty.txt"] = true.
Proof.
  intros E.
  assert (H : fs_open_rb E ["repo"; "empty.txt"] = Some ([] ++ [])) by reflexivity.
  split; [exact H|].
  exact (is_text_file_looks_at_1024_bytes E ["repo"; "empty.txt"] [] [] H
           (or_intror eq_refl) (Forall_nil _)).
Defined.

Lemma list_ascii_of_string_app (a b : string) :
  list_ascii_of_string (a +:+ b) = list_ascii_of_string a ++ list_ascii_of_string b.
Proof.
  induction a as [|c a IH]; [reflexivity|].
  change (String c a +:+ b) with (String c (a +:+ b)). simpl. f_equal. exact IH.
Qed.

Lemma path_name_child (dir : path) (name : string) :
  path_name (path_child dir name) = name.
Proof. unfold path_name, path_child. apply last_last. Qed.

Lemma path_suffix_ipynb (dir : path) (stem : string) :
  stem <> "" -> path_suffix (path_child dir (stem +:+ ".ipynb")) = ".ipynb".
Proof.
  intros Hstem. unfold path_suffix. rewrite path_name_child.
  rewrite list_ascii_of_string_app, rev_app_distr.
  destruct (rev (list_ascii_of_string stem)) as [|c rest] eqn:Hrev.
  - destruct stem; [congruence|]. simpl in Hrev.
    apply app_eq_nil in Hrev. destruct Hrev as [_ Hrev]. discriminate.
  - reflexivity.
Qed.

(** [_read_file_content] hands a file whose name ends in [.ipynb] (after a
    stem that is not empty) to [process_notebook], reads a file named
    exactly [.ipynb] as plain text, and in both cases turns an [OSError]
    into the text ["Error reading file: ..."] of its message. *)
Theorem read_file_content_notebooks (E : environment) (dir : path) (stem : string) :
  (stem <> "" ->
   _read_file_content E (path_child dir (stem +:+ ".ipynb"))
   = match process_notebook E (path_child dir (stem +:+ ".ipynb")) with
     | inl text => text
     | inr e => "Error reading file: " +:+ e
     end)
  /\ _read_file_content E (path_child dir ".ipynb")
     = match fs_open_text E (path_child dir ".ipynb") with
       | inl text => text
       | inr e => "Error reading file: " +:+ e
       end.
Proof.
  split.
  - intros Hstem. unfold _read_file_content.
    rewrite (path_suffix_ipynb dir stem Hstem). reflexivity.
  - unfold _read_file_content, path_suffix. rewrite path_name_child. reflexivity.
Qed.

Lemma read_file_content_notebooks_witness :
  let E := Fixture.env Fixture.sample in
  "nb" <> ""
  /\ _read_file_content E (path_child ["repo"] ("nb" +:+ ".ipynb"))
     = "Error reading file: not a notebook".
Proof.
  intros E.
  assert (H : "nb" <> "") by discriminate.
  split; [exact H|].
  exact (proj1 (read_file_content_notebooks E ["repo"] "nb") H).
Defined.

(** ** Sorting the children twice *)

Lemma filter_all {A : Type} (f : A -> bool) (l : list A) :
  Forall (fun x => f x = true) l -> filter f l = l.
Proof.
  induction 1 as [|x l Hx Hl IH]; simpl; [reflexivity|]. rewrite Hx, IH. reflexivity.
Qed.

Lemma filter_none {A : Type} (f : A -> bool) (l : list A) :
  Forall (fun x => f x = false) l -> filter f l = [].
Proof.
  induction 1 as [|x l Hx Hl IH]; simpl; [reflexivity|]. rewrite Hx. exact IH.
Qed.

Lemma filter_keep_drop {A : Type} (f : A -> bool) (l1 l2 : list A) :
  Forall (fun x => f x = true) l1 -> Forall (fun x => f x = false) l2 ->
  filter f (l1 ++ l2) = l1.
Proof.
  intros H1 H2. rewrite filter_app, (filter_all f l1 H1), (filter_none f l2 H2).
  apply app_nil_r.
Qed.

Lemma filter_drop_keep {A : Type} (f : A -> bool) (l1 l2 : list A) :
  Forall (fun x => f x = false) l1 -> Forall (fun x => f x = true) l2 ->
  filter f (l1 ++ l2) = l2.
Proof.
  intros H1 H2. rewrite filter_app, (filter_none f l1 H1), (filter_all f l2 H2).
  reflexivity.
Qed.

(** A list in key order is left as it is. *)
Lemma sort_by_name_sorted_id (l : list node) :
  StronglySorted name_le l -> sort_by_name l = l.
Proof.
  induction 1 as [|x l Hs IH Hx]; [reflexivity|].
  simpl. fold (sort_by_name l). rewrite IH.
  destruct Hx as [|y l Hxy Hl]; [reflexivity|].
  simpl. unfold name_le in Hxy. rewrite Hxy. reflexivity.
Qed.

(** The five groups of a list in display order. *)
Lemma sort_children_of_groups (readme files hidden dirs hidden_dirs : list node) :
  Forall (fun n => is_file_node n = true /\ is_readme n = true) readme ->
  Forall (fun n => is_file_node n = true /\ is_readme n = false
                   /\ is_hidden n = false) files ->
  Forall (fun n => is_file_node n = true /\ is_readme n = false
                   /\ is_hidden n = true) hidden ->
  Forall (fun n => is_file_node n = false /\ is_hidden n = false) dirs ->
  Forall (fun n => is_file_node n = false /\ is_hidden n = true) hidden_dirs ->
  StronglySorted name_le files -> StronglySorted name_le hidden ->
  StronglySorted name_le dirs -> StronglySorted name_le hidden_dirs ->
  _sort_children (readme ++ files ++ hidden ++ dirs ++ hidden_dirs)
  = readme ++ files ++ hidden ++ dirs ++ hidden_dirs.
Proof.
  intros HR HA HB HC HD SA SB SC SD.
  assert (Hgroup : forall (P : node -> Prop) (f : node -> bool) (b : bool) l,
             Forall P l -> (forall n, P n -> f n = b) -> Forall (fun n => f n = b) l).
  { intros P f b l Hl Himp. eapply Forall_impl; [|exact Hl]. exact Himp. }
  unfold _sort_children.
  assert (Hfiles : filter is_file_node (readme ++ files ++ hidden ++ dirs ++ hidden_dirs)
                   = readme ++ files ++ hidden).
  { replace (readme ++ files ++ hidden ++ dirs ++ hidden_dirs)
      with ((readme ++ files ++ hidden) ++ (dirs ++ hidden_dirs))
      by (rewrite <- !app_assoc; reflexivity).
    apply filter_keep_drop; repeat (apply Forall_app; split);
      (eapply Hgroup; [eassumption|]); intros n Hn; cbv beta in Hn |- *; tauto. }
  assert (Hdirs : filter is_dir_node (readme ++ files ++ hidden ++ dirs ++ hidden_dirs)
                  = dirs ++ hidden_dirs).
  { replace (readme ++ files ++ hidden ++ dirs ++ hidden_dirs)
      with ((readme ++ files ++ hidden) ++ (dirs ++ hidden_dirs))
      by (rewrite <- !app_assoc; reflexivity).
    apply filter_drop_keep; repeat (apply Forall_app; split);
      (eapply Hgroup; [eassumption|]); intros n Hn; cbv beta in Hn |- *; unfold is_dir_node;
      destruct Hn as [-> _]; reflexivity. }
  rewrite Hfiles, Hdirs.
  assert (Hreadme : filter is_readme (readme ++ files ++ hidden) = readme).
  { apply filter_keep_drop; repeat (apply Forall_app; split);
      (eapply Hgroup; [eassumption|]); intros n Hn; cbv beta in Hn |- *; tauto. }
  assert (Hothers : filter (fun f => negb (is_readme f)) (readme ++ files ++ hidden)
                    = files ++ hidden).
  { apply filter_drop_keep; repeat (apply Forall_app; split);
      (eapply Hgroup; [eassumption|]); intros n Hn; cbv beta in Hn |- *; simpl;
      destruct Hn as (_ & Hn); try destruct Hn as (Hn & _); rewrite Hn; reflexivity. }
  rewrite Hreadme, Hothers.
  assert (H1 : filter (fun f => negb (is_hidden f)) (files ++ hidden) = files).
  { apply filter_keep_drop; (eapply Hgroup; [eassumption|]); intros n Hn; cbv beta in Hn |- *; simpl;
      destruct Hn as (_ & _ & ->); reflexivity. }
  assert (H2 : filter is_hidden (files ++ hidden) = hidden).
  { apply filter_drop_keep; (eapply Hgroup; [eassumption|]); intros n Hn; cbv beta in Hn |- *; tauto. }
  assert (H3 : filter (fun d => negb (is_hidden d)) (dirs ++ hidden_dirs) = dirs).
  { apply filter_keep_drop; (eapply Hgroup; [eassumption|]); intros n Hn; cbv beta in Hn |- *; simpl;
      destruct Hn as (_ & ->); reflexivity. }
  assert (H4 : filter is_hidden (dirs ++ hidden_dirs) = hidden_dirs).
  { apply filter_drop_keep; (eapply Hgroup; [eassumption|]); intros n Hn; cbv beta in Hn |- *; tauto. }
  rewrite H1, H2, H3, H4.
  rewrite !sort_by_name_sorted_id by assumption. reflexivity.
Qed.

(** Sorting the children a second time changes nothing: the order
    [_sort_children] gives is the one it looks for. *)
Theorem sort_children_idempotent (children : list node) :
  _sort_children (_sort_children children) = _sort_children children.
Proof.
  unfold _sort_children at 2 3.
  set (files := filter is_file_node children).
  set (dirs := filter is_dir_node children).
  set (others := filter (fun f => negb (is_readme f)) files).
  apply sort_children_of_groups; try apply sort_by_name_sorted.
  - subst files. members. tauto.
  - subst others files. members. tauto.
  - subst others files. members. tauto.
  - subst dirs. members.
    match goal with H : is_dir_node _ = true |- _ =>
      unfold is_dir_node in H; apply negb_true_iff in H end. tauto.
  - subst dirs. members.
    match goal with H : is_dir_node _ = true |- _ =>
      unfold is_dir_node in H; apply negb_true_iff in H end. tauto.
Qed.

(** When a README.md file, in any letter case, is among the children, the
    first child in display order is such a file. *)
Theorem sort_children_readme_first (children : list node) (c : node) :
  In c children -> is_file_node c = true -> is_readme c = true ->
  exists first rest,
    _sort_children children = first :: rest
    /\ is_file_node first = true /\ is_readme first = true.
Proof.
  intros Hin Hfile Hreadme. unfold _sort_children.
  set (readme := filter is_readme (filter is_file_node children)).
  assert (Hc : In c readme).
  { subst readme. apply filter_In. split; [|exact Hreadme].
    apply filter_In. split; assumption. }
  destruct readme as [|first rest] eqn:Hr; [destruct Hc|].
  exists first. eexists. split; [reflexivity|].
  assert (Hfirst : In first (filter is_readme (filter is_file_node children))).
  { fold readme. rewrite Hr. left. reflexivity. }
  apply filter_In in Hfirst. destruct Hfirst as [Hfirst Hre].
  apply filter_In in Hfirst. tauto.
Qed.

Lemma sort_children_readme_first_witness :
  let readme := FileNode "ReadMe.md" 1 "x" ["repo"; "ReadMe.md"] in
  let children := [DirNode "a" 0 [] 0 0 ["repo"; "a"] false;
                   FileNode "a.txt" 1 "y" ["repo"; "a.txt"]; readme] in
  In readme children
  /\ exists first rest,
      _sort_children children = first :: rest
      /\ is_file_node first = true /\ is_readme first = true.
Proof.
  intros readme children.
  assert (Hin : In readme children) by (right; right; left; reflexivity).
  split; [exact Hin|].
  exact (sort_children_readme_first children readme Hin eq_refl eq_refl).
Defined.

(** ** The walk *)

(** The counters never decrease, [seen_paths] only grows, and the reads
    made so far stay at the front of the trace. *)
Theorem scan_state_only_grows (E : environment) (q : query) (p : path)
    (st : scan_state) (depth : nat) :
  let st' := fst (_scan_directory E p q st depth) in
  total_files st <= total_files st' /\ total_size st <= total_size st'
  /\ seen_paths st ⊆ seen_paths st'
  /\ exists evs, io_trace st' = io_trace st ++ evs.
Proof.
  pose proof (scan_directory_inv E q p st depth) as Hinv.
  destruct (_scan_directory E p q st depth) as [st' o]. simpl.
  destruct Hinv as ((Hf & Hs & _ & Hseen & Htrace) & _). tauto.
Qed.

(** Unfolding [_scan_directory] once. *)
Lemma scan_directory_unfold (E : environment) (q : query) (p : path)
    (st : scan_state) (depth : nat) :
  _scan_directory E p q st depth
  = scan_directory_body E q (scan_directory_fuel (S MAX_DIRECTORY_DEPTH - depth) E q)
                        p st depth.
Proof. reflexivity. Qed.

(** A directory that cannot be listed gives a node without children: the
    [PermissionError] is caught, the directory is in [seen_paths], and the
    scan goes on with its siblings. *)
Theorem unreadable_directory_is_empty (E : environment) (q : query) (p : path)
    (st : scan_state) (depth : nat) (real_path : path) :
  (depth <= MAX_DIRECTORY_DEPTH)%nat ->
  total_files st < MAX_FILES -> total_size st < MAX_TOTAL_SIZE_BYTES ->
  fs_resolve E p = Done real_path -> real_path ∉ seen_paths st ->
  fs_iterdir E p = Failed OsPermissionError ->
  _scan_directory E p q st depth
  = (trace (IoListdir p) (add_seen real_path st),
     Ok (Some (DirNode (path_name p) 0 [] 0 0 p false))).
Proof.
  intros Hdepth Hfiles Hsize Hres Hseen Hlist.
  rewrite scan_directory_unfold. unfold scan_directory_body.
  apply Nat.ltb_ge in Hdepth. apply N.leb_gt in Hfiles. apply N.leb_gt in Hsize.
  rewrite Hdepth, Hfiles, Hsize, Hres, (bool_decide_eq_false_2 _ Hseen), Hlist.
  reflexivity.
Qed.

Lemma unreadable_directory_is_empty_witness :
  let E := Fixture.locked_env in
  let q := Fixture.plain_query ["repo"] [] [] [] in
  (["repo"] ∉ seen_paths fresh_state)
  /\ _scan_directory E ["repo"] q fresh_state 0
     = (trace (IoListdir ["repo"]) (add_seen ["repo"] fresh_state),
        Ok (Some (DirNode "repo" 0 [] 0 0 ["repo"] false))).
Proof.
  intros E q.
  assert (Hseen : ["repo"] ∉ seen_paths fresh_state) by (simpl; set_solver).
  split; [exact Hseen|].
  apply (unreadable_directory_is_empty E q ["repo"] fresh_state 0 ["repo"]);
    try reflexivity; try exact Hseen.
  unfold MAX_DIRECTORY_DEPTH. lia.
Defined.

(** A file that would take the byte total over its ceiling is passed over:
    nothing is counted or read, no exception leaves [_process_item], and
    the loop goes on with the entries that follow. *)
Theorem oversize_file_is_passed_over (E : environment) (self : scanner) (item : path)
    (rest : list path) (q : query) (r : dir_result) (st : scan_state) (depth : nat)
    (file_size : N) :
  fs_is_file E item = Done true -> fs_is_symlink E item = Done false ->
  fs_st_size E item = Done file_size ->
  MAX_TOTAL_SIZE_BYTES < total_size st + file_size ->
  exists r',
    _process_item E self item q r st depth (ignore_patterns q) (local_path q)
                  (include_patterns q) = (r', st, Ok tt)
    /\ same_entries r r'
    /\ process_items E self (item :: rest) q r st depth
       = process_items E self rest q r' st depth.
Proof.
  intros Hfile Hlink Hstat Hsize. apply N.ltb_lt in Hsize.
  assert (Hitem : exists r',
             _process_item E self item q r st depth (ignore_patterns q)
                           (local_path q) (include_patterns q) = (r', st, Ok tt)
             /\ same_entries r r').
  { unfold _process_item.
    destruct (_should_exclude E item (local_path q) (ignore_patterns q)).
    { exists r. split; [reflexivity | apply same_entries_refl]. }
    rewrite Hfile.
    destruct (true && patterns_truthy (query_include_patterns q)
              && negb (_should_include E item (local_path q) (include_patterns q))).
    { exists (set_ignore_content r). split; [reflexivity|].
      unfold same_entries. simpl. tauto. }
    rewrite Hlink. unfold _process_file. rewrite Hstat, Hsize.
    exists r. split; [reflexivity | apply same_entries_refl]. }
  destruct Hitem as (r' & Hitem & Hsame).
  exists r'. split; [exact Hitem|]. split; [exact Hsame|].
  simpl. rewrite Hitem. reflexivity.
Qed.

Lemma oversize_file_is_passed_over_witness :
  let E := Fixture.env Fixture.sample in
  let q := Fixture.plain_query ["repo"] [] [] [] in
  let st := count_file MAX_TOTAL_SIZE_BYTES fresh_state in
  fs_st_size E ["repo"; "a.txt"] = Done 5
  /\ MAX_TOTAL_SIZE_BYTES < total_size st + 5
  /\ exists r',
      _process_item E (scan_directory_fuel 21 E q) ["repo"; "a.txt"] q
                    (new_result ["repo"]) st 0 (ignore_patterns q) (local_path q)
                    (include_patterns q) = (r', st, Ok tt).
Proof.
  intros E q st.
  assert (Hstat : fs_st_size E ["repo"; "a.txt"] = Done 5) by reflexivity.
  assert (H : MAX_TOTAL_SIZE_BYTES < total_size st + 5) by reflexivity.
  split; [exact Hstat|]. split; [exact H|].
  destruct (oversize_file_is_passed_over E (scan_directory_fuel 21 E q)
              ["repo"; "a.txt"] [] q (new_result ["repo"]) st 0 5 eq_refl eq_refl
              Hstat H)
    as (r' & Hitem & _).
  exists r'. exact Hitem.
Defined.

(** A file met when the count is at its ceiling ends the listing of its
    directory: the counters are raised, nothing is read, and the entries
    that follow it are not looked at. *)
Theorem count_breach_ends_the_listing (E : environment) (self : scanner) (item : path)
    (rest : list path) (q : query) (r : dir_result) (st : scan_state) (depth : nat)
    (file_size : N) :
  fs_is_file E item = Done true -> fs_is_symlink E item = Done false ->
  fs_st_size E item = Done file_size ->
  _should_exclude E item (local_path q) (ignore_patterns q) = false ->
  (patterns_truthy (include_patterns q) = true ->
   _should_include E item (local_path q) (include_patterns q) = true) ->
  total_size st + file_size <= MAX_TOTAL_SIZE_BYTES ->
  MAX_FILES <= total_files st ->
  process_items E self (item :: rest) q r st depth
  = (r, count_file file_size st, Raise MaxFilesReachedError).
Proof.
  intros Hfile Hlink Hstat Hexcl Hincl Hsize Hfull.
  simpl. unfold _process_item. rewrite Hexcl, Hfile, Hlink.
  assert (Hskip : true && patterns_truthy (query_include_patterns q)
                  && negb (_should_include E item (local_path q) (include_patterns q))
                  = false).
  { unfold query_include_patterns.
    destruct (patterns_truthy (include_patterns q)); [|reflexivity].
    rewrite Hincl by reflexivity. reflexivity. }
  rewrite Hskip. unfold _process_file. rewrite Hstat.
  apply N.ltb_ge in Hsize. rewrite Hsize.
  assert (Hcount : (MAX_FILES <? total_files (count_file file_size st)) = true).
  { apply N.ltb_lt. simpl. lia. }
  rewrite Hcount. reflexivity.
Qed.

Lemma count_breach_ends_the_listing_witness :
  let E := Fixture.env Fixture.sample in
  let q := Fixture.plain_query ["repo"] [] [] [] in
  let st := {| seen_paths := ∅; total_files := MAX_FILES; total_size := 0;
               io_trace := [] |} in
  MAX_FILES <= total_files st
  /\ process_items E (scan_directory_fuel 21 E q)
                   [["repo"; "a.txt"]; ["repo"; "README.md"]] q
                   (new_result ["repo"]) st 0
     = (new_result ["repo"], count_file 5 st, Raise MaxFilesReachedError).
Proof.
  intros E q st.
  assert (H : MAX_FILES <= total_files st) by (simpl; lia).
  split; [exact H|].
  apply (count_breach_ends_the_listing E (scan_directory_fuel 21 E q)
           ["repo"; "a.txt"] [["repo"; "README.md"]] q (new_result ["repo"]) st 0 5);
    try reflexivity; try exact H.
  - intros Hinc. discriminate.
  - vm_compute. discriminate.
Defined.

(** What is known of a call that returns a node. *)
Lemma scan_directory_body_some (E : environment) (q : query) (self : scanner)
    (p : path) (st st' : scan_state) (depth : nat) (d : node) :
  scanner_ok self depth ->
  scan_directory_body E q self p st depth = (st', Ok (Some d)) ->
  node_name d = path_name p /\ node_path d = p /\ is_dir_node d = true
  /\ exists real_path,
      fs_resolve E p = Done real_path /\ (real_path ∉ seen_paths st)
      /\ (real_path ∈ seen_paths st') /\ In (IoListdir p) (io_trace st').
Proof.
  intros Hself Hbody.
  assert (Hguards : (depth <= MAX_DIRECTORY_DEPTH)%nat /\ total_files st < MAX_FILES
                    /\ total_size st < MAX_TOTAL_SIZE_BYTES
                    /\ exists real_path,
                        fs_resolve E p = Done real_path
                        /\ (real_path ∉ seen_paths st)).
  { revert Hbody. unfold scan_directory_body.
    destruct (Nat.ltb MAX_DIRECTORY_DEPTH depth) eqn:Hd; [discriminate|].
    destruct (MAX_FILES <=? total_files st) eqn:Hf; [discriminate|].
    destruct (MAX_TOTAL_SIZE_BYTES <=? total_size st) eqn:Hs; [discriminate|].
    destruct (fs_resolve E p) as [real_path|f]; [|discriminate].
    destruct (bool_decide (real_path ∈ seen_paths st)) eqn:Hseen; [discriminate|].
    intros _. apply Nat.ltb_ge in Hd. apply N.leb_gt in Hf. apply N.leb_gt in Hs.
    apply bool_decide_eq_false_1 in Hseen. eauto 8. }
  destruct Hguards as (Hdepth & Hfiles & Hsize & real_path & Hres & Hseen).
  pose proof (scan_directory_body_enters E q self p st depth real_path Hself Hdepth
                Hfiles Hsize Hres Hseen) as Henter.
  rewrite Hbody in Henter. simpl in Henter.
  assert (Hnode : node_name d = path_name p /\ node_path d = p /\ is_dir_node d = true).
  { revert Hbody. unfold scan_directory_body.
    apply Nat.ltb_ge in Hdepth. apply N.leb_gt in Hfiles. apply N.leb_gt in Hsize.
    rewrite Hdepth, Hfiles, Hsize, Hres, (bool_decide_eq_false_2 _ Hseen).
    set (st0 := trace (IoListdir p) (add_seen real_path st)).
    destruct (fs_iterdir E p) as [names|f].
    - pose proof (process_items_inv E self q depth (map (path_child p) names) Hself
                    (new_result p) st0) as Hinv.
      destruct (process_items E self (map (path_child p) names) q (new_result p)
                  st0 depth) as [[r' st1] o].
      destruct Hinv as (_ & _ & _ & (Hname & Hpath) & _).
      destruct o as [[]|[]]; try discriminate;
        intros [= _ <-]; simpl; rewrite Hname, Hpath; simpl; tauto.
    - destruct f; try discriminate. intros [= _ <-]. simpl. tauto. }
  destruct Hnode as (Hname & Hpath & Hdir).
  split; [exact Hname|]. split; [exact Hpath|]. split; [exact Hdir|].
  exists real_path. tauto.
Qed.

(** The node a scan returns is a directory node that carries the name and
    the path it was asked to scan; its directory was listed, and its
    resolved path, new to [seen_paths], is in it afterwards. *)
Theorem scanned_node_identity (E : environment) (q : query) (p : path)
    (st st' : scan_state) (depth : nat) (d : node) :
  _scan_directory E p q st depth = (st', Ok (Some d)) ->
  node_name d = path_name p /\ node_path d = p /\ is_dir_node d = true
  /\ exists real_path,
      fs_resolve E p = Done real_path /\ (real_path ∉ seen_paths st)
      /\ (real_path ∈ seen_paths st') /\ In (IoListdir p) (io_trace st').
Proof.
  rewrite scan_directory_unfold. apply scan_directory_body_some.
  intros p' st''. apply scan_directory_fuel_inv.
Qed.

Lemma scanned_node_identity_witness :
  let E := Fixture.env Fixture.empty_dir_disk in
  let q := Fixture.plain_query ["repo"] [] [] [] in
  exists st' d,
    _scan_directory E ["repo"] q fresh_state 0 = (st', Ok (Some d))
    /\ node_name d = "repo" /\ node_path d = ["repo"].
Proof.
  intros E q.
  destruct (_scan_directory E ["repo"] q fresh_state 0) as [st' [[d|]|e]] eqn:H;
    try (vm_compute in H; discriminate).
  exists st', d. split; [reflexivity|].
  destruct (scanned_node_identity E q ["repo"] fresh_state st' 0 d H)
    as (Hname & Hpath & _).
  split; assumption.
Defined.

(** A link to a directory gives at most one child, and that child carries
    the name and the path of the link, not those of its target: once the
    target has been scanned through the link, the second look at the
    link finds its resolved path in [seen_paths]. *)
Theorem directory_link_attached_once (E : environment) (q : query) (fuel : nat)
    (link : path) (r : dir_result) (st : scan_state) (depth : nat)
    (real_path : path) :
  fs_is_symlink E link = Done true -> fs_is_file E link = Done false ->
  fs_resolve E link = Done real_path -> fs_resolve E real_path = Done real_path ->
  fs_is_file E real_path = Done false ->
  let s := _process_item E (scan_directory_fuel (S fuel) E q) link q r st depth
                         (ignore_patterns q) (local_path q) (include_patterns q) in
  exists new,
    r_children (fst (fst s)) = r_children r ++ new /\ (length new <= 1)%nat
    /\ Forall (fun c => node_name c = path_name link /\ node_path c = link
                        /\ is_dir_node c = true) new.
Proof.
  intros Hlink Hfile Hres Hidem Htarget s. subst s.
  assert (Hself : forall d, scanner_ok (scan_directory_fuel fuel E q) d).
  { intros d p' st'. apply scan_directory_fuel_inv. }
  assert (Hnone : forall r0 : dir_result,
             exists new, r_children r0 = r_children r0 ++ new /\ (length new <= 1)%nat
                         /\ Forall (fun c => node_name c = path_name link
                                             /\ node_path c = link
                                             /\ is_dir_node c = true) new).
  { intros r0. exists []. rewrite app_nil_r. repeat split; [simpl; lia | constructor]. }
  (* the look at the item as a directory, from a result [r1] and a state [st1] *)
  assert (Hsecond : forall (r1 : dir_result) (st1 : scan_state) (new1 : list node),
             r_children r1 = r_children r ++ new1 ->
             (new1 = [] \/ real_path ∈ seen_paths st1) ->
             (length new1 <= 1)%nat ->
             Forall (fun c => node_name c = path_name link /\ node_path c = link
                              /\ is_dir_node c = true) new1 ->
             exists new,
               r_children
                 (fst (fst (catch_item
                    (match fs_is_dir E link with
                     | Failed f => (r1, st1, Raise (exn_of_os_error f))
                     | Done true =>
                       match scan_directory_fuel (S fuel) E q link st1 (S depth) with
                       | (st2, Raise e) => (r1, st2, Raise e)
                       | (st2, Ok subdir) =>
                           match subdir with
                           | Some d =>
                               if keeps_subdir subdir (include_patterns q)
                               then (add_subdir d r1, st2, Ok tt)
                               else (r1, st2, Ok tt)
                           | None => (r1, st2, Ok tt)
                           end
                       end
                     | Done false => (r1, st1, Ok tt)
                     end))))
               = r_children r ++ new
               /\ (length new <= 1)%nat
               /\ Forall (fun c => node_name c = path_name link /\ node_path c = link
                                   /\ is_dir_node c = true) new).
  { intros r1 st1 new1 Hr1 Hcase Hlen Hall.
    assert (Hsame : exists new,
               r_children r1 = r_children r ++ new /\ (length new <= 1)%nat
               /\ Forall (fun c => node_name c = path_name link /\ node_path c = link
                                   /\ is_dir_node c = true) new)
      by (exists new1; tauto).
    destruct (fs_is_dir E link) as [[|]|f]; [|exact Hsame|].
    2:{ rewrite catch_item_children. exact Hsame. }
    change (scan_directory_fuel (S fuel) E q link st1 (S depth))
      with (scan_directory_body E q (scan_directory_fuel fuel E q) link st1 (S depth)).
    destruct Hcase as [-> | Hseen].
    - destruct (scan_directory_body E q (scan_directory_fuel fuel E q) link st1
                                    (S depth)) as [st2 [[d|]|e]] eqn:Hscan.
      + destruct (keeps_subdir (Some d) (include_patterns q)); [|exact Hsame].
        apply scan_directory_body_some in Hscan; [|apply Hself].
        destruct Hscan as (Hname & Hpath & Hdir & _).
        exists [d]. simpl. rewrite Hr1, app_nil_r.
        repeat split; [lia | constructor; [tauto | constructor]].
      + exact Hsame.
      + rewrite catch_item_children. exact Hsame.
    - rewrite (scan_directory_seen E q _ link st1 (S depth) real_path Hres Hseen).
      exact Hsame. }
  unfold _process_item.
  destruct (_should_exclude E link (local_path q) (ignore_patterns q));
    [apply Hnone|].
  rewrite Hfile, Hlink. cbn [andb].
  unfold _process_symlink.
  destruct (_is_safe_symlink E link (local_path q)) as [[|]|e];
    [|apply Hnone|rewrite catch_item_children; apply Hnone]. cbn [negb].
  rewrite Hres.
  destruct (bool_decide (real_path ∈ seen_paths st)); [apply Hnone|].
  rewrite Htarget.
  destruct (fs_is_dir E real_path) as [[|]|f].
  2:{ apply (Hsecond r st []); [symmetry; apply app_nil_r | tauto | simpl; lia
                               | constructor]. }
  2:{ rewrite catch_item_children. apply Hnone. }
  change (scan_directory_fuel (S fuel) E q real_path st (S depth))
    with (scan_directory_body E q (scan_directory_fuel fuel E q) real_path st (S depth)).
  destruct (scan_directory_body E q (scan_directory_fuel fuel E q) real_path st
                                (S depth)) as [st1 [[d|]|e]] eqn:Hscan.
  - apply scan_directory_body_some in Hscan; [|apply Hself].
    destruct Hscan as (_ & _ & Hdir & rp & Hrp & _ & Hin & _).
    assert (rp = real_path) by congruence. subst rp.
    destruct (keeps_subdir (Some d) (include_patterns q)).
    + apply (Hsecond _ st1 [rename_node (path_name link) link d]);
        [reflexivity | tauto | simpl; lia |].
      constructor; [|constructor].
      destruct d; simpl; [discriminate | tauto].
    + apply (Hsecond r st1 []); [symmetry; apply app_nil_r | tauto | simpl; lia
                                 | constructor].
  - apply (Hsecond r st1 []); [symmetry; apply app_nil_r | tauto | simpl; lia
                               | constructor].
  - rewrite catch_item_children. apply Hnone.
Qed.

Lemma directory_link_attached_once_witness :
  let E := Fixture.env Fixture.sibling_link_disk in
  let q := Fixture.plain_query ["repo"] [] [] [] in
  let link := ["repo"; "sub"; "link"] in
  fs_resolve E link = Done ["repo"; "other"]
  /\ r_children
       (fst (fst (_process_item E (scan_directory_fuel 21 E q) link q
                                (new_result ["repo"; "sub"]) fresh_state 1
                                (ignore_patterns q) (local_path q)
                                (include_patterns q))))
     = [DirNode "link" 6
          [FileNode "secret.txt" 6 "secret" ["repo"; "other"; "secret.txt"]]
          1 0 link false]
  /\ exists new,
      r_children
        (fst (fst (_process_item E (scan_directory_fuel 21 E q) link q
                                 (new_result ["repo"; "sub"]) fresh_state 1
                                 (ignore_patterns q) (local_path q)
                                 (include_patterns q))))
      = r_children (new_result ["repo"; "sub"]) ++ new
      /\ (length new <= 1)%nat.
Proof.
  intros E q link.
  assert (Hres : fs_resolve E link = Done ["repo"; "other"]) by reflexivity.
  split; [exact Hres|]. split; [vm_compute; reflexivity|].
  destruct (directory_link_attached_once E q 20 link (new_result ["repo"; "sub"])
              fresh_state 1 ["repo"; "other"] eq_refl eq_refl Hres eq_refl eq_refl)
    as (new & Hnew & Hlen & _).
  exists new. split; assumption.
Defined.

(** ** From the walk to the content string *)

Lemma tree_under_dir (base : path) name size children fc dc npath ic :
  tree_under base (DirNode name size children fc dc npath ic)
  <-> Forall (tree_under base) children.
Proof.
  unfold tree_under. rewrite preorder_files_dir.
  induction children as [|c cs IH]; simpl.
  - split; constructor.
  - rewrite Forall_app, IH. split.
    + intros [Hc Hcs]. constructor; assumption.
    + intros H. inversion H; subst. tauto.
Qed.

Lemma tree_under_rename (base : path) (name : string) (p : path) (d : node) :
  relative_to p base <> None -> tree_under base d ->
  tree_under base (rename_node name p d).
Proof.
  intros Hp Hd. destruct d as [n s c np | n s ch fc dc np ic]; simpl.
  - unfold tree_under. simpl. constructor; [exact Hp | constructor].
  - apply tree_under_dir. apply tree_under_dir in Hd. exact Hd.
Qed.

Lemma process_file_under (E : environment) (base : path) (item : path)
    (r : dir_result) (st : scan_state) :
  relative_to item base <> None ->
  Forall (tree_under base) (r_children r) ->
  Forall (tree_under base) (r_children (fst (fst (_process_file E item r st)))).
Proof.
  intros Hitem Hr. unfold _process_file.
  destruct (fs_st_size E item) as [file_size|f]; [|exact Hr].
  destruct (MAX_TOTAL_SIZE_BYTES <? total_size st + file_size); [exact Hr|].
  destruct (MAX_FILES <? total_files (count_file file_size st)); [exact Hr|].
  destruct (read_content E item (count_file file_size st)) as [content st'].
  simpl. apply Forall_app. split; [exact Hr|].
  constructor; [|constructor]. unfold tree_under. simpl.
  constructor; [exact Hitem | constructor].
Qed.

Lemma process_symlink_under (E : environment) (q : query) (self : scanner)
    (item : path) (r : dir_result) (st : scan_state) (depth : nat)
    (include_patterns : list string) :
  scanner_under q self depth ->
  relative_to item (local_path q) <> None ->
  Forall (tree_under (local_path q)) (r_children r) ->
  Forall (tree_under (local_path q))
         (r_children (fst (fst (_process_symlink E self item r st depth (local_path q)
                                                 include_patterns)))).
Proof.
  intros Hself Hitem Hr. unfold _process_symlink.
  destruct (_is_safe_symlink E item (local_path q)) as [safe|e]; [|exact Hr].
  destruct (negb safe); [exact Hr|].
  destruct (fs_resolve E item) as [real_path|f]; [|exact Hr].
  destruct (bool_decide (real_path ∈ seen_paths st)); [exact Hr|].
  destruct (fs_is_file E real_path) as [[|]|f]; [| |exact Hr].
  { destruct (fs_st_size E real_path) as [file_size|f]; [|exact Hr].
    destruct (MAX_TOTAL_SIZE_BYTES <? total_size st + file_size);
      [exact Hr|].
    destruct (MAX_FILES <? total_files (count_file file_size st));
      [exact Hr|].
    destruct (read_content E real_path (count_file file_size st))
      as [content st'].
    simpl. apply Forall_app. split; [exact Hr|].
    constructor; [|constructor]. unfold tree_under. simpl.
    constructor; [exact Hitem | constructor]. }
  destruct (fs_is_dir E real_path) as [[|]|f]; [|exact Hr|exact Hr].
  pose proof (Hself real_path st) as Hscan.
  destruct (self real_path st (S depth)) as [st' [[d|]|e]]; try exact Hr.
  destruct (keeps_subdir (Some d) include_patterns); [|exact Hr].
  simpl. apply Forall_app. split; [exact Hr|].
  constructor; [|constructor].
  apply tree_under_rename; [exact Hitem|]. apply Hscan. reflexivity.
Qed.

Lemma process_item_under (E : environment) (q : query) (self : scanner)
    (item : path) (r : dir_result) (st : scan_state) (depth : nat) :
  scanner_under q self depth ->
  Forall (tree_under (local_path q)) (r_children r) ->
  Forall (tree_under (local_path q))
         (r_children (fst (fst (_process_item E self item q r st depth
                                              (ignore_patterns q) (local_path q)
                                              (include_patterns q))))).
Proof.
  intros Hself Hr. unfold _process_item.
  destruct (_should_exclude E item (local_path q) (ignore_patterns q)) eqn:Hexcl;
    [exact Hr|].
  assert (Hitem : relative_to item (local_path q) <> None).
  { unfold _should_exclude in Hexcl.
    destruct (relative_to item (local_path q)); [discriminate | discriminate]. }
  destruct (fs_is_file E item) as [is_file|f]; [|exact Hr].
  destruct (is_file && patterns_truthy (query_include_patterns q)
            && negb (_should_include E item (local_path q) (include_patterns q)));
    [exact Hr|].
  rewrite catch_item_children.
  assert (Hcont : forall (r1 : dir_result) (st1 : scan_state),
             Forall (tree_under (local_path q)) (r_children r1) ->
             Forall (tree_under (local_path q))
               (r_children
                  (fst (fst
                     (if is_file then _process_file E item r1 st1
                      else
                        match fs_is_dir E item with
                        | Failed f => (r1, st1, Raise (exn_of_os_error f))
                        | Done true =>
                            match self item st1 (S depth) with
                            | (st2, Raise e) => (r1, st2, Raise e)
                            | (st2, Ok subdir) =>
                                match subdir with
                                | Some d =>
                                    if keeps_subdir subdir (include_patterns q)
                                    then (add_subdir d r1, st2, Ok tt)
                                    else (r1, st2, Ok tt)
                                | None => (r1, st2, Ok tt)
                                end
                            end
                        | Done false => (r1, st1, Ok tt)
                        end))))).
  { intros r1 st1 H1.
    destruct is_file; [apply process_file_under; assumption|].
    destruct (fs_is_dir E item) as [[|]|f]; [|exact H1|exact H1].
    pose proof (Hself item st1) as Hscan.
    destruct (self item st1 (S depth)) as [st' [[d|]|e]]; try exact H1.
    destruct (keeps_subdir (Some d) (include_patterns q)); [|exact H1].
    simpl. apply Forall_app. split; [exact H1|].
    constructor; [|constructor]. apply Hscan. reflexivity. }
  destruct (fs_is_symlink E item) as [[|]|f]; [|apply Hcont; exact Hr|exact Hr].
  pose proof (process_symlink_under E q self item r st depth (include_patterns q)
                Hself Hitem Hr) as H1.
  revert H1.
  destruct (_process_symlink E self item r st depth (local_path q)
                             (include_patterns q)) as [[r1 st1] [[]|e]];
    simpl; intros H1; [apply Hcont; exact H1 | exact H1].
Qed.

Lemma process_items_under (E : environment) (q : query) (self : scanner)
    (depth : nat) (items : list path) :
  scanner_under q self depth ->
  forall r st,
    Forall (tree_under (local_path q)) (r_children r) ->
    Forall (tree_under (local_path q))
           (r_children (fst (fst (process_items E self items q r st depth)))).
Proof.
  intros Hself. induction items as [|item rest IH]; intros r st Hr; [exact Hr|].
  simpl.
  pose proof (process_item_under E q self item r st depth Hself Hr) as H1.
  revert H1.
  destruct (_process_item E self item q r st depth (ignore_patterns q)
              (local_path q) (include_patterns q)) as [[r1 st1] [[]|e]]; intros H1.
  - apply IH. exact H1.
  - exact H1.
Qed.

Lemma scan_directory_body_under (E : environment) (q : query) (self : scanner)
    (p : path) (st : scan_state) (depth : nat) (nd : node) :
  scanner_under q self depth ->
  snd (scan_directory_body E q self p st depth) = Ok (Some nd) ->
  tree_under (local_path q) nd.
Proof.
  intros Hself. unfold scan_directory_body.
  destruct (Nat.ltb MAX_DIRECTORY_DEPTH depth); [discriminate|].
  destruct (MAX_FILES <=? total_files st); [discriminate|].
  destruct (MAX_TOTAL_SIZE_BYTES <=? total_size st); [discriminate|].
  destruct (fs_resolve E p) as [real_path|f]; [|discriminate].
  destruct (bool_decide (real_path ∈ seen_paths st)); [discriminate|].
  assert (Hfin : forall r' : dir_result,
             Forall (tree_under (local_path q)) (r_children r') ->
             tree_under (local_path q)
               (node_of_result (set_children (_sort_children (r_children r')) r'))).
  { intros r' Hr'. unfold node_of_result, set_children. simpl.
    apply tree_under_dir.
    eapply Permutation_Forall; [apply sort_children_perm | exact Hr']. }
  destruct (fs_iterdir E p) as [names|f].
  - pose proof (process_items_under E q self depth (map (path_child p) names) Hself
                  (new_result p) (trace (IoListdir p) (add_seen real_path st))
                  (Forall_nil _)) as Hloop.
    revert Hloop.
    destruct (process_items E self (map (path_child p) names) q (new_result p)
                (trace (IoListdir p) (add_seen real_path st)) depth)
      as [[r' st'] [[]|[]]]; simpl; intros Hloop; try discriminate;
      intros [= <-]; apply Hfin; exact Hloop.
  - destruct f; simpl; try discriminate. intros [= <-]. apply Hfin. constructor.
Qed.

Lemma scan_directory_fuel_under (E : environment) (q : query) (fuel : nat) :
  forall p st depth nd,
    snd (scan_directory_fuel fuel E q p st depth) = Ok (Some nd) ->
    tree_under (local_path q) nd.
Proof.
  induction fuel as [|fuel IH]; intros p st depth nd; [discriminate|].
  simpl. apply scan_directory_body_under. intros p' st' nd'. apply IH.
Qed.

Lemma extract_files_content_under (q : query) (limit : N) (nd : node) :
  tree_under (local_path q) nd ->
  forall files, exists files', _extract_files_content q nd limit files = Ok files'.
Proof.
  induction nd as [name size content npath | name size children fc dc npath ic IH]
    using node_tree_ind; intros Hunder files.
  - simpl. destruct (negb (String.eqb content NON_TEXT)); [|eauto].
    unfold tree_under in Hunder. simpl in Hunder. inversion Hunder as [|? ? Hp _].
    simpl in Hp. destruct (relative_to npath (local_path q)); [eauto | congruence].
  - apply tree_under_dir in Hunder. simpl. revert files.
    induction IH as [|c cs Hc Hcs IHcs]; intros files; [eauto|].
    inversion Hunder as [|? ? Hcu Hcsu]; subst.
    destruct (Hc Hcu files) as [files1 H1]. rewrite H1. apply IHcs. exact Hcsu.
Qed.

(** Every file node of a tree that a scan returns has a path below
    [local_path]: an entry that is not is excluded before it is looked at.
    The content of such a tree is therefore always extracted, no
    [relative_to] fails. *)
Theorem scanned_tree_is_extracted (E : environment) (q : query) (p : path)
    (st st' : scan_state) (depth : nat) (nodes : node) (limit : N) :
  _scan_directory E p q st depth = (st', Ok (Some nodes)) ->
  Forall (fun f => path_within (local_path q) (node_path f)) (preorder_files nodes)
  /\ exists files, _extract_files_content q nodes limit [] = Ok files.
Proof.
  intros Hscan.
  assert (Hunder : tree_under (local_path q) nodes).
  { unfold _scan_directory in Hscan.
    eapply scan_directory_fuel_under. rewrite Hscan. reflexivity. }
  split.
  - eapply Forall_impl; [|exact Hunder]. intros f Hf. cbv beta in Hf.
    destruct (relative_to (node_path f) (local_path q)) as [rel|] eqn:Hrel;
      [|congruence].
    apply relative_to_spec in Hrel. exists rel. exact Hrel.
  - apply extract_files_content_under. exact Hunder.
Qed.

Lemma scanned_tree_is_extracted_witness :
  let E := Fixture.env Fixture.sibling_link_disk in
  let q := Fixture.plain_query ["repo"] ["sub"] [] [] in
  exists st' nodes files,
    _scan_directory E (scan_root q) q fresh_state 0 = (st', Ok (Some nodes))
    /\ _extract_files_content q nodes MAX_FILE_SIZE [] = Ok files.
Proof.
  intros E q.
  destruct (_scan_directory E (scan_root q) q fresh_state 0) as [st' [[nodes|]|e]]
    eqn:H; try (vm_compute in H; discriminate).
  destruct (scanned_tree_is_extracted E q (scan_root q) fresh_state st' 0 nodes
              MAX_FILE_SIZE H) as (_ & files & Hfiles).
  exists st', nodes, files. split; [reflexivity | exact Hfiles].
Defined.





Lemma create_file_content_string_from_app (a b : list file_info) :
  forall output,
    _create_file_content_string_from output (a ++ b)
    = _create_file_content_string_from (_create_file_content_string_from output a) b.
Proof.
  induction a as [|file a IH]; intros output; [reflexivity|].
  simpl. destruct (fi_content file) as [content|]; [|apply IH].
  destruct (str_truthy content); apply IH.
Qed.

Lemma str_concat_app (a b : list string) :
  str_concat (a ++ b) = str_concat a +:+ str_concat b.
Proof.
  unfold str_concat. induction a as [|x a IH]; simpl; [reflexivity|].
  rewrite IH. symmetry. apply str_app_assoc.
Qed.

(** The content string of two lists of files, one after the other, is the
    content string of the first followed by that of the second: a block
    depends on its own file only. *)
Theorem content_string_of_append (a b : list file_info) :
  _create_file_content_string (a ++ b)
  = _create_file_content_string a +:+ _create_file_content_string b.
Proof.
  unfold _create_file_content_string.
  rewrite !create_file_content_string_from_spec.
  rewrite filter_app, map_app, str_concat_app.
  change ("" +:+ ?x) with x. reflexivity.
Qed.

Lemma str_of_N_not_empty (n : N) : str_of_N n <> "".
Proof.
  unfold str_of_N. destruct n as [|p]; [discriminate|].
  unfold N.to_uint.
  pose proof (DecimalPos.Unsigned.to_uint_nonnil p) as Hnil.
  destruct (Pos.to_uint p); [congruence | discriminate ..].
Qed.

Lemma str_app_not_empty (a b : string) : b <> "" -> a +:+ b <> "".
Proof.
  intros Hb. destruct a as [|c a]; [exact Hb|].
  change (String c a +:+ b) with (String c (a +:+ b)). discriminate.
Qed.

(** The token string: there is none exactly when the tokenizer fails; it is
    never the empty string; a count of at most 1000 is printed as it is,
    a count up to a million in thousands, and a larger one in millions. *)
Theorem token_string_cases (E : environment) (context_string : string) :
  (_generate_token_string E context_string = None
   <-> tiktoken_len E context_string = None)
  /\ (forall t, _generate_token_string E context_string = Some t -> t <> "")
  /\ (forall n, tiktoken_len E context_string = Some n ->
        _generate_token_string E context_string
        = Some (if n <=? 1000 then str_of_N n
                else if n <=? 1000000 then format_1f E n 1000 +:+ "k"
                     else format_1f E n 1000000 +:+ "M")).
Proof.
  unfold _generate_token_string.
  destruct (tiktoken_len E context_string) as [n|].
  - split.
    { split; [|discriminate].
      destruct (1000000 <? n); [|destruct (1000 <? n)]; discriminate. }
    split.
    + intros t.
      destruct (1000000 <? n); [|destruct (1000 <? n)]; intros [= <-];
        try (apply str_app_not_empty; discriminate).
      apply str_of_N_not_empty.
    + intros n' [= <-]. rewrite !N.leb_antisym.
      destruct (1000000 <? n) eqn:Hm; destruct (1000 <? n) eqn:Hk; simpl;
        try reflexivity.
      apply N.ltb_lt in Hm. apply N.ltb_ge in Hk. lia.
  - split; [tauto|]. split; discriminate.
Qed.

Lemma token_string_cases_witness :
  let E := Fixture.env Fixture.sample in
  tiktoken_len E "four" = Some 4
  /\ _generate_token_string E "four" = Some "4".
Proof.
  intros E.
  assert (H : tiktoken_len E "four" = Some 4) by reflexivity.
  split; [exact H|].
  exact (proj2 (proj2 (token_string_cases E "four")) 4 H).
Defined.

Lemma extract_files_content_ok_iff (q : query) (limit : N) (nd : node) :
  forall files,
    (exists files', _extract_files_content q nd limit files = Ok files')
    <-> Forall (fun f => path_within (local_path q) (node_path f))
               (filter is_text_node (preorder_files nd)).
Proof.
  induction nd as [name size content npath | name size children fc dc npath ic IH]
    using node_tree_ind; intros files.
  - simpl. unfold is_text_node. simpl.
    destruct (negb (String.eqb content NON_TEXT)); simpl.
    + destruct (relative_to npath (local_path q)) as [rel|] eqn:Hrel.
      * apply relative_to_spec in Hrel. split; [|eauto].
        intros _. constructor; [exists rel; exact Hrel | constructor].
      * apply relative_to_none in Hrel. split; [intros [f H]; discriminate|].
        intros H. inversion H; subst. simpl in *. contradiction.
    + split; [constructor | eauto].
  - rewrite preorder_files_dir. simpl. revert files.
    induction IH as [|c cs Hc Hcs IHcs]; intros files.
    + simpl. split; [constructor | eauto].
    + simpl. rewrite filter_app, Forall_app, <- (Hc files).
      destruct (_extract_files_content q c limit files) as [files1|e] eqn:H1.
      * rewrite <- (IHcs files1). split; [intros H; split; [eauto | exact H] | tauto].
      * split; [intros [f H]; discriminate | intros [[f H] _]; discriminate].
Qed.

(** [_extract_files_content] fails exactly when the tree holds a file
    node, not marked as binary, whose path is not below [local_path]; the
    paths of the files marked as binary are not looked at. *)
Theorem extract_files_content_fails_iff (q : query) (limit : N) (nd : node) :
  (exists files, _extract_files_content q nd limit [] = Ok files)
  <-> Forall (fun f => path_within (local_path q) (node_path f))
             (filter is_text_node (preorder_files nd)).
Proof. apply extract_files_content_ok_iff. Qed.

(** ** The single-file mode and the entry point *)

Lemma is_text_file_rejects (E : environment) (p : path) (file : list byte) (b : byte) :
  fs_open_rb E p = Some file -> In b (firstn 1024 file) -> allowed_byte b = false ->
  _is_text_file E p = false.
Proof.
  intros Hopen Hin Hb. unfold _is_text_file. rewrite Hopen.
  apply negb_false_iff.
  destruct (bytes_truthy (translate_delete (firstn 1024 file) text_characters))
    eqn:Hrest; [reflexivity|].
  apply translate_delete_empty in Hrest. rewrite Forall_forall in Hrest.
  specialize (Hrest b Hin). congruence.
Qed.

(** The single-file mode refuses what is not a regular file, and a file
    that cannot be opened or that holds, among its first 1024 bytes, a byte
    off the allow-list: it raises the [ValueError] that names the path. *)
Theorem single_file_refuses_binary (E : environment) (p : path) (q : query) :
  (fs_is_file E p = Done false ->
   _ingest_single_file E p q
   = Raises (Exn (ValueError ("Path " +:+ path_str p +:+ " is not a file"))))
  /\ (fs_is_file E p = Done true -> fs_open_rb E p = None ->
      _ingest_single_file E p q
      = Raises (Exn (ValueError ("File " +:+ path_str p +:+ " is not a text file"))))
  /\ (forall file b,
         fs_is_file E p = Done true -> fs_open_rb E p = Some file ->
         In b (firstn 1024 file) -> allowed_byte b = false ->
         _ingest_single_file E p q
         = Raises (Exn (ValueError ("File " +:+ path_str p +:+ " is not a text file")))).
Proof.
  split; [|split].
  - intros Hfile. unfold _ingest_single_file. rewrite Hfile. reflexivity.
  - intros Hfile Hopen. unfold _ingest_single_file. rewrite Hfile.
    unfold _is_text_file. rewrite Hopen. reflexivity.
  - intros file b Hfile Hopen Hin Hb. unfold _ingest_single_file. rewrite Hfile.
    rewrite (is_text_file_rejects E p file b Hopen Hin Hb). reflexivity.
Qed.

Lemma single_file_refuses_binary_witness :
  let E := Fixture.env Fixture.nul_disk in
  let q := Fixture.plain_query ["repo"] [] [] [] in
  let p := ["repo"; "nul.bin"] in
  fs_is_file E p = Done true /\ fs_open_rb E p = Some [x00]
  /\ _ingest_single_file E p q
     = Raises (Exn (ValueError "File /repo/nul.bin is not a text file")).
Proof.
  intros E q p.
  assert (Hfile : fs_is_file E p = Done true) by reflexivity.
  assert (Hopen : fs_open_rb E p = Some [x00]) by reflexivity.
  split; [exact Hfile|]. split; [exact Hopen|].
  exact (proj2 (proj2 (single_file_refuses_binary E p q)) [x00] x00 Hfile Hopen
               (or_introl eq_refl) eq_refl).
Defined.

(** The single-file mode returns exactly for a regular file that is
    classified as text, whose [stat] succeeds, that lies below
    [local_path], and that comes with a query that holds a [user_name]. *)
Theorem single_file_returns_iff (E : environment) (p : path) (q : query) :
  (exists out, _ingest_single_file E p q = Returns out)
  <-> fs_is_file E p = Done true /\ _is_text_file E p = true
      /\ (exists file_size, fs_st_size E p = Done file_size)
      /\ path_within (local_path q) p /\ user_name q <> None.
Proof.
  unfold _ingest_single_file.
  destruct (fs_is_file E p) as [[|]|f].
  2:{ split; [intros [out H]; discriminate | intros (H & _); discriminate]. }
  2:{ split; [intros [out H]; discriminate | intros (H & _); discriminate]. }
  destruct (_is_text_file E p).
  2:{ split; [intros [out H]; discriminate | intros (_ & H & _); discriminate]. }
  simpl.
  destruct (fs_st_size E p) as [file_size|f].
  2:{ split; [intros [out H]; discriminate
             | intros (_ & _ & [n H] & _); discriminate]. }
  destruct (relative_to p (local_path q)) as [rel|] eqn:Hrel.
  - apply relative_to_spec in Hrel.
    destruct (user_name q) as [user|].
    + split; [|eauto]. intros _.
      repeat split; [eauto | exists rel; exact Hrel | discriminate].
    + split; [intros [out H]; discriminate | intros (_ & _ & _ & _ & H); congruence].
  - apply relative_to_none in Hrel.
    split; [intros [out H]; discriminate | intros (_ & _ & _ & H & _); tauto].
Qed.

(** What the single-file mode returns: the diagram is the name of the file
    under the heading, and the content string is the one block of the file,
    holding its text or, for a file over the size limit, the words that say
    so; it is empty when the text of the file is empty. *)
Theorem single_file_output (E : environment) (p : path) (q : query)
    (summary tree content : string) :
  _ingest_single_file E p q = Returns (summary, tree, content) ->
  tree = "Directory structure:" +:+ LF +:+ "└── " +:+ path_name p
  /\ exists rel file_size,
      p = local_path q ++ rel /\ fs_st_size E p = Done file_size
      /\ content
         = let text := if max_file_size q <? file_size then TOO_LARGE
                       else _read_file_content E p in
           if str_truthy text
           then separator +:+ ("File: " +:+ rel_str rel +:+ LF)
                          +:+ separator +:+ (text +:+ LF +:+ LF)
           else "".
Proof.
  unfold _ingest_single_file.
  destruct (fs_is_file E p) as [[|]|f]; [|discriminate|discriminate].
  destruct (_is_text_file E p); [|discriminate]. simpl.
  destruct (fs_st_size E p) as [file_size|f]; [|discriminate].
  destruct (relative_to p (local_path q)) as [rel|] eqn:Hrel; [|discriminate].
  apply relative_to_spec in Hrel.
  destruct (user_name q) as [user|]; [|discriminate].
  intros [= _ <- <-]. split; [reflexivity|].
  exists rel, file_size. split; [exact Hrel|]. split; [reflexivity|].
  unfold _create_file_content_string. simpl.
  destruct (str_truthy (if max_file_size q <? file_size then TOO_LARGE
                        else _read_file_content E p)); reflexivity.
Qed.

Lemma single_file_output_witness :
  let E := Fixture.env Fixture.sample in
  let q := Fixture.plain_query ["repo"] [] [] [] in
  exists summary,
    _ingest_single_file E ["repo"; "a.txt"] q
    = Returns (summary, "Directory structure:" +:+ LF +:+ "└── a.txt",
               separator +:+ ("File: a.txt" +:+ LF) +:+ separator
                         +:+ ("alpha" +:+ LF +:+ LF))
    /\ exists rel file_size,
        ["repo"; "a.txt"] = local_path q ++ rel
        /\ fs_st_size E ["repo"; "a.txt"] = Done file_size.
Proof.
  intros E q.
  destruct (_ingest_single_file E ["repo"; "a.txt"] q) as [[[summary tree] content]|r]
    eqn:H; [|vm_compute in H; discriminate].
  destruct (single_file_output E ["repo"; "a.txt"] q summary tree content H)
    as (Htree & rel & file_size & Hrel & Hstat & Hcontent).
  exists summary. split.
  - rewrite Htree. f_equal. f_equal.
    vm_compute in H. injection H as _ _ <-. reflexivity.
  - exists rel, file_size. split; assumption.
Defined.



(** ** Cloning *)




(** [clone_repo] checks its configuration and the repository before it
    runs git: with an empty [url] or [local_path], or a repository that
    [_check_repo_exists] does not find, it raises a [ValueError] and no git
    command has run. *)
Theorem clone_repo_checks_first (P : Clone.programs) (config : Clone.CloneConfig) :
  Clone.url config = "" \/ Clone.local_path config = ""
  \/ Clone._check_repo_exists P (Clone.url config) = false ->
  exists msg, Clone.clone_repo P config = ([], inr (Clone.CloneValueError msg)).
Proof.
  unfold Clone.clone_repo.
  destruct (String.eqb_spec (Clone.url config) "") as [Hu|Hu].
  { intros _. rewrite Hu. simpl. eauto. }
  destruct (String.eqb_spec (Clone.local_path config) "") as [Hl|Hl].
  { intros _. unfold str_truthy. rewrite Hl.
    apply String.eqb_neq in Hu. rewrite Hu. simpl. eauto. }
  intros [H|[H|H]]; try contradiction.
  unfold str_truthy. apply String.eqb_neq in Hu. apply String.eqb_neq in Hl.
  rewrite Hu, Hl, H. simpl. eauto.
Qed.

Lemma clone_repo_checks_first_witness :
  let P := {| Clone.curl_head := fun _ => (0, "HTTP/2 404");
              Clone.run_git := fun _ => inl ("", "") |} in
  let config := {| Clone.url := "https://example.org/a/b"; Clone.local_path := "/tmp/b";
                   Clone.commit := None; Clone.branch := None |} in
  Clone._check_repo_exists P (Clone.url config) = false
  /\ exists msg, Clone.clone_repo P config = ([], inr (Clone.CloneValueError msg)).
Proof.
  intros P config.
  assert (H : Clone._check_repo_exists P (Clone.url config) = false) by reflexivity.
  split; [exact H|].
  exact (clone_repo_checks_first P config (or_intror (or_intror H))).
Defined.

(** With a commit, [clone_repo] clones with the whole history (no
    [--depth]) and then checks the commit out, whatever the branch of the
    configuration; the checkout runs only when the clone has succeeded, and
    its result is the result of the call. *)
Theorem clone_repo_with_commit (P : Clone.programs) (config : Clone.CloneConfig)
    (c : string) :
  Clone.url config <> "" -> Clone.local_path config <> "" ->
  Clone._check_repo_exists P (Clone.url config) = true ->
  Clone.commit config = Some c -> c <> "" ->
  let clone_cmd := ["git"; "clone"; "--single-branch"; Clone.url config;
                    Clone.local_path config] in
  let checkout_cmd := ["git"; "-C"; Clone.local_path config; "checkout"; c] in
  Clone.clone_repo P config
  = match Clone.run_git P clone_cmd with
    | inr msg => ([clone_cmd], inr (Clone.GitRuntimeError msg))
    | inl _ =>
        ([clone_cmd; checkout_cmd],
         match Clone.run_git P checkout_cmd with
         | inl out => inl out
         | inr msg => inr (Clone.GitRuntimeError msg)
         end)
    end.
Proof.
  intros Hu Hl Hexists Hc Hne clone_cmd checkout_cmd.
  unfold Clone.clone_repo, str_truthy.
  apply String.eqb_neq in Hu. apply String.eqb_neq in Hl.
  rewrite Hu, Hl, Hexists, Hc. simpl.
  unfold str_truthy. apply String.eqb_neq in Hne. rewrite Hne. simpl.
  unfold Clone.git. fold clone_cmd.
  destruct (Clone.run_git P clone_cmd); reflexivity.
Qed.

Lemma clone_repo_with_commit_witness :
  let P := {| Clone.curl_head := fun _ => (0, "HTTP/2 200");
              Clone.run_git := fun _ => inl ("", "") |} in
  let config := {| Clone.url := "https://example.org/a/b"; Clone.local_path := "/tmp/b";
                   Clone.commit := Some "abc123"; Clone.branch := Some "dev" |} in
  Clone._check_repo_exists P (Clone.url config) = true
  /\ Clone.clone_repo P config
     = ([["git"; "clone"; "--single-branch"; "https://example.org/a/b"; "/tmp/b"];
         ["git"; "-C"; "/tmp/b"; "checkout"; "abc123"]],
        inl ("", "")).
Proof.
  intros P config.
  assert (H : Clone._check_repo_exists P (Clone.url config) = true) by reflexivity.
  split; [exact H|].
  refine (clone_repo_with_commit P config "abc123" _ _ H eq_refl _); discriminate.
Defined.

(** Without a commit, a branch named main or master, in any letter case,
    is cloned like no branch at all: one shallow clone of the default
    branch; any other branch is cloned by name. *)
Theorem clone_repo_branch (P : Clone.programs) (config : Clone.CloneConfig) :
  Clone.url config <> "" -> Clone.local_path config <> "" ->
  Clone._check_repo_exists P (Clone.url config) = true ->
  opt_truthy (Clone.commit config) = false ->
  let default_cmd := ["git"; "clone"; "--depth=1"; "--single-branch"; Clone.url config;
                      Clone.local_path config] in
  (forall b, Clone.branch config = Some b ->
             str_lower b = "main" \/ str_lower b = "master" \/ b = "" ->
             Clone.clone_repo P config = Clone.git P [] default_cmd)
  /\ (Clone.branch config = None ->
      Clone.clone_repo P config = Clone.git P [] default_cmd)
  /\ (forall b, Clone.branch config = Some b ->
                str_lower b <> "main" -> str_lower b <> "master" -> b <> "" ->
                Clone.clone_repo P config
                = Clone.git P [] ["git"; "clone"; "--depth=1"; "--single-branch";
                                  "--branch"; b; Clone.url config;
                                  Clone.local_path config]).
Proof.
  intros Hu Hl Hexists Hc default_cmd.
  unfold Clone.clone_repo, str_truthy.
  apply String.eqb_neq in Hu. apply String.eqb_neq in Hl.
  rewrite Hu, Hl, Hexists, Hc. cbn [negb].
  split; [|split].
  - intros b -> Hb. simpl. unfold str_truthy.
    destruct Hb as [Hb|[Hb| ->]]; [rewrite Hb | rewrite Hb |]; simpl;
      rewrite ?andb_false_r; reflexivity.
  - intros ->. reflexivity.
  - intros b -> H1 H2 H3. simpl. unfold str_truthy.
    apply String.eqb_neq in H1. apply String.eqb_neq in H2. apply String.eqb_neq in H3.
    rewrite H1, H2, H3. reflexivity.
Qed.

Lemma clone_repo_branch_witness :
  let P := {| Clone.curl_head := fun _ => (0, "HTTP/2 200");
              Clone.run_git := fun _ => inl ("", "") |} in
  let config := {| Clone.url := "https://example.org/a/b"; Clone.local_path := "/tmp/b";
                   Clone.commit := None; Clone.branch := Some "Master" |} in
  Clone._check_repo_exists P (Clone.url config) = true
  /\ Clone.clone_repo P config
     = Clone.git P [] ["git"; "clone"; "--depth=1"; "--single-branch";
                       "https://example.org/a/b"; "/tmp/b"].
Proof.
  intros P config.
  assert (H : Clone._check_repo_exists P (Clone.url config) = true) by reflexivity.
  split; [exact H|].
  refine (proj1 (clone_repo_branch P config _ _ H eq_refl) "Master" eq_refl _);
    try discriminate.
  right. left. reflexivity.
Defined.
